(** * gokiq: a Go worker that drains Sidekiq-format queues

    A shallow embedding of the orchestrator's Go packages

      - [internal/job]          the job record and the executor's result,
      - [internal/redis]        the store adapter ([PollJobs], [EnqueueRetry],
                                [MoveToDLQ]),
      - [internal/sidecar]      the HTTP client with its retry loop and
                                circuit breaker, and the gRPC client,
      - [internal/concurrency]  the channel semaphore and the concurrent
                                processor,
      - [cmd/worker]            the supervisor loop,

    and of what [fmt] and [strconv] do to print a [float64], followed by the properties of the specification that were checked
    against them.  Go values are modelled as the code has them: [int] and
    [time.Duration] are 64-bit integers carried in [Z] with their
    wrap-around, instants are nanoseconds since the epoch, the Redis
    keyspace is a finite map from keys to lists and sorted sets, and every
    call that reads the clock, the network or the scheduler takes what it
    read as an argument. *)

From Stdlib Require Import ZArith QArith Qround Qpower Lia Lqa List Sorted SpecFloat.
From Stdlib Require Import OrderedTypeEx.
From stdpp Require Import base strings list gmap sorting.

Local Open Scope Z_scope.
Set Warnings "-register-all".

(** ** Go's machine integers, durations and instants *)

Module Go.

Definition int_min : Z := - 2 ^ 63.
Definition int_max : Z := 2 ^ 63 - 1.

(** Two's-complement wrap-around of a 64-bit signed integer: what
    [x++], [x--] and [a * b] leave in an [int] or a [time.Duration]. *)
Definition wrap (x : Z) : Z := (x + 2 ^ 63) mod 2 ^ 64 - 2 ^ 63.

Definition in_range (x : Z) : Prop := int_min <= x <= int_max.

(** [time.Duration] counts nanoseconds. *)
Definition Millisecond : Z := 1000000.
Definition Second : Z := 1000 * Millisecond.

(** An instant is a number of nanoseconds since the Unix epoch;
    [t.Unix()] is the number of whole seconds, rounded down. *)
Definition Unix (t : Z) : Z := t / Second.

(** [t.Add(d)]. *)
Definition Add (t d : Z) : Z := t + d.

(** [t.Sub(u)] and [time.Since(u)] (with [t] the current instant): the
    difference as a [Duration], saturated at the ends of its range. *)
Definition Sub (t u : Z) : Z := Z.max int_min (Z.min int_max (t - u)).

(** The zero [time.Time]: January 1, year 1, 00:00 UTC. *)
Definition zeroTime : Z := -62135596800 * Second.

(** [float64(n)] for an [int64]: the nearest value with a 53-bit
    significand, ties to even.  The float is carried as the rational
    it denotes. *)
Definition round53 (n : Z) : Z :=
  let a := Z.abs n in
  if a <=? 2 ^ 53 then n
  else
    let e := Z.log2 a - 52 in
    let q := a / 2 ^ e in
    let r := a mod 2 ^ e in
    let half := 2 ^ (e - 1) in
    let q' := if r <? half then q
              else if half <? r then q + 1
              else if Z.even q then q else q + 1 in
    Z.sgn n * (q' * 2 ^ e).

Definition float64 (n : Z) : Q := inject_Z (round53 n).

(** An [error] built by [fmt.Errorf(format, args...)]: the format, the
    arguments it interpolates and the error it wraps with [%w]. *)
Inductive arg : Type := AInt (n : Z) | AStr (s : string).
Inductive error : Type :=
| Errorf (format : string) (args : list arg) (wrapped : option error).

End Go.

(** ** internal/job: the record on the wire *)

Module job.

(** A decoded JSON value as [encoding/json] stores it in an
    [interface{}]: [nil], [bool], [float64], [string],
    [[]interface{}] or [map[string]interface{}] (the entries of a map
    are kept in key order, the order in which [fmt] prints them).  A
    [float64] is a sign with a mantissa and a binary exponent, or a
    signed zero: the literal [-0] decodes to the negative zero. *)
Inductive value : Type :=
| VNil
| VBool (b : bool)
| VNumber (f : spec_float)
| VString (s : string)
| VSlice (l : list value)
| VMap (m : list (string * value)).

Record SidekiqJob : Type := {
  Class : string;
  Args : list value;
  JID : string;
  Queue : string;
  CreatedAt : Q;
  EnqueuedAt : Q;
  Retry : Z;
  FailedAt : Q;
  ErrorMsg : string;
  ErrorClass : string
}.

Record JobResult : Type := {
  Status : string;
  Result : string;
  ExecutionTime : Q;
  ErrorMessage : string
}.

(** [encoding/json] on the two records.  The codec is Go's, not the
    repository's: the development is parametric in it. *)
Class JSON : Type := {
  Marshal : SidekiqJob -> string;
  Unmarshal : string -> option SidekiqJob;
  UnmarshalResult : string -> option JobResult
}.

End job.

(** ** The Redis server, as the adapter sees it *)

Module redis.
Import job.

(** What [cmd.Result()] hands back: a value, [redis.Nil], or a
    transport error. *)
Inductive reply (A : Type) : Type :=
| Reply (a : A)
| Nil
| Fail (e : Go.error).
Arguments Reply {A} a.
Arguments Nil {A}.
Arguments Fail {A} e.

(** The keyspace.  A list's head is its left end.  A sorted set is kept
    in rank order: ascending score, ties by member.  [wire] is the fate
    of the commands still to be sent on the connection ([true]: the
    command reaches the server and its reply comes back; [false]: a
    transport error; once the script is used up every command goes
    through). *)
Record Store : Type := {
  wire : list bool;
  lists : gmap string (list string);
  zsets : gmap string (list (Q * string))
}.

Definition ErrTransport : Go.error := Go.Errorf "redis: connection error" [] None.

Definition send (st : Store) : bool * Store :=
  match wire st with
  | [] => (true, st)
  | b :: w => (b, {| wire := w; lists := lists st; zsets := zsets st |})
  end.

Definition lrange (key : string) (st : Store) : list string :=
  default [] (lists st !! key).

Definition zrange (key : string) (st : Store) : list (Q * string) :=
  default [] (zsets st !! key).

Definition set_list (key : string) (l : list string) (st : Store) : Store :=
  {| wire := wire st;
     lists := match l with [] => delete key (lists st) | _ => <[key := l]> (lists st) end;
     zsets := zsets st |}.

Definition set_zset (key : string) (z : list (Q * string)) (st : Store) : Store :=
  {| wire := wire st;
     lists := lists st;
     zsets := match z with [] => delete key (zsets st) | _ => <[key := z]> (zsets st) end |}.

(** LPUSH key value: the value becomes the new head; replies with the
    new length. *)
Definition LPush (key value : string) (st : Store) : reply Z * Store :=
  match send st with
  | (false, st') => (Fail ErrTransport, st')
  | (true, st') =>
      let l := value :: lrange key st' in
      (Reply (Z.of_nat (length l)), set_list key l st')
  end.

(** LLEN key. *)
Definition LLen (key : string) (st : Store) : reply Z * Store :=
  match send st with
  | (false, st') => (Fail ErrTransport, st')
  | (true, st') => (Reply (Z.of_nat (length (lrange key st'))), st')
  end.

(** BLPOP key... timeout: the keys are tried in the order given and the
    head of the first non-empty list is removed.  With no other client
    pushing during the wait, empty lists all round end in [Nil] when
    the timeout expires. *)
Fixpoint blpop_scan (keys : list string) (st : Store) : option (string * string * Store) :=
  match keys with
  | [] => None
  | key :: rest =>
      match lrange key st with
      | v :: tl => Some (key, v, set_list key tl st)
      | [] => blpop_scan rest st
      end
  end.

Definition BLPop (timeout : Z) (keys : list string) (st : Store)
  : reply (list string) * Store :=
  match send st with
  | (false, st') => (Fail ErrTransport, st')
  | (true, st') =>
      match keys with
      | [] => (Fail (Go.Errorf "ERR wrong number of arguments for 'blpop' command" [] None), st')
      | _ =>
          match blpop_scan keys st' with
          | Some (key, v, st'') => (Reply [key; v], st'')
          | None => (Nil, st')
          end
      end
  end.

(** Rank order of a sorted set: by score, then by member, bytewise. *)
Definition entry_ltb (a b : Q * string) : bool :=
  match Qcompare (fst a) (fst b) with
  | Lt => true
  | Gt => false
  | Eq => match String.compare (snd a) (snd b) with Lt => true | _ => false end
  end.

Fixpoint zinsert (e : Q * string) (z : list (Q * string)) : list (Q * string) :=
  match z with
  | [] => [e]
  | x :: tl => if entry_ltb e x then e :: x :: tl else x :: zinsert e tl
  end.

Definition zremove (member : string) (z : list (Q * string)) : list (Q * string) :=
  filter (fun e => snd e <> member) z.

(** ZADD key score member: a member already present is moved to its
    new score; replies with the number of members added. *)
Definition ZAdd (key : string) (score : Q) (member : string) (st : Store)
  : reply Z * Store :=
  match send st with
  | (false, st') => (Fail ErrTransport, st')
  | (true, st') =>
      let z := zrange key st' in
      let z' := zinsert (score, member) (zremove member z) in
      (Reply (Z.of_nat (length z') - Z.of_nat (length z)), set_zset key z' st')
  end.

(** ZREMRANGEBYRANK key start stop, with the server's index rules: a
    negative index counts from the highest rank, the range is clipped
    to the set and removed with both ends included. *)
Definition zremrange (start stop : Z) (z : list (Q * string)) : list (Q * string) :=
  let llen := Z.of_nat (length z) in
  let start := if start <? 0 then llen + start else start in
  let stop := if stop <? 0 then llen + stop else stop in
  let start := if start <? 0 then 0 else start in
  if (stop <? start) || (llen <=? start) then z
  else
    let stop := if llen <=? stop then llen - 1 else stop in
    take (Z.to_nat start) z ++ drop (Z.to_nat (stop + 1)) z.

Definition ZRemRangeByRank (key : string) (start stop : Z) (st : Store)
  : reply Z * Store :=
  match send st with
  | (false, st') => (Fail ErrTransport, st')
  | (true, st') =>
      let z := zrange key st' in
      let z' := zremrange start stop z in
      (Reply (Z.of_nat (length z) - Z.of_nat (length z')), set_zset key z' st')
  end.

End redis.

(** ** internal/redis: the store adapter *)

Module Client.
Import job redis.

Section Adapter.
Context `{JSON}.

Definition ErrJSON : Go.error := Go.Errorf "json: cannot unmarshal" [] None.

Definition with_retry_metadata (now : Q) (j : SidekiqJob) : SidekiqJob :=
  {| Class := Class j; Args := Args j; JID := JID j; Queue := Queue j;
     CreatedAt := CreatedAt j; EnqueuedAt := EnqueuedAt j;
     Retry := Go.wrap (Retry j + 1);
     FailedAt := now;
     ErrorMsg := ErrorMsg j; ErrorClass := ErrorClass j |}.

Definition with_FailedAt (now : Q) (j : SidekiqJob) : SidekiqJob :=
  {| Class := Class j; Args := Args j; JID := JID j; Queue := Queue j;
     CreatedAt := CreatedAt j; EnqueuedAt := EnqueuedAt j;
     Retry := Retry j;
     FailedAt := now;
     ErrorMsg := ErrorMsg j; ErrorClass := ErrorClass j |}.

(** [fmt.Sprintf("queue:%s", queue)]. *)
Definition queue_key (queue : string) : string := "queue:" +:+ queue.

(** [PollJobs]: one BLPOP over [queue:<q>] for the queues in order,
    with a one-second timeout.  [(nil, nil)] is [inl None]. *)
Definition PollJobs (queues : list string) (st : Store)
  : (option SidekiqJob + Go.error) * Store :=
  let sidekiqQueues := map queue_key queues in
  match BLPop (1 * Go.Second) sidekiqQueues st with
  | (Nil, st') => (inl None, st')
  | (Fail err, st') =>
      (inr (Go.Errorf "failed to poll jobs from Redis: %w" [] (Some err)), st')
  | (Reply result, st') =>
      match result with
      | _ :: jobJSON :: _ =>
          match Unmarshal jobJSON with
          | Some sidekiqJob => (inl (Some sidekiqJob), st')
          | None =>
              (inr (Go.Errorf "failed to unmarshal job JSON: %w" [] (Some ErrJSON)), st')
          end
      | _ => (inr (Go.Errorf "invalid BLPOP result format" [] None), st')
      end
  end.

(** [EnqueueRetry].  [t1] and [t2] are the two readings of
    [time.Now()], in program order.  The record behind the pointer is
    updated before anything is sent, so the caller sees the updated
    record whatever the outcome: it is the first component.
    [json.Marshal] does not fail on a record that was decoded from
    JSON. *)
Definition EnqueueRetry (t1 t2 : Z) (jobToRetry : SidekiqJob) (delay : Z) (st : Store)
  : SidekiqJob * option Go.error * Store :=
  let now := Go.float64 (Go.Unix t1) in
  let jobToRetry := with_retry_metadata now jobToRetry in
  let jobJSON := Marshal jobToRetry in
  let retryAt := Go.Unix (Go.Add t2 delay) in
  if 0 <? delay then
    let score := Go.float64 retryAt in
    match ZAdd "schedule" score jobJSON st with
    | (Fail err, st') =>
        (jobToRetry, Some (Go.Errorf "failed to schedule retry job: %w" [] (Some err)), st')
    | (_, st') => (jobToRetry, None, st')
    end
  else
    let queueName := queue_key (Queue jobToRetry) in
    match LPush queueName jobJSON st with
    | (Fail err, st') =>
        (jobToRetry, Some (Go.Errorf "failed to enqueue retry job: %w" [] (Some err)), st')
    | (_, st') => (jobToRetry, None, st')
    end.

(** [MoveToDLQ].  [t1] and [t2] are again the two clock readings.  A
    failed trim is only printed: the fourth component is the
    warnings written to standard output. *)
Definition MoveToDLQ (t1 t2 : Z) (jobToMove : SidekiqJob) (st : Store)
  : SidekiqJob * option Go.error * Store * list Go.error :=
  let now := Go.float64 (Go.Unix t1) in
  let jobToMove := with_FailedAt now jobToMove in
  let jobJSON := Marshal jobToMove in
  let score := Go.float64 (Go.Unix t2) in
  match ZAdd "dead" score jobJSON st with
  | (Fail err, st') =>
      (jobToMove,
       Some (Go.Errorf "failed to move job to dead letter queue: %w" [] (Some err)),
       st', [])
  | (_, st') =>
      match ZRemRangeByRank "dead" 0 (-10001) st' with
      | (Fail err, st'') =>
          (jobToMove, None, st'',
           [Go.Errorf "Warning: failed to trim dead letter queue: %v" [] (Some err)])
      | (_, st'') => (jobToMove, None, st'', [])
      end
  end.

(** [GetQueueSize]. *)
Definition GetQueueSize (queueName : string) (st : Store) : reply Z * Store :=
  LLen (queue_key queueName) st.

End Adapter.

(** The producer, [enqueue_batch] of the enqueueing scripts: each
    encoded job in turn is left-pushed onto [queue:default]. *)
Definition enqueue_batch (jobs : list string) (st : Store) : Store :=
  foldl (fun st job => snd (LPush "queue:default" job st)) st jobs.

End Client.

(** ** strconv: how a float64 is written and read

    [fmt] prints a [float64] under [%v] as
    [strconv.FormatFloat(f, 'g', -1, 64)] does: the digits are the
    fewest that let [strconv.ParseFloat] find the same float again,
    and they are laid out in the [%e] form when the decimal exponent
    is below -4 or at least 6, and in the [%f] form otherwise.  A float64 is carried as the standard library's
    [spec_float] with a precision of 53 bits and [emax = 1024]:
    [S754_finite s m e] is [(-1)^s * m * 2^e]. *)

Module strconv.

Definition magnitude (m : positive) (e : Z) : Q := (inject_Z (Zpos m) * 2 ^ e)%Q.

(** The midpoints between [m * 2^e] and the floats next to it, in
    quarters of its unit in the last place.  The float below the least
    mantissa of a binade is only half a unit away. *)
Definition upper (m : positive) (e : Z) : Q :=
  (inject_Z (4 * Zpos m + 2) * 2 ^ (e - 2))%Q.

Definition lower (m : positive) (e : Z) : Q :=
  if (Zpos m =? 2 ^ 52) && (-1074 <? e)
  then (inject_Z (4 * Zpos m - 1) * 2 ^ (e - 2))%Q
  else (inject_Z (4 * Zpos m - 2) * 2 ^ (e - 2))%Q.

Definition Qlt_bool (a b : Q) : bool := negb (Qle_bool b a).

(** [ParseFloat] rounds to the nearest float, and a decimal half way
    between two floats to the one with the even mantissa: [q] reads
    back as [m * 2^e] when it lies between the midpoints, which
    themselves belong to the float whose mantissa is even. *)
Definition reads_back (m : positive) (e : Z) (q : Q) : bool :=
  if Z.even (Zpos m)
  then Qle_bool (lower m e) q && Qle_bool q (upper m e)
  else Qlt_bool (lower m e) q && Qlt_bool q (upper m e).

Definition within (m : positive) (e : Z) (q : Q) : Prop :=
  if Z.even (Zpos m)
  then (lower m e <= q /\ q <= upper m e)%Q
  else (lower m e < q /\ q < upper m e)%Q.

(** The decimal with digits [c] and exponent [k]. *)
Definition decimal (c k : Z) : Q := (inject_Z c * 10 ^ k)%Q.

(** The multiple of [10^k] that is written for [m * 2^e], if one
    reads back: of the two around the float, the one that reads back,
    and the nearer one if both do (the even one if they are equally
    near). *)
Definition pick (m : positive) (e k : Z) : option Z :=
  let t := (magnitude m e / 10 ^ k)%Q in
  let a := Qfloor t in
  let b := Qceiling t in
  match reads_back m e (decimal a k), reads_back m e (decimal b k) with
  | true, true =>
      match (t - inject_Z a ?= inject_Z b - t)%Q with
      | Lt => Some a
      | Gt => Some b
      | Eq => Some (if Z.even a then a else b)
      end
  | true, false => Some a
  | false, true => Some b
  | false, false => None
  end.

Fixpoint search (m : positive) (e : Z) (fuel : nat) (k : Z) : Z * Z :=
  match pick m e k with
  | Some c => (c, k)
  | None =>
      match fuel with
      | O => (0, k)
      | S fuel' => search m e fuel' (k - 1)
      end
  end.

(** The shortest digits: the multiple of the greatest power of ten
    that reads back.  The search goes down from a power of ten above
    the upper midpoint, and no further than the power at which the
    float itself is a multiple. *)
Definition shortest (m : positive) (e : Z) : Z * Z :=
  let top := Z.log2_up (Qceiling (upper m e)) / 3 + 2 in
  let bottom := Z.min e 0 in
  search m e (Z.to_nat (top - bottom)) top.

(** The decimal digits of a positive number, the first one first. *)
Fixpoint digits_from (fuel : nat) (n : Z) (acc : list Z) : list Z :=
  match fuel with
  | O => acc
  | S fuel' =>
      if n <? 10 then n :: acc else digits_from fuel' (n / 10) (n mod 10 :: acc)
  end.

Definition digits (n : Z) : list Z :=
  if n <=? 0 then [] else digits_from (S (Z.to_nat (Z.log2 n))) n [].

Definition digit_char (d : Z) : Ascii.ascii := Ascii.ascii_of_nat (48 + Z.to_nat d).

Fixpoint text (ds : list Z) : string :=
  match ds with
  | [] => EmptyString
  | d :: rest => String (digit_char d) (text rest)
  end.

Definition zeros (n : Z) : list Z := replicate (Z.to_nat n) 0.

(** [fmtE], the form [-d.dddde±dd]: the digits [d], the first [dp] of
    them before the point, [prec] digits after the first. *)
Definition fmtE (neg : bool) (d : list Z) (dp prec : Z) : string :=
  let nd := Z.of_nat (length d) in
  let m := Z.min nd (prec + 1) in
  let exp := if nd =? 0 then 0 else dp - 1 in
  (if neg then "-" else EmptyString) +:+
  text [hd 0 d] +:+
  (if 0 <? prec
   then "." +:+ text (firstn (Z.to_nat (m - 1)) (tl d) ++ zeros (prec + 1 - Z.max 1 m))
   else EmptyString) +:+
  "e" +:+
  (if exp <? 0 then "-" else "+") +:+
  (let a := Z.abs exp in
   if a <? 10 then text [0; a]
   else if a <? 100 then text [a / 10; a mod 10]
   else text [a / 100; (a / 10) mod 10; a mod 10]).

(** [fmtF], the form [-ddddddd.ddddd], with [prec] digits after the
    point. *)
Definition fmtF (neg : bool) (d : list Z) (dp prec : Z) : string :=
  let nd := Z.of_nat (length d) in
  (if neg then "-" else EmptyString) +:+
  (if 0 <? dp
   then text (firstn (Z.to_nat (Z.min nd dp)) d ++ zeros (dp - Z.min nd dp))
   else "0") +:+
  (if 0 <? prec
   then "." +:+
        text (map (fun i => let j := dp + Z.of_nat i in
                            if (0 <=? j) && (j <? nd) then nth (Z.to_nat j) d 0 else 0)
                  (seq 0 (Z.to_nat prec)))
   else EmptyString).

(** [formatDigits] for the format ['g'] and the shortest digits: the
    precision is the number of digits, and the exponent is compared
    with 6. *)
Definition formatDigits (neg : bool) (d : list Z) (dp : Z) : string :=
  let nd := Z.of_nat (length d) in
  let eprec := 6 in
  let exp := dp - 1 in
  if (exp <? -4) || (eprec <=? exp)
  then fmtE neg d dp (nd - 1)
  else fmtF neg d dp (Z.max (nd - dp) 0).

(** [FormatFloat(f, 'g', -1, 64)]. *)
Definition FormatFloat (f : spec_float) : string :=
  match f with
  | S754_nan => "NaN"
  | S754_infinity neg => if neg then "-Inf" else "+Inf"
  | S754_zero neg => formatDigits neg [] 0
  | S754_finite neg m e =>
      let '(c, k) := shortest m e in
      formatDigits neg (digits c) (k + Z.of_nat (length (digits c)))
  end.

(** *** Reading a decimal literal *)

Definition digit_value (a : Ascii.ascii) : option Z :=
  let n := Z.of_nat (Ascii.nat_of_ascii a) in
  if (48 <=? n) && (n <=? 57) then Some (n - 48) else None.

(** The digits [s] begins with: the number they spell after [acc],
    how many they are after [n], and what follows them. *)
Fixpoint scan (s : string) (acc n : Z) : Z * Z * string :=
  match s with
  | EmptyString => (acc, n, s)
  | String a rest =>
      match digit_value a with
      | Some d => scan rest (10 * acc + d) (n + 1)
      | None => (acc, n, s)
      end
  end.

(** [s] without [p] in front of it. *)
Fixpoint strip (p s : string) : option string :=
  match p, s with
  | EmptyString, _ => Some s
  | String a p', String b s' => if Ascii.eqb a b then strip p' s' else None
  | String _ _, EmptyString => None
  end.

Definition exponent (s : string) : option Z :=
  match strip "e" s with
  | None => match s with EmptyString => Some 0 | String _ _ => None end
  | Some r =>
      let '(sgn, r1) :=
        match strip "-" r with
        | Some r1 => (-1, r1)
        | None => match strip "+" r with Some r1 => (1, r1) | None => (1, r) end
        end in
      let '(x, nx, tail) := scan r1 0 0 in
      match tail with
      | EmptyString => if 0 <? nx then Some (sgn * x) else None
      | String _ _ => None
      end
  end.

Definition unsigned (s : string) : option Q :=
  let '(int, ni, s1) := scan s 0 0 in
  if ni =? 0 then None
  else
    let '(mant, nf, s2) :=
      match strip "." s1 with
      | Some r => scan r int 0
      | None => (int, 0, s1)
      end in
    match exponent s2 with
    | Some x => Some (decimal mant (x - nf))
    | None => None
    end.

(** The number that a decimal literal spells: [ddd] or [ddd.ddd],
    with [e±dd] after it or not, and [-] before it or not. *)
Definition read (s : string) : option Q :=
  match strip "-" s with
  | Some r => option_map Qopp (unsigned r)
  | None => unsigned s
  end.

(** The float64 nearest to [q], ties going to the even mantissa: the
    numerator divided by the denominator and rounded once, by the
    standard library's division. *)
Definition nearest (q : Q) : spec_float :=
  match Qnum q with
  | Zpos n => SFdiv 53 1024 (S754_finite false n 0) (S754_finite false (Qden q) 0)
  | Z0 => S754_zero false
  | Zneg n => SFdiv 53 1024 (S754_finite true n 0) (S754_finite false (Qden q) 0)
  end.

End strconv.

(** Notions for following [strconv.read] along what [FormatFloat]
    writes. *)
Module Literals.
Import strconv.

Definition is_digit (d : Z) : Prop := 0 <= d <= 9.

(** A string that does not go on with a digit. *)
Definition stops (s : string) : Prop :=
  match s with
  | EmptyString => True
  | String a _ => digit_value a = None
  end.

(** The number that the digits [ds] spell after [acc]. *)
Definition spelled (acc : Z) (ds : list Z) : Z := fold_left (fun v d => 10 * v + d) ds acc.

(** The exponent as [fmtE] writes it. *)
Definition exponent_text (exp : Z) : string :=
  "e" +:+ (if exp <? 0 then "-" else "+") +:+
  (let a := Z.abs exp in
   if a <? 10 then text [0; a]
   else if a <? 100 then text [a / 10; a mod 10]
   else text [a / 100; (a / 10) mod 10; a mod 10]).

End Literals.

(** ** internal/sidecar: the executor clients *)

Module sidecar.
Import job.

(** *** The circuit breaker *)

Inductive CircuitState : Type := StateClosed | StateOpen | StateHalfOpen.

Record CircuitBreaker : Type := {
  maxFailures : Z;
  resetTimeout : Z;
  failures : Z;
  lastFailTime : Z;
  state : CircuitState
}.

Definition NewCircuitBreaker (maxFailures resetTimeout : Z) : CircuitBreaker :=
  {| maxFailures := maxFailures; resetTimeout := resetTimeout;
     failures := 0; lastFailTime := Go.zeroTime; state := StateClosed |}.

Definition set_state (st : CircuitState) (cb : CircuitBreaker) : CircuitBreaker :=
  {| maxFailures := maxFailures cb; resetTimeout := resetTimeout cb;
     failures := failures cb; lastFailTime := lastFailTime cb; state := st |}.

(** [AllowRequest]; [now] is the instant [time.Since] reads.  The
    [default] arm of the switch has no state to serve. *)
Definition AllowRequest (now : Z) (cb : CircuitBreaker) : bool * CircuitBreaker :=
  match state cb with
  | StateClosed => (true, cb)
  | StateOpen =>
      if resetTimeout cb <? Go.Sub now (lastFailTime cb)
      then (true, set_state StateHalfOpen cb)
      else (false, cb)
  | StateHalfOpen => (true, cb)
  end.

Definition RecordSuccess (cb : CircuitBreaker) : CircuitBreaker :=
  {| maxFailures := maxFailures cb; resetTimeout := resetTimeout cb;
     failures := 0; lastFailTime := lastFailTime cb; state := StateClosed |}.

(** [RecordFailure]; [now] is the reading of [time.Now()]. *)
Definition RecordFailure (now : Z) (cb : CircuitBreaker) : CircuitBreaker :=
  let failures' := Go.wrap (failures cb + 1) in
  {| maxFailures := maxFailures cb; resetTimeout := resetTimeout cb;
     failures := failures'; lastFailTime := now;
     state := if maxFailures cb <=? failures' then StateOpen else state cb |}.

Definition GetState (cb : CircuitBreaker) : CircuitState := state cb.

(** *** The HTTP client *)

Record Request : Type := { method : string; url : string; body : string }.

(** What one [httpClient.Do] followed by [io.ReadAll] meets. *)
Inductive round_trip : Type :=
| DoError (err : Go.error)
| ReadError (status : Z) (err : Go.error)
| Response (status : Z) (body : string).

(** The network: what the attempt numbered [attempt] (from 0) of a
    request meets. *)
Definition Transport : Type := Request -> Z -> round_trip.

(** What the client does that can be seen from outside. *)
Inductive event : Type :=
| Sleep (d : Z)
| Do (attempt : Z).

(** [time.Duration(attempt*attempt) * 100 * time.Millisecond]. *)
Definition backoff (attempt : Z) : Z :=
  Go.wrap (Go.wrap (Go.wrap (attempt * attempt) * 100) * Go.Millisecond).

(** The body of the loop of [executeWithRetry], for the [n] iterations
    that remain.  [result] is never nil in this package and the request
    body is a [bytes.Buffer], whose [GetBody] cannot fail. *)
Fixpoint attempts {A : Type} (decode : string -> option A) (net : Z -> round_trip)
    (maxRetries : Z) (n : nat) (attempt : Z) (lastErr : option Go.error)
  : (A + Go.error) * list event :=
  match n with
  | O =>
      (inr (Go.Errorf "request failed after %d attempts: %w"
              [Go.AInt (maxRetries + 1)] lastErr), [])
  | S n' =>
      let pause := if 0 <? attempt then [Sleep (backoff attempt)] else [] in
      let '(r, rest) :=
        match net attempt with
        | DoError err =>
            attempts decode net maxRetries n' (attempt + 1)
              (Some (Go.Errorf "request failed (attempt %d): %w"
                       [Go.AInt (attempt + 1)] (Some err)))
        | ReadError _ err =>
            attempts decode net maxRetries n' (attempt + 1)
              (Some (Go.Errorf "failed to read response body (attempt %d): %w"
                       [Go.AInt (attempt + 1)] (Some err)))
        | Response status body =>
            if 500 <=? status then
              attempts decode net maxRetries n' (attempt + 1)
                (Some (Go.Errorf "server error (attempt %d): status %d, body: %s"
                         [Go.AInt (attempt + 1); Go.AInt status; Go.AStr body] None))
            else if 400 <=? status then
              (inr (Go.Errorf "client error: status %d, body: %s"
                      [Go.AInt status; Go.AStr body] None), [])
            else
              match decode body with
              | Some a => (inl a, [])
              | None =>
                  (inr (Go.Errorf "failed to decode response: %w" []
                          (Some (Go.Errorf "json: cannot unmarshal" [] None))), [])
              end
        end in
      (r, pause ++ Do attempt :: rest)
  end.

(** [executeWithRetry]: [for attempt := 0; attempt <= maxRetries; attempt++]. *)
Definition executeWithRetry {A : Type} (decode : string -> option A)
    (net : Transport) (req : Request) (maxRetries : Z)
  : (A + Go.error) * list event :=
  attempts decode (net req) maxRetries (Z.to_nat (maxRetries + 1)) 0 None.

Record HTTPClient : Type := { baseURL : string; breaker : CircuitBreaker }.

Definition NewHTTPClient (baseURL : string) : HTTPClient :=
  {| baseURL := baseURL; breaker := NewCircuitBreaker 5 (30 * Go.Second) |}.

Definition ErrCircuitOpen : Go.error := Go.Errorf "circuit breaker is open" [] None.

Section HTTP.
Context `{JSON}.

(** [HTTPClient.ExecuteJob].  [t_allow] is the instant at which the
    breaker is asked, [t_record] the one at which a failure is
    recorded.  [json.Marshal] does not fail on a decoded record, and
    [http.NewRequest] does not fail on a base URL that parses. *)
Definition ExecuteJob (net : Transport) (t_allow t_record : Z)
    (jobData : SidekiqJob) (c : HTTPClient)
  : (JobResult + Go.error) * HTTPClient * list event :=
  match AllowRequest t_allow (breaker c) with
  | (false, cb) => (inr ErrCircuitOpen, {| baseURL := baseURL c; breaker := cb |}, [])
  | (true, cb) =>
      let payload := Marshal jobData in
      let req := {| method := "POST"; url := baseURL c +:+ "/execute"; body := payload |} in
      match executeWithRetry UnmarshalResult net req 3 with
      | (inr err, evs) =>
          (inr err, {| baseURL := baseURL c; breaker := RecordFailure t_record cb |}, evs)
      | (inl result, evs) =>
          (inl result, {| baseURL := baseURL c; breaker := RecordSuccess cb |}, evs)
      end
  end.

End HTTP.

(** *** The gRPC client *)

Definition join (sep : string) (l : list string) : string :=
  match l with
  | [] => EmptyString
  | x :: tl => foldl (fun acc y => acc +:+ sep +:+ y) x tl
  end.

(** [fmt.Sprintf("%v", arg)] on a decoded JSON value; a [float64] is
    printed with the format ['g'] and the shortest precision. *)
Fixpoint Sprintf_v (arg : value) : string :=
  match arg with
  | VNil => "<nil>"
  | VBool b => if b then "true" else "false"
  | VNumber f => strconv.FormatFloat f
  | VString s => s
  | VSlice l => "[" +:+ join " " (map Sprintf_v l) +:+ "]"
  | VMap m =>
      "map[" +:+ join " " (map (fun kv => let '(k, v) := kv in k +:+ ":" +:+ Sprintf_v v) m) +:+ "]"
  end.

(** The request and response messages of the generated stubs, with the
    fields the client reads and writes. *)
Record JobRequest : Type := {
  rq_Class : string;
  rq_Jid : string;
  rq_Queue : string;
  rq_Args : list string;
  rq_CreatedAt : Q;
  rq_EnqueuedAt : Q
}.

Record JobResponse : Type := {
  rs_Status : string;
  rs_ExecutionTime : Q;
  rs_ErrorMessage : string
}.

Definition build_request (jobData : SidekiqJob) : JobRequest :=
  let strArgs := map Sprintf_v (Args jobData) in
  {| rq_Class := Class jobData; rq_Jid := JID jobData; rq_Queue := Queue jobData;
     rq_Args := strArgs;
     rq_CreatedAt := CreatedAt jobData; rq_EnqueuedAt := EnqueuedAt jobData |}.

(** [GRPCClient.ExecuteJob]; [rpc] is the remote call. *)
Definition GRPC_ExecuteJob (rpc : JobRequest -> JobResponse + Go.error)
    (jobData : SidekiqJob) : JobResult + Go.error :=
  match rpc (build_request jobData) with
  | inr err => inr (Go.Errorf "gRPC execution failed: %w" [] (Some err))
  | inl resp =>
      inl {| Status := rs_Status resp; Result := EmptyString;
             ExecutionTime := rs_ExecutionTime resp;
             ErrorMessage := rs_ErrorMessage resp |}
  end.

End sidecar.

(** ** internal/concurrency: the semaphore and the processor *)

Module concurrency.
Import job.

(** What a call that may wait or panic comes to. *)
Inductive outcome (A S : Type) : Type :=
| Returns (a : A) (s : S)
| Blocks
| Panics.
Arguments Returns {A S} a s.
Arguments Blocks {A S}.
Arguments Panics {A S}.

(** *** Semaphore *)

(** [ch] is a buffered channel of empty structs: all there is to it is
    how many tokens it holds, [len(ch)], and its buffer size, which is
    [capacity].  [wg] is the counter of the wait group. *)
Record Semaphore : Type := {
  ch : nat;
  capacity : Z;
  active : Z;
  wg : Z
}.

Definition NewSemaphore (capacity : Z) : Semaphore :=
  let capacity := if capacity <=? 0 then 1 else capacity in
  {| ch := 0; capacity := capacity; active := 0; wg := 0 |}.

(** The send [s.ch <- struct{}{}] is ready when the buffer has room. *)
Definition can_send (s : Semaphore) : bool := Z.of_nat (ch s) <? capacity s.

(** The arm under [case s.ch <- struct{}{}]. *)
Definition acquired (s : Semaphore) : Semaphore :=
  {| ch := S (ch s); capacity := capacity s;
     active := Go.wrap (active s + 1); wg := wg s + 1 |}.

(** [Acquire(ctx)].  [done] says whether [ctx] is cancelled; when both
    arms of the [select] are ready the runtime picks one, and [pick]
    says whether it picks the send. *)
Definition Acquire (done pick : bool) (s : Semaphore) : outcome bool Semaphore :=
  match can_send s, done with
  | true, false => Returns true (acquired s)
  | true, true => if pick then Returns true (acquired s) else Returns false s
  | false, true => Returns false s
  | false, false => Blocks
  end.

Definition TryAcquire (s : Semaphore) : outcome bool Semaphore :=
  if can_send s then Returns true (acquired s) else Returns false s.

(** [Release]: [wg.Done()] panics on a negative counter. *)
Definition Release (s : Semaphore) : outcome unit Semaphore :=
  match ch s with
  | S n =>
      if wg s - 1 <? 0 then Panics
      else Returns tt {| ch := n; capacity := capacity s;
                         active := Go.wrap (active s - 1); wg := wg s - 1 |}
  | O => Returns tt s
  end.

Definition ActiveCount (s : Semaphore) : Z := active s.
Definition Capacity (s : Semaphore) : Z := capacity s.

(** [Wait] returns once the wait group's counter is zero. *)
Definition Wait (s : Semaphore) : outcome unit Semaphore :=
  if wg s =? 0 then Returns tt s else Blocks.

(** *** ConcurrentProcessor *)

(** A line written through package [log]. *)
Inductive log_line : Type :=
| LogStarting (jid class : string)
| LogFailedErr (jid class : string) (err : Go.error) (duration : Z)
| LogCompleted (jid class : string) (duration : Z)
| LogFailed (jid class : string) (errorMessage : string) (duration : Z)
| LogShutdownInit (timeout : Z)
| LogShutdownDone
| LogShutdownTimeout (timeout : Z).

(** The [JobExecutor] interface, for an executor whose state is an [E]. *)
Class JobExecutor (E : Type) : Type := {
  ExecuteJob : SidekiqJob -> E -> (JobResult + Go.error) * E
}.

Section Processor.
Context {E : Type} `{JobExecutor E}.

(** [ctx_done]: [cp.cancel] was called.  [pwg]: the processor's own
    wait group.  [goroutines]: the jobs handed to a goroutine that
    has not run yet.  [executor] and [log] are what the goroutines
    share with the rest of the process. *)
Record ConcurrentProcessor : Type := {
  semaphore : Semaphore;
  ctx_done : bool;
  pwg : Z;
  running : bool;
  goroutines : list SidekiqJob;
  executor : E;
  log : list log_line
}.

Definition NewConcurrentProcessor (concurrency : Z) (executor : E) : ConcurrentProcessor :=
  {| semaphore := NewSemaphore concurrency; ctx_done := false; pwg := 0;
     running := true; goroutines := []; executor := executor; log := [] |}.

Definition ErrShuttingDown : Go.error := Go.Errorf "processor is shutting down" [] None.
Definition ErrAcquire : Go.error :=
  Go.Errorf "failed to acquire semaphore token: context cancelled" [] None.

(** [ProcessJob]: [Returns None] is the nil error. *)
Definition ProcessJob (pick : bool) (job : SidekiqJob) (cp : ConcurrentProcessor)
  : outcome (option Go.error) ConcurrentProcessor :=
  if negb (running cp) then Returns (Some ErrShuttingDown) cp
  else
    match Acquire (ctx_done cp) pick (semaphore cp) with
    | Blocks => Blocks
    | Panics => Panics
    | Returns false _ => Returns (Some ErrAcquire) cp
    | Returns true sem =>
        Returns None
          {| semaphore := sem; ctx_done := ctx_done cp; pwg := pwg cp + 1;
             running := running cp; goroutines := goroutines cp ++ [job];
             executor := executor cp; log := log cp |}
    end.

(** [executeJob]; [start] and [stop] are the readings behind
    [time.Now()] and [time.Since(start)].  It returns the executor
    after the call and the lines logged. *)
Definition executeJob (start stop : Z) (job : SidekiqJob) (ex : E)
  : E * list log_line :=
  let '(r, ex') := ExecuteJob job ex in
  let duration := Go.Sub stop start in
  (ex',
   LogStarting (JID job) (Class job) ::
   match r with
   | inr err => [LogFailedErr (JID job) (Class job) err duration]
   | inl result =>
       if String.eqb (Status result) "success"
       then [LogCompleted (JID job) (Class job) duration]
       else [LogFailed (JID job) (Class job) (ErrorMessage result) duration]
   end).

(** The goroutine that [ProcessJob] spawns, run to its end: the
    oldest one waiting runs [executeJob], then its deferred calls,
    [semaphore.Release()] and [wg.Done()]. *)
Definition goroutine (start stop : Z) (cp : ConcurrentProcessor)
  : outcome unit ConcurrentProcessor :=
  match goroutines cp with
  | [] => Returns tt cp
  | job :: rest =>
      let '(ex', lines) := executeJob start stop job (executor cp) in
      match Release (semaphore cp) with
      | Returns _ sem =>
          if pwg cp - 1 <? 0 then Panics
          else Returns tt
                 {| semaphore := sem; ctx_done := ctx_done cp; pwg := pwg cp - 1;
                    running := running cp; goroutines := rest;
                    executor := ex'; log := log cp ++ lines |}
      | Blocks => Blocks
      | Panics => Panics
      end
  end.

(** *** The goroutines in flight, and [Shutdown] *)

(** The line [executeJob] logs once the executor call has returned. *)
Definition outcome_line (job : SidekiqJob) (r : JobResult + Go.error) (duration : Z)
  : log_line :=
  match r with
  | inr err => LogFailedErr (JID job) (Class job) err duration
  | inl result =>
      if String.eqb (Status result) "success"
      then LogCompleted (JID job) (Class job) duration
      else LogFailed (JID job) (Class job) (ErrorMessage result) duration
  end.

(** A processor with the goroutines that are inside [executeJob]: each
    has read the clock, which gave [start], has logged its first line
    and waits for the executor.  Like the goroutines of [goroutines],
    which [ProcessJob] has spawned and which have not begun, it holds
    its token and is counted in the processor's wait group. *)
Record Pool : Type := {
  proc : ConcurrentProcessor;
  inflight : list (SidekiqJob * Z)
}.

(** A processor none of whose goroutines has begun. *)
Definition at_rest (cp : ConcurrentProcessor) : Pool := {| proc := cp; inflight := [] |}.

(** The [i]-th spawned goroutine begins [executeJob]: it reads the
    clock and logs its first line. *)
Definition begin (i : nat) (start : Z) (p : Pool) : Pool :=
  match goroutines (proc p) !! i with
  | None => p
  | Some job =>
      {| proc := {| semaphore := semaphore (proc p); ctx_done := ctx_done (proc p);
                    pwg := pwg (proc p); running := running (proc p);
                    goroutines := delete i (goroutines (proc p));
                    executor := executor (proc p);
                    log := log (proc p) ++ [LogStarting (JID job) (Class job)] |};
         inflight := inflight p ++ [(job, start)] |}
  end.

(** The [k]-th goroutine in flight comes to its end: the executor call
    returns, [executeJob] reads the clock, which gives [stop], and
    logs the outcome; then the deferred calls run,
    [semaphore.Release()] and [wg.Done()]. *)
Definition finish (k : nat) (stop : Z) (p : Pool) : outcome unit Pool :=
  match inflight p !! k with
  | None => Returns tt p
  | Some (job, start) =>
      let '(r, ex') := ExecuteJob job (executor (proc p)) in
      match Release (semaphore (proc p)) with
      | Returns _ sem =>
          if pwg (proc p) - 1 <? 0 then Panics
          else Returns tt
                 {| proc := {| semaphore := sem; ctx_done := ctx_done (proc p);
                               pwg := pwg (proc p) - 1; running := running (proc p);
                               goroutines := goroutines (proc p);
                               executor := ex';
                               log := log (proc p)
                                        ++ [outcome_line job r (Go.Sub stop start)] |};
                    inflight := delete k (inflight p) |}
      | Blocks => Blocks
      | Panics => Panics
      end
  end.

(** What the goroutines do while another call is under way, each at
    the instant its clock reading gives. *)
Inductive happening : Type :=
| Begins (i : nat) (start : Z)
| Ends (k : nat) (stop : Z).

Definition instant (h : happening) : Z :=
  match h with
  | Begins _ start => start
  | Ends _ stop => stop
  end.

Definition happen (h : happening) (p : Pool) : outcome unit Pool :=
  match h with
  | Begins i start => Returns tt (begin i start p)
  | Ends k stop => finish k stop p
  end.

(** Both wait groups are at zero: [cp.wg.Wait()] and
    [cp.semaphore.Wait()] return. *)
Definition drained (p : Pool) : bool :=
  (pwg (proc p) =? 0) && (wg (semaphore (proc p)) =? 0).

(** The wait inside [Shutdown]: the happenings of [hs] take place, in
    order, until both wait groups are at zero or the next one would
    come after [fire], the instant at which the timer fires.  The
    result carries the instant of the last one that took place
    ([last] when none did). *)
Fixpoint wait (fire : Z) (hs : list happening) (last : Z) (p : Pool) : outcome Z Pool :=
  match hs with
  | [] => Returns last p
  | h :: rest =>
      if drained p then Returns last p
      else if fire <? instant h then Returns last p
      else
        match happen h p with
        | Returns _ p' => wait fire rest (Z.max last (instant h)) p'
        | Blocks => Blocks
        | Panics => Panics
        end
  end.

Definition with_log (lines : list log_line) (cp : ConcurrentProcessor)
  : ConcurrentProcessor :=
  {| semaphore := semaphore cp; ctx_done := ctx_done cp; pwg := pwg cp;
     running := running cp; goroutines := goroutines cp;
     executor := executor cp; log := log cp ++ lines |}.

Definition with_pool_log (lines : list log_line) (p : Pool) : Pool :=
  {| proc := with_log lines (proc p); inflight := inflight p |}.

Definition ErrShutdownTimeout : Go.error := Go.Errorf "shutdown timeout exceeded" [] None.

(** [Shutdown(timeout)], called at the instant [now].  [hs] is what
    the goroutines do from then on.  The timer of [time.After(timeout)]
    fires at [now + timeout], and at once when [timeout] is zero or
    negative.  The goroutine that waits on the two wait groups closes
    [done] [wake] nanoseconds after both are at zero.  The [select]
    takes the arm that is ready first, and when both are ready at the
    same instant the runtime picks one: [pick] says whether it picks
    [done].  No [ProcessJob] is under way during the call: the only
    goroutines that run besides the waiting one are those that were
    spawned before it. *)
Definition Shutdown (timeout now : Z) (hs : list happening) (wake : N) (pick : bool)
    (p : Pool) : outcome (option Go.error) Pool :=
  if negb (running (proc p)) then Returns None p
  else
    let p0 := {| proc := {| semaphore := semaphore (proc p); ctx_done := true;
                            pwg := pwg (proc p); running := false;
                            goroutines := goroutines (proc p);
                            executor := executor (proc p);
                            log := log (proc p) ++ [LogShutdownInit timeout] |};
                 inflight := inflight p |} in
    let fire := if 0 <? timeout then Go.Add now timeout else now in
    match wait fire hs now p0 with
    | Returns last p' =>
        let closed := last + Z.of_N wake in
        if drained p' && ((closed <? fire) || ((closed =? fire) && pick))
        then Returns None (with_pool_log [LogShutdownDone] p')
        else Returns (Some ErrShutdownTimeout)
               (with_pool_log [LogShutdownTimeout timeout] p')
    | Blocks => Blocks
    | Panics => Panics
    end.

Definition ActiveJobs (cp : ConcurrentProcessor) : Z := ActiveCount (semaphore cp).
Definition IsRunning (cp : ConcurrentProcessor) : bool := running cp.

End Processor.

End concurrency.

(** ** cmd/worker: the supervisor loop *)

Module worker.
Import job redis concurrency.

(** The loop's own lines on package [log]. *)
Inductive line : Type :=
| LogPollError (err : Go.error)
| LogSubmitError (err : Go.error).

Section Loop.
Context {E : Type} `{JobExecutor E} `{JSON}.

Record World : Type := {
  redisClient : Store;
  processor : ConcurrentProcessor (E := E);
  output : list line
}.

(** What one turn of [for { select { ... } }] comes to: the goroutine
    returns, or goes round again after sleeping [slept], or is held
    inside [ProcessJob] with the job it has popped, or panics. *)
Inductive turn : Type :=
| Return
| Again (w : World) (slept : list Z)
| Held (w : World) (job : SidekiqJob)
| Panic.

(** One turn.  [cancelled] says whether [ctx] is done when the
    [select] looks; [pick] is passed on to [ProcessJob]. *)
Definition iteration (cancelled pick : bool) (Queues : list string) (PollInterval : Z)
    (w : World) : turn :=
  if cancelled then Return
  else
    match Client.PollJobs Queues (redisClient w) with
    | (inr err, st) =>
        Again {| redisClient := st; processor := processor w;
                 output := output w ++ [LogPollError err] |}
              [1 * Go.Second]
    | (inl None, st) =>
        Again {| redisClient := st; processor := processor w; output := output w |}
              [PollInterval]
    | (inl (Some job), st) =>
        match ProcessJob pick job (processor w) with
        | Returns (Some err) cp =>
            Again {| redisClient := st; processor := cp;
                     output := output w ++ [LogSubmitError err] |} []
        | Returns None cp =>
            Again {| redisClient := st; processor := cp; output := output w |} []
        | Blocks =>
            Held {| redisClient := st; processor := processor w; output := output w |} job
        | Panics => Panic
        end
    end.

(** A goroutine of the processor run to its end, seen from the whole
    process.  The closure holds the processor and the job and
    nothing else: it has no handle on the store. *)
Definition run_goroutine (start stop : Z) (w : World) : outcome unit World :=
  match goroutine start stop (processor w) with
  | Returns _ cp =>
      Returns tt {| redisClient := redisClient w; processor := cp; output := output w |}
  | Blocks => Blocks
  | Panics => Panics
  end.

End Loop.

End worker.

(** ** Values for closed examples *)

Module Examples.
Import job.

Definition job_of (jid : string) : SidekiqJob :=
  {| Class := "HardWorkJob"; Args := [VString "User"; VNumber (S754_finite false 4503599627370496 (-51))];
     JID := jid; Queue := "default";
     CreatedAt := 0; EnqueuedAt := 0; Retry := 0; FailedAt := 0;
     ErrorMsg := EmptyString; ErrorClass := EmptyString |}.

Definition result_of (status : string) : JobResult :=
  {| Status := status; Result := EmptyString; ExecutionTime := 0;
     ErrorMessage := EmptyString |}.

(** A stand-in for [encoding/json] in closed examples: a job travels
    as its jid, a result as its status. *)
Definition codec : JSON :=
  {| Marshal := JID;
     Unmarshal := fun s => Some (job_of s);
     UnmarshalResult := fun s => Some (result_of s) |}.

Definition job_with_args (args : list value) : SidekiqJob :=
  {| Class := "HardWorkJob"; Args := args; JID := "j1"; Queue := "default";
     CreatedAt := 0; EnqueuedAt := 0; Retry := 0; FailedAt := 0;
     ErrorMsg := EmptyString; ErrorClass := EmptyString |}.

(** An executor that is down: every call ends in a transport error. *)
Definition down : concurrency.JobExecutor unit :=
  {| concurrency.ExecuteJob := fun _ ex =>
       (inr (Go.Errorf "connection refused" [] None), ex) |}.

Definition empty_store : redis.Store :=
  {| redis.wire := []; redis.lists := ∅; redis.zsets := ∅ |}.

End Examples.

(** ** Runs: a producer and repeated polls *)

Module Runs.
Import job redis.

(** A producer that left-pushes the encoded [jobs], in order, onto the
    list of [queue]; [Client.enqueue_batch] is this producer on
    [default]. *)
Definition produce (queue : string) (jobs : list string) (st : Store) : Store :=
  foldl (fun st job => snd (LPush (Client.queue_key queue) job st)) st jobs.

(** [n] calls of [PollJobs], one after the other. *)
Fixpoint polls `{JSON} (n : nat) (queues : list string) (st : Store)
  : list (option SidekiqJob + Go.error) * Store :=
  match n with
  | O => ([], st)
  | S n' =>
      let '(r, st') := Client.PollJobs queues st in
      let '(rs, st'') := polls n' queues st' in
      (r :: rs, st'')
  end.

End Runs.

(** ** Rank order of a sorted set, as a relation *)

Module Rank.

(** [a] does not rank above [b]. *)
Definition entry_le (a b : Q * string) : Prop := redis.entry_ltb b a = false.

(** The set is in rank order. *)
Definition ranked (z : list (Q * string)) : Prop := StronglySorted entry_le z.

End Rank.

(** ** Runs of the circuit breaker *)

Module BreakerRuns.
Import sidecar.

(** [RecordFailure] called at each of the instants [times], in order. *)
Definition record_failures (times : list Z) (cb : CircuitBreaker) : CircuitBreaker :=
  foldl (fun cb now => RecordFailure now cb) cb times.

End BreakerRuns.

(** ** Runs of the HTTP retry loop *)

Module HTTPRuns.
Import sidecar.

(** The outcomes after which the loop goes round again: no response,
    an unreadable body, or a status from 500 up. *)
Definition retryable (o : round_trip) : bool :=
  match o with
  | DoError _ => true
  | ReadError _ _ => true
  | Response status _ => 500 <=? status
  end.

(** What one attempt shows: the pause before it, if it is not the
    first, and the request. *)
Definition attempt_events (attempt : Z) : list event :=
  (if 0 <? attempt then [Sleep (backoff attempt)] else []) ++ [Do attempt].

(** [k] attempts in a row, from the one numbered [attempt]. *)
Fixpoint attempts_events (attempt : Z) (k : nat) : list event :=
  match k with
  | O => []
  | S k' => attempt_events attempt ++ attempts_events (attempt + 1) k'
  end.

(** The attempts numbered 0 to [k]. *)
Definition trace_through (k : nat) : list event := attempts_events 0 (S k).

(** The loop as [ExecuteJob] runs it: [maxRetries] is 3, so there are
    four turns at most, from attempt 0. *)
Definition four_attempts {A : Type} (decode : string -> option A) (net : Z -> round_trip)
  : (A + Go.error) * list event :=
  attempts decode net 3 4 0 None.

(** What the loop returns on a response that ends it. *)
Definition verdict {A : Type} (decode : string -> option A) (o : round_trip)
  : A + Go.error :=
  match o with
  | Response status body =>
      if 400 <=? status then
        inr (Go.Errorf "client error: status %d, body: %s"
               [Go.AInt status; Go.AStr body] None)
      else
        match decode body with
        | Some a => inl a
        | None =>
            inr (Go.Errorf "failed to decode response: %w" []
                   (Some (Go.Errorf "json: cannot unmarshal" [] None)))
        end
  | DoError err => inr err
  | ReadError _ err => inr err
  end.

End HTTPRuns.

(** A network for closed examples: the first two attempts meet a 500,
    the third a 200 whose body decodes to a result with [Status] =
    [failure]. *)
Module ExampleNet.
Import sidecar.

Definition flaky : Transport := fun _ attempt =>
  if attempt <? 2 then Response 500 "Internal Server Error" else Response 200 "failure".

End ExampleNet.

(** ** The semaphore between calls *)

Module SemaphoreRuns.
Import concurrency.

(** How the fields hang together when no call is in progress: the
    tokens in the channel, the active count and the wait group's
    counter agree, and the channel is within its buffer. *)
Definition consistent (s : Semaphore) : Prop :=
  Z.of_nat (ch s) = active s /\ wg s = active s /\
  0 <= active s <= capacity s /\ capacity s <= Go.int_max.

End SemaphoreRuns.

(** ** The semaphore's calls, step by step *)

Module Interleaving.
Import concurrency.

(** A call that has passed its [select] and has not returned.  In
    [Acquire] and [TryAcquire] the send on [s.ch] comes first and the
    locked section that raises [active] and the wait group after it.
    In [Release] the receive comes first, then the locked section that
    lowers [active], then [s.wg.Done()]. *)
Inductive call : Type :=
| Sent
| Taken
| Lowered.

(** The semaphore and the calls in progress on it, one per goroutine. *)
Record Machine : Type := { sem : Semaphore; calls : list call }.

(** What the scheduler lets happen next: a goroutine enters a call and
    runs its [select], or the call numbered [i] among those in progress
    runs its next step. *)
Inductive move : Type :=
| EnterAcquire (done pick : bool)
| EnterTryAcquire
| EnterRelease
| Resume (i : nat).

(** What a move shows to the goroutine that made it: its call goes on,
    or returns, an acquire with its boolean. *)
Inductive shown : Type :=
| GoesOn
| Returned (result : option bool).

(** [s.ch <- struct{}{}] has gone through. *)
Definition sent (m : Machine) : Machine :=
  {| sem := {| ch := S (ch (sem m)); capacity := capacity (sem m);
               active := active (sem m); wg := wg (sem m) |};
     calls := calls m ++ [Sent] |}.

(** One move.  [Blocks]: the move cannot be made now (an [Acquire]
    that finds the channel full and the context open waits; there is
    no call numbered [i]). *)
Definition step (mv : move) (m : Machine) : outcome shown Machine :=
  match mv with
  | EnterAcquire done pick =>
      match can_send (sem m), done with
      | true, false => Returns GoesOn (sent m)
      | true, true =>
          if pick then Returns GoesOn (sent m) else Returns (Returned (Some false)) m
      | false, true => Returns (Returned (Some false)) m
      | false, false => Blocks
      end
  | EnterTryAcquire =>
      if can_send (sem m) then Returns GoesOn (sent m)
      else Returns (Returned (Some false)) m
  | EnterRelease =>
      match ch (sem m) with
      | S n =>
          Returns GoesOn
            {| sem := {| ch := n; capacity := capacity (sem m);
                         active := active (sem m); wg := wg (sem m) |};
               calls := calls m ++ [Taken] |}
      | O => Returns (Returned None) m
      end
  | Resume i =>
      match calls m !! i with
      | None => Blocks
      | Some Sent =>
          Returns (Returned (Some true))
            {| sem := {| ch := ch (sem m); capacity := capacity (sem m);
                         active := Go.wrap (active (sem m) + 1);
                         wg := wg (sem m) + 1 |};
               calls := delete i (calls m) |}
      | Some Taken =>
          Returns GoesOn
            {| sem := {| ch := ch (sem m); capacity := capacity (sem m);
                         active := Go.wrap (active (sem m) - 1);
                         wg := wg (sem m) |};
               calls := <[i := Lowered]> (calls m) |}
      | Some Lowered =>
          if wg (sem m) - 1 <? 0 then Panics
          else
            Returns (Returned None)
              {| sem := {| ch := ch (sem m); capacity := capacity (sem m);
                           active := active (sem m); wg := wg (sem m) - 1 |};
                 calls := delete i (calls m) |}
      end
  end.

(** The moves of a schedule, one after the other; [None] when one of
    them panics.  A move that cannot be made leaves everything as it
    is. *)
Fixpoint play (moves : list move) (m : Machine) : option Machine :=
  match moves with
  | [] => Some m
  | mv :: rest =>
      match step mv m with
      | Returns _ m' => play rest m'
      | Blocks => play rest m
      | Panics => None
      end
  end.

(** A semaphore on which no call is in progress. *)
Definition idle (s : Semaphore) : Machine := {| sem := s; calls := [] |}.

End Interleaving.

(** ** Runs of the processor *)

Module ProcessorRuns.
Import job concurrency.

(** An execution that ends in failure: the executor call returned an
    error, or a result whose status is not [success]. *)
Definition failed (r : JobResult + Go.error) : Prop :=
  match r with
  | inr _ => True
  | inl result => String.eqb (Status result) "success" = false
  end.

(** How the processor's fields hang together between steps: every
    goroutine still to run holds a token and is counted in the wait
    group. *)
Definition processor_ok {E : Type} (cp : ConcurrentProcessor (E := E)) : Prop :=
  SemaphoreRuns.consistent (semaphore cp) /\
  active (semaphore cp) = Z.of_nat (length (goroutines cp)) /\
  pwg cp = Z.of_nat (length (goroutines cp)).

End ProcessorRuns.

(** Worlds for closed examples: one job on [queue:default], the executor
    down, and a processor of capacity 1 that is either fresh or already
    shut down; and the first of them after one turn of the loop. *)
Module ExampleWorlds.
Import job redis concurrency worker.

Definition fresh : @World unit :=
  {| redisClient := Client.enqueue_batch ["j1"] Examples.empty_store;
     processor := @NewConcurrentProcessor unit 1 tt;
     output := [] |}.

Definition stopped : @World unit :=
  {| redisClient := Client.enqueue_batch ["j1"] Examples.empty_store;
     processor :=
       match @Shutdown unit Examples.down (30 * Go.Second) 0 [] 1000 true
               (at_rest (@NewConcurrentProcessor unit 1 tt)) with
       | Returns _ p => proc p
       | _ => @NewConcurrentProcessor unit 1 tt
       end;
     output := [] |}.

Definition submitted : @World unit :=
  match @iteration unit Examples.codec false true ["default"] 0 fresh with
  | Again w _ => w
  | _ => fresh
  end.

End ExampleWorlds.

(** ** internal/redis: reading and promoting the scheduled set *)

Module Sweep.
Import job redis.

(** ZRANGEBYSCORE key -inf max WITHSCORES: the entries whose score is at
    most [max], in rank order. *)
Definition ZRangeByScoreWithScores (key : string) (max : Q) (st : Store)
  : reply (list (Q * string)) * Store :=
  match send st with
  | (false, st') => (Fail ErrTransport, st')
  | (true, st') =>
      (Reply (filter (fun e => Is_true (Qle_bool (fst e) max)) (zrange key st')), st')
  end.

Section Adapter.
Context `{JSON}.

(** [GetScheduledJobs]; [t] is the reading of [time.Now()].  [Max] is
    [now] printed with ['f'] and the shortest precision, which the
    server reads back as the same double.  An entry that does not
    decode is skipped. *)
Definition GetScheduledJobs (t : Z) (st : Store)
  : (list SidekiqJob + Go.error) * Store :=
  let now := Go.float64 (Go.Unix t) in
  match ZRangeByScoreWithScores "schedule" now st with
  | (Reply result, st') => (inl (omap (fun z => Unmarshal (snd z)) result), st')
  | (Nil, st') =>
      (inr (Go.Errorf "failed to get scheduled jobs: %w" []
              (Some (Go.Errorf "redis: nil" [] None))), st')
  | (Fail err, st') =>
      (inr (Go.Errorf "failed to get scheduled jobs: %w" [] (Some err)), st')
  end.

(** [MoveScheduledToQueue].  The ZREM and the LPUSH are queued on a
    pipeline and go out in one write: a transport error loses both,
    otherwise the server runs the one, then the other. *)
Definition MoveScheduledToQueue (jobToMove : SidekiqJob) (st : Store)
  : option Go.error * Store :=
  let jobJSON := Marshal jobToMove in
  let queueName := Client.queue_key (Queue jobToMove) in
  match send st with
  | (false, st') =>
      (Some (Go.Errorf "failed to move scheduled job to queue: %w" []
               (Some ErrTransport)), st')
  | (true, st') =>
      let st1 := set_zset "schedule" (zremove jobJSON (zrange "schedule" st')) st' in
      let st2 := set_list queueName (jobJSON :: lrange queueName st1) st1 in
      (None, st2)
  end.

End Adapter.

(** A sorted set as the server keeps it: in rank order, each member
    once. *)
Definition zset_ok (z : list (Q * string)) : Prop :=
  Rank.ranked z /\ NoDup (map snd z).

End Sweep.

(** ** More runs of the circuit breaker and of the HTTP client *)

Module ClientRuns.
Import job sidecar.

(** What is recorded after a request: a failure, at an instant, or a
    success. *)
Definition record (cb : CircuitBreaker) (o : option Z) : CircuitBreaker :=
  match o with
  | Some now => RecordFailure now cb
  | None => RecordSuccess cb
  end.

Definition records (os : list (option Z)) (cb : CircuitBreaker) : CircuitBreaker :=
  foldl record cb os.

(** The failures at the end of [os], since the last success. *)
Definition trailing_failures (os : list (option Z)) : nat :=
  foldl (fun k o => match o with Some _ => S k | None => O end) O os.

(** [ExecuteJob] called once for each pair of instants in [calls], for
    the same job against the same network; the result is the client
    after the last call. *)
Definition execute_all `{JSON} (net : Transport) (calls : list (Z * Z))
    (jobData : SidekiqJob) (c : HTTPClient) : HTTPClient :=
  foldl (fun c call => snd (fst (ExecuteJob net (fst call) (snd call) jobData c))) c calls.

(** The requests sent while the loop ran. *)
Definition is_request (e : event) : bool :=
  match e with Do _ => true | Sleep _ => false end.

Definition requests (evs : list event) : nat :=
  length (List.filter is_request evs).

End ClientRuns.

(** ** More runs of the semaphore *)

Module PoolRuns.
Import job concurrency.

(** [n] calls of [TryAcquire] in a row, with what each returned. *)
Fixpoint try_acquires (n : nat) (s : Semaphore) : list bool * Semaphore :=
  match n with
  | O => ([], s)
  | S n' =>
      match TryAcquire s with
      | Returns b s' => let '(bs, s'') := try_acquires n' s' in (b :: bs, s'')
      | _ => ([], s)
      end
  end.

End PoolRuns.

(** ** The processor with its goroutines in flight *)

Module Lifecycle.
Import job concurrency.

Section Processor.
Context {E : Type}.

(** The goroutines that [ProcessJob] has spawned and that have not
    come to their end. *)
Definition pending (p : @Pool E) : nat :=
  (length (goroutines (proc p)) + length (inflight p))%nat.

(** How the fields hang together between steps: every goroutine that
    has not come to its end holds a token and is counted in the wait
    group. *)
Definition pool_ok (p : @Pool E) : Prop :=
  SemaphoreRuns.consistent (semaphore (proc p)) /\
  active (semaphore (proc p)) = Z.of_nat (pending p) /\
  pwg (proc p) = Z.of_nat (pending p).

End Processor.

(** [hs] takes [g] spawned goroutines and [f] goroutines in flight to
    their end, every one of them and in any order, and names no
    goroutine that is not there. *)
Fixpoint ends_all (g f : nat) (hs : list happening) : Prop :=
  match hs with
  | [] => g = O /\ f = O
  | Begins i _ :: rest => (i < g)%nat /\ ends_all (g - 1) (S f) rest
  | Ends k _ :: rest => (k < f)%nat /\ ends_all g (f - 1) rest
  end.

(** The instant of the latest of [hs], or [now] when that is later. *)
Definition latest (now : Z) (hs : list happening) : Z :=
  foldl (fun t h => Z.max t (instant h)) now hs.

(** The goroutine endings among [hs]. *)
Definition endings (hs : list happening) : nat :=
  length (List.filter (fun h => match h with Ends _ _ => true | Begins _ _ => false end) hs).

End Lifecycle.

(** A record that has been through one retry, for closed examples, and
    a stand-in codec under which it travels as [j1/1] and every record
    that was never retried as its jid. *)
Module ExampleRetry.
Import job.

Definition retried : SidekiqJob :=
  Client.with_retry_metadata (Go.float64 (Go.Unix 1700000000500000000)) (Examples.job_of "j1").

Definition codec : JSON :=
  {| Marshal := fun j => if Retry j =? 0 then JID j else "j1/1";
     Unmarshal := fun s =>
       if String.eqb s "j1/1" then Some retried else Some (Examples.job_of s);
     UnmarshalResult := fun s => Some (Examples.result_of s) |}.

(** A stand-in codec whose decoder, as a JSON decoder does, passes over
    a leading space that its encoder never writes. *)
Definition spaced : JSON :=
  {| Marshal := JID;
     Unmarshal := fun s =>
       match s with
       | String a rest =>
           if Ascii.eqb a (Ascii.ascii_of_nat 32)
           then Some (Examples.job_of rest) else Some (Examples.job_of s)
       | EmptyString => Some (Examples.job_of s)
       end;
     UnmarshalResult := fun s => Some (Examples.result_of s) |}.

End ExampleRetry.

(** Two more networks for closed examples: a sidecar that answers every
    request with 404, and one that cannot be reached. *)
Module ExampleNets.
Import sidecar.

Definition not_found : Transport := fun _ _ => Response 404 "Not Found".

Definition unreachable : Transport := fun _ _ =>
  DoError (Go.Errorf "connection refused" [] None).

End ExampleNets.

(** * Properties *)

(** ** Integers and instants *)

Lemma wrap_in_range x : Go.in_range x -> Go.wrap x = x.
Proof.
  unfold Go.in_range, Go.int_min, Go.int_max, Go.wrap. intros Hx.
  rewrite Z.mod_small; lia.
Qed.

Lemma wrap_range x : Go.in_range (Go.wrap x).
Proof.
  unfold Go.in_range, Go.int_min, Go.int_max, Go.wrap.
  pose proof (Z.mod_pos_bound (x + 2 ^ 63) (2 ^ 64) ltac:(lia)). lia.
Qed.

Lemma round53_small n : Z.abs n <= 2 ^ 53 -> Go.round53 n = n.
Proof.
  intros Hn. unfold Go.round53.
  destruct (Z.leb_spec (Z.abs n) (2 ^ 53)); [reflexivity | lia].
Qed.

Lemma Unix_bounds t : Go.Unix t * Go.Second <= t < Go.Unix t * Go.Second + Go.Second.
Proof.
  unfold Go.Unix. change Go.Second with 1000000000.
  pose proof (Z.div_mod t 1000000000 ltac:(lia)).
  pose proof (Z.mod_pos_bound t 1000000000 ltac:(lia)). lia.
Qed.

(** ** The keyspace *)

Section Keyspace.
Import redis.

Lemma send_healthy st : wire st = [] -> send st = (true, st).
Proof. unfold send. intros ->. reflexivity. Qed.

Lemma lrange_set_list key l st : lrange key (set_list key l st) = l.
Proof.
  unfold lrange, set_list; simpl. destruct l.
  - by rewrite lookup_delete_eq.
  - by rewrite lookup_insert_eq.
Qed.

Lemma lrange_set_list_ne key key' l st :
  key <> key' -> lrange key' (set_list key l st) = lrange key' st.
Proof.
  intros Hne. unfold lrange, set_list; simpl. destruct l.
  - by rewrite lookup_delete_ne.
  - by rewrite lookup_insert_ne.
Qed.

Lemma zrange_set_zset key z st : zrange key (set_zset key z st) = z.
Proof.
  unfold zrange, set_zset; simpl. destruct z.
  - by rewrite lookup_delete_eq.
  - by rewrite lookup_insert_eq.
Qed.

Lemma LPush_healthy key v st :
  wire st = [] ->
  LPush key v st = (Reply (Z.of_nat (S (length (lrange key st)))),
                    set_list key (v :: lrange key st) st).
Proof. intros Hw. unfold LPush. rewrite (send_healthy _ Hw). reflexivity. Qed.

Lemma BLPop_head timeout key v tl st :
  wire st = [] ->
  lrange key st = v :: tl ->
  BLPop timeout [key] st = (Reply [key; v], set_list key tl st).
Proof.
  intros Hw Hl. unfold BLPop. rewrite (send_healthy _ Hw). simpl. by rewrite Hl.
Qed.

End Keyspace.

(** ** Polling order *)

Section Polling.
Import job redis.
Context `{JSON}.

Lemma enqueue_batch_produce jobs st :
  Client.enqueue_batch jobs st = Runs.produce "default" jobs st.
Proof. reflexivity. Qed.

Lemma produce_spec queue jobs st :
  wire st = [] ->
  wire (Runs.produce queue jobs st) = [] /\
  lrange (Client.queue_key queue) (Runs.produce queue jobs st)
    = rev jobs ++ lrange (Client.queue_key queue) st.
Proof.
  revert st. induction jobs as [|p ps IH]; intros st Hw; simpl.
  - by split.
  - unfold Runs.produce in *. simpl. rewrite (LPush_healthy _ _ _ Hw). simpl.
    destruct (IH (set_list (Client.queue_key queue) (p :: lrange (Client.queue_key queue) st) st))
      as [Hw' Hl]; [exact Hw|].
    split; [exact Hw'|].
    rewrite Hl, lrange_set_list, <- app_assoc. reflexivity.
Qed.

Lemma PollJobs_head queue payload tl st :
  wire st = [] ->
  lrange (Client.queue_key queue) st = payload :: tl ->
  Client.PollJobs [queue] st
    = (match Unmarshal payload with
       | Some j => inl (Some j)
       | None => inr (Go.Errorf "failed to unmarshal job JSON: %w" [] (Some Client.ErrJSON))
       end,
       set_list (Client.queue_key queue) tl st).
Proof.
  intros Hw Hl. unfold Client.PollJobs. simpl.
  rewrite (BLPop_head _ _ _ _ _ Hw Hl).
  destruct (Unmarshal payload); reflexivity.
Qed.

Lemma polls_prefix queue xs : forall rest st,
  wire st = [] ->
  lrange (Client.queue_key queue) st = xs ++ rest ->
  Forall (fun p => is_Some (Unmarshal p)) xs ->
  fst (Runs.polls (length xs) [queue] st) = map (fun p => inl (Unmarshal p)) xs.
Proof.
  induction xs as [|x xs IH]; intros rest st Hw Hl Hdec; simpl; [reflexivity|].
  inversion Hdec as [|? ? [j Hj] Hdec']; subst.
  rewrite (PollJobs_head queue x (xs ++ rest) st Hw Hl), Hj.
  specialize (IH rest (set_list (Client.queue_key queue) (xs ++ rest) st) Hw
                (lrange_set_list _ _ _) Hdec').
  destruct (Runs.polls (length xs) [queue] _) as [rs st''] eqn:Hp.
  simpl in *. by rewrite IH.
Qed.

End Polling.

(** C2 (amended).  [PollJobs] takes from the left end of [queue:<name>]
    (BLPOP), the end onto which the producer pushes: the payload at the
    head of the list is the one removed and decoded, so jobs left-pushed
    onto a queue come back newest first.  Pushing [jobs] and then polling
    that queue as many times returns them in the reverse of the order in
    which they were pushed. *)
Theorem PollJobs_left_end_newest_first `{job.JSON} (queue : string) (jobs : list string)
    (st : redis.Store) :
  redis.wire st = [] ->
  Forall (fun p => is_Some (job.Unmarshal p)) jobs ->
  (forall payload tl,
      redis.lrange (Client.queue_key queue) st = payload :: tl ->
      redis.lrange (Client.queue_key queue) (snd (Client.PollJobs [queue] st)) = tl /\
      forall j, job.Unmarshal payload = Some j ->
                fst (Client.PollJobs [queue] st) = inl (Some j)) /\
  fst (Runs.polls (length jobs) [queue] (Runs.produce queue jobs st))
    = map (fun p => inl (job.Unmarshal p)) (rev jobs).
Proof.
  intros Hw Hdec. split.
  - intros payload tl Hl.
    rewrite (PollJobs_head queue payload tl st Hw Hl). simpl.
    rewrite lrange_set_list. split; [reflexivity|].
    by intros j ->.
  - destruct (produce_spec queue jobs st Hw) as [Hw' Hl].
    rewrite <- (length_rev jobs).
    apply (polls_prefix queue (rev jobs) (redis.lrange (Client.queue_key queue) st)); auto.
    by apply Forall_rev.
Qed.

(** C2, at a concrete input: [a] then [b] are pushed onto the empty
    [queue:default]; two polls return [b], then [a]. *)
Lemma PollJobs_left_end_newest_first_witness :
  fst (@Runs.polls Examples.codec 2 ["default"]
         (Client.enqueue_batch ["a"; "b"] Examples.empty_store))
    = [inl (Some (Examples.job_of "b")); inl (Some (Examples.job_of "a"))].
Proof.
  apply (@PollJobs_left_end_newest_first Examples.codec "default" ["a"; "b"]
           Examples.empty_store).
  - reflexivity.
  - repeat constructor; eexists; reflexivity.
Defined.

(** C2 as stated fails: [a] is pushed before [b] onto [queue:default],
    and the first poll returns [b]. *)
Lemma PollJobs_fifo_counterexample :
  let st := Client.enqueue_batch ["a"; "b"] Examples.empty_store in
  redis.lrange "queue:default" st = ["b"; "a"] /\
  fst (redis.BLPop (1 * Go.Second) ["queue:default"] st) = redis.Reply ["queue:default"; "b"] /\
  fst (@Client.PollJobs Examples.codec ["default"] st) = inl (Some (Examples.job_of "b")) /\
  Examples.job_of "b" <> Examples.job_of "a".
Proof.
  repeat split; try (vm_compute; reflexivity). intros Heq. discriminate Heq.
Qed.

(** ** Retry scheduling and the dead set *)

Section Scheduling.
Import job redis.
Context `{JSON}.

Lemma ZAdd_healthy key score member st :
  wire st = [] ->
  exists n,
    ZAdd key score member st
      = (Reply n, set_zset key (zinsert (score, member) (zremove member (zrange key st))) st).
Proof. intros Hw. unfold ZAdd. rewrite (send_healthy _ Hw). eexists. reflexivity. Qed.

Lemma ZRemRangeByRank_healthy key start stop st :
  wire st = [] ->
  exists n,
    ZRemRangeByRank key start stop st
      = (Reply n, set_zset key (zremrange start stop (zrange key st)) st).
Proof. intros Hw. unfold ZRemRangeByRank. rewrite (send_healthy _ Hw). eexists. reflexivity. Qed.

Lemma In_zinsert e z : In e (zinsert e z).
Proof.
  induction z as [|x tl IH]; simpl; [by left|].
  destruct (entry_ltb e x); simpl; [by left | by right].
Qed.

Lemma score_within_a_second t1 t2 delay :
  let s := Go.Unix (Go.Add t2 delay) in
  let f := Go.Unix t1 in
  (inject_Z f + ((delay + (t2 - t1)) # 1000000000) - 1 < inject_Z s)%Q /\
  (inject_Z s < inject_Z f + ((delay + (t2 - t1)) # 1000000000) + 1)%Q.
Proof.
  intros s f. subst s f. unfold Go.Add.
  pose proof (Unix_bounds t1) as Ht. pose proof (Unix_bounds (t2 + delay)) as Htd.
  change Go.Second with 1000000000 in *.
  unfold Qlt, Qplus, Qminus, Qopp, inject_Z; simpl.
  lia.
Qed.

(** C5 (amended).  [EnqueueRetry] first updates the record behind the pointer:
    [Retry] goes up by one (in Go's [int]: by exactly one below the
    largest [int]) and [FailedAt] becomes the epoch second of the
    clock; nothing else changes.  The updated record is what is
    encoded.  With a positive delay the encoding is added to the sorted
    set [schedule] with the epoch second of now + delay as its score,
    and no list is touched; with a delay of zero (or below) it is
    left-pushed onto [queue:<job.queue>] and no sorted set is touched.
    The clock is read once for [FailedAt] and once more, later, for
    the score: the score is within one second of [FailedAt] + delay +
    the time between the two readings, and so never below [FailedAt] +
    delay - 1 s.  (The bounds are stated for seconds that a float64
    holds exactly.) *)
Theorem EnqueueRetry_spec (t1 t2 : Z) (j : SidekiqJob) (delay : Z) (st : Store) :
  wire st = [] ->
  let '(j', err, st') := Client.EnqueueRetry t1 t2 j delay st in
  let member := Marshal j' in
  let score := Go.float64 (Go.Unix (Go.Add t2 delay)) in
  err = None /\
  Retry j' = Go.wrap (Retry j + 1) /\
  (Go.int_min <= Retry j < Go.int_max -> Retry j' = Retry j + 1) /\
  FailedAt j' = Go.float64 (Go.Unix t1) /\
  (Class j', Args j', JID j', Queue j', CreatedAt j', EnqueuedAt j', ErrorMsg j', ErrorClass j')
    = (Class j, Args j, JID j, Queue j, CreatedAt j, EnqueuedAt j, ErrorMsg j, ErrorClass j) /\
  (0 < delay ->
     zrange "schedule" st'
       = zinsert (score, member) (zremove member (zrange "schedule" st)) /\
     In (score, member) (zrange "schedule" st') /\
     lists st' = lists st) /\
  (delay <= 0 ->
     lrange (Client.queue_key (Queue j)) st'
       = member :: lrange (Client.queue_key (Queue j)) st /\
     zsets st' = zsets st) /\
  (Z.abs (Go.Unix t1) <= 2 ^ 53 -> Z.abs (Go.Unix (Go.Add t2 delay)) <= 2 ^ 53 ->
     ((FailedAt j' + ((delay + (t2 - t1)) # 1000000000) - 1 < score)%Q /\
      (score < FailedAt j' + ((delay + (t2 - t1)) # 1000000000) + 1)%Q) /\
     (t1 <= t2 -> (FailedAt j' + (delay # 1000000000) - 1 < score)%Q)).
Proof.
  intros Hw. unfold Client.EnqueueRetry.
  set (j' := Client.with_retry_metadata _ j).
  assert (Hbound :
     Z.abs (Go.Unix t1) <= 2 ^ 53 -> Z.abs (Go.Unix (Go.Add t2 delay)) <= 2 ^ 53 ->
     ((FailedAt j' + ((delay + (t2 - t1)) # 1000000000) - 1
         < Go.float64 (Go.Unix (Go.Add t2 delay)))%Q /\
      (Go.float64 (Go.Unix (Go.Add t2 delay))
         < FailedAt j' + ((delay + (t2 - t1)) # 1000000000) + 1)%Q) /\
     (t1 <= t2 ->
      (FailedAt j' + (delay # 1000000000) - 1 < Go.float64 (Go.Unix (Go.Add t2 delay)))%Q)).
  { intros H1 H2. simpl. unfold Go.float64.
    rewrite (round53_small _ H1), (round53_small _ H2).
    split; [apply score_within_a_second|].
    intros Hlater. destruct (score_within_a_second t1 t2 delay) as [Hlo _].
    cbv zeta in Hlo. eapply Qle_lt_trans; [|exact Hlo].
    unfold Qle, Qplus, Qminus, Qopp, inject_Z; simpl. lia. }
  assert (Hretry : Go.int_min <= Retry j < Go.int_max -> Retry j' = Retry j + 1).
  { intros Hr. simpl. apply wrap_in_range. unfold Go.in_range. lia. }
  destruct (Z.ltb_spec 0 delay) as [Hd|Hd].
  - destruct (ZAdd_healthy "schedule" (Go.float64 (Go.Unix (Go.Add t2 delay)))
                (Marshal j') st Hw) as [n ->].
    cbv zeta. rewrite zrange_set_zset.
    split; [reflexivity|]. split; [reflexivity|]. split; [exact Hretry|].
    split; [reflexivity|]. split; [reflexivity|].
    split; [intros _; repeat split; apply In_zinsert|].
    split; [lia | exact Hbound].
  - rewrite (LPush_healthy _ _ _ Hw).
    cbv zeta. change (Queue j') with (Queue j). rewrite lrange_set_list.
    split; [reflexivity|]. split; [reflexivity|]. split; [exact Hretry|].
    split; [reflexivity|]. split; [reflexivity|].
    split; [lia|].
    split; [intros _; by split | exact Hbound].
Qed.

End Scheduling.

(** C5, at a concrete input: a first failure at 1700000000.5 s with a
    delay of 15 s. *)
Lemma EnqueueRetry_spec_witness :
  let run := @Client.EnqueueRetry Examples.codec
               1700000000500000000 1700000000500000000
               (Examples.job_of "j1") (15 * Go.Second) Examples.empty_store in
  job.Retry (fst (fst run)) = 1 /\
  In (inject_Z 1700000015, "j1") (redis.zrange "schedule" (snd run)).
Proof.
  intros run.
  pose proof (@EnqueueRetry_spec Examples.codec
                1700000000500000000 1700000000500000000
                (Examples.job_of "j1") (15 * Go.Second) Examples.empty_store eq_refl) as Hs.
  fold run in Hs. destruct run as [[j' err] st']. cbv zeta in Hs. simpl fst. simpl snd.
  destruct Hs as (_ & Hr & _ & _ & Hsame & Hsched & _).
  split.
  - rewrite Hr. reflexivity.
  - destruct (Hsched ltac:(reflexivity)) as (_ & Hin & _).
    injection Hsame as _ _ Hjid _ _ _ _ _.
    change (@job.Marshal Examples.codec j') with (job.JID j') in Hin.
    rewrite Hjid in Hin. exact Hin.
Defined.

(** C5 as first stated fails: the clock is read twice.  When the first
    reading falls just before a second boundary and the second just
    after it, the score is more than one second above [FailedAt] +
    delay.  Here the readings are 1 microsecond apart, at
    1700000000.9999995 s and 1700000001.0000005 s, and the delay is
    1.9999995 s. *)
Lemma EnqueueRetry_two_readings_counterexample :
  let run := @Client.EnqueueRetry Examples.codec
               1700000000999999500 1700000001000000500
               (Examples.job_of "j1") 1999999500 Examples.empty_store in
  let failed_at := job.FailedAt (fst (fst run)) in
  let delay := (1999999500 # 1000000000)%Q in
  let score := inject_Z 1700000003 in
  redis.zrange "schedule" (snd run) = [(score, "j1")] /\
  failed_at = inject_Z 1700000000 /\
  ~ (failed_at + delay - 1 <= score <= failed_at + delay + 1)%Q.
Proof.
  cbv zeta. split; [reflexivity|]. split; [reflexivity|].
  intros [_ Hup]. vm_compute in Hup. by apply Hup.
Qed.

(** ** Sorted sets stay in rank order *)

Section RankOrder.
Import redis Rank.

Lemma string_compare_spec (a b : string) :
  CompareSpec (a = b) (String_as_OT.lt a b) (String_as_OT.lt b a) (String.compare a b).
Proof.
  destruct (String.compare a b) eqn:Hc; constructor.
  - by apply String_as_OT.cmp_eq.
  - by apply String_as_OT.cmp_lt.
  - apply String_as_OT.cmp_lt. unfold String_as_OT.cmp.
    rewrite String_as_OT.cmp_antisym. unfold String_as_OT.cmp. by rewrite Hc.
Qed.

Lemma string_lt_irrefl (a : string) : ~ String_as_OT.lt a a.
Proof. intros Hlt. by apply (String_as_OT.lt_not_eq _ _ Hlt). Qed.

Ltac string_order :=
  exfalso; subst;
  repeat match goal with
  | H1 : String_as_OT.lt ?x ?y, H2 : String_as_OT.lt ?y ?z |- _ =>
      lazymatch goal with
      | _ : String_as_OT.lt x z |- _ => fail
      | _ => pose proof (String_as_OT.lt_trans _ _ _ H1 H2)
      end
  end;
  match goal with
  | H : String_as_OT.lt ?x ?x |- _ => exact (string_lt_irrefl _ H)
  end.

Lemma entry_ltb_asym a b : entry_ltb a b = true -> entry_le a b.
Proof.
  destruct a as [qa sa], b as [qb sb]. unfold entry_le, entry_ltb. simpl.
  destruct (Qcompare_spec qa qb) as [Hab|Hab|Hab];
    destruct (Qcompare_spec qb qa) as [Hba|Hba|Hba];
    try discriminate; try reflexivity; try lra.
  destruct (string_compare_spec sa sb) as [Hs|Hs|Hs]; try discriminate.
  destruct (string_compare_spec sb sa) as [Hs'|Hs'|Hs']; try reflexivity.
  intros _. string_order.
Qed.

Lemma entry_le_trans a b c : entry_le a b -> entry_le b c -> entry_le a c.
Proof.
  destruct a as [qa sa], b as [qb sb], c as [qc sc]. unfold entry_le, entry_ltb. simpl.
  destruct (Qcompare_spec qb qa) as [Hba|Hba|Hba];
    destruct (Qcompare_spec qc qb) as [Hcb|Hcb|Hcb];
    destruct (Qcompare_spec qc qa) as [Hca|Hca|Hca];
    try discriminate; try reflexivity; try lra.
  destruct (string_compare_spec sb sa) as [Hs1|Hs1|Hs1]; try discriminate;
    destruct (string_compare_spec sc sb) as [Hs2|Hs2|Hs2]; try discriminate;
    destruct (string_compare_spec sc sa) as [Hs3|Hs3|Hs3]; try reflexivity;
    intros _ _; string_order.
Qed.

Lemma entry_le_score a b : entry_le a b -> (fst a <= fst b)%Q.
Proof.
  unfold entry_le, entry_ltb.
  destruct (Qcompare_spec (fst b) (fst a)) as [Hba|Hba|Hba]; try discriminate; intros _; lra.
Qed.

Lemma Forall_zinsert (P : Q * string -> Prop) e z :
  P e -> Forall P z -> Forall P (zinsert e z).
Proof.
  intros He Hz. induction Hz as [|x tl Hx Htl IH]; simpl.
  - by constructor.
  - destruct (entry_ltb e x); repeat constructor; auto.
Qed.

Lemma zinsert_ranked e z : ranked z -> ranked (zinsert e z).
Proof.
  unfold ranked. induction 1 as [|x tl Hs IH Hx]; simpl.
  - repeat constructor.
  - destruct (entry_ltb e x) eqn:Hlt.
    + constructor; [by constructor|].
      pose proof (entry_ltb_asym _ _ Hlt) as Hex.
      constructor; [exact Hex|].
      eapply Forall_impl; [exact Hx|].
      intros y Hy. by apply (entry_le_trans _ x).
    + constructor; [exact IH|].
      apply Forall_zinsert; [exact Hlt | exact Hx].
Qed.

Lemma zremove_ranked member z : ranked z -> ranked (zremove member z).
Proof.
  unfold ranked, zremove. induction 1 as [|x tl Hs IH Hx]; [constructor|].
  rewrite filter_cons. case_decide; [|exact IH].
  constructor; [exact IH|].
  apply Forall_forall. intros y Hy.
  apply (proj1 (Forall_forall _ _) Hx).
  by apply list_elem_of_filter in Hy as [_ Hy].
Qed.

Lemma zremrange_dead z :
  zremrange 0 (-10001) z = drop (Z.to_nat (Z.of_nat (length z) - 10000)) z.
Proof.
  unfold zremrange. simpl.
  destruct (Z.ltb_spec (Z.of_nat (length z) + -10001) 0) as [Hs|Hs]; simpl.
  - replace (Z.to_nat (Z.of_nat (length z) - 10000)) with 0%nat by lia. reflexivity.
  - destruct (Z.leb_spec (Z.of_nat (length z)) 0) as [He|He]; [lia|].
    destruct (Z.leb_spec (Z.of_nat (length z)) (Z.of_nat (length z) + -10001)); [lia|].
    simpl. f_equal. lia.
Qed.

Lemma length_drop_dead {A} (z : list A) :
  (Z.of_nat (length (drop (Z.to_nat (Z.of_nat (length z) - 10000)) z)) <= 10000)%Z.
Proof. rewrite length_drop. lia. Qed.

End RankOrder.

Section DeadSet.
Import job redis.
Context `{JSON}.

(** C6 (amended).  [MoveToDLQ] sets [FailedAt] to the epoch second of the clock
    and changes no other field, adds the encoding of the updated
    record to the sorted set [dead] with the epoch second of a second,
    later reading of the clock as its score (never below [FailedAt];
    the same number when the two readings fall in the same second,
    a later second otherwise), and then trims [dead] by rank: what is
    left is the last 10000 entries in rank order, or all of them when
    there are fewer.  With [dead] in rank order before the call, every
    entry removed ranks no higher, and has a score no greater, than
    every entry kept.  No list is touched. *)
Theorem MoveToDLQ_spec (t1 t2 : Z) (j : SidekiqJob) (st : Store) :
  wire st = [] ->
  let '(j', err, st', warnings) := Client.MoveToDLQ t1 t2 j st in
  let member := Marshal j' in
  let score := Go.float64 (Go.Unix t2) in
  let inserted := zinsert (score, member) (zremove member (zrange "dead" st)) in
  let cut := Z.to_nat (Z.of_nat (length inserted) - 10000) in
  err = None /\ warnings = [] /\
  FailedAt j' = Go.float64 (Go.Unix t1) /\
  (Class j', Args j', JID j', Queue j', CreatedAt j', EnqueuedAt j', Retry j',
   ErrorMsg j', ErrorClass j')
    = (Class j, Args j, JID j, Queue j, CreatedAt j, EnqueuedAt j, Retry j,
       ErrorMsg j, ErrorClass j) /\
  (t1 <= t2 -> Z.abs (Go.Unix t1) <= 2 ^ 53 -> Z.abs (Go.Unix t2) <= 2 ^ 53 ->
     (FailedAt j' <= score)%Q /\
     (Go.Unix t1 < Go.Unix t2 -> (FailedAt j' + 1 <= score)%Q)) /\
  (Go.Unix t1 = Go.Unix t2 -> score = FailedAt j') /\
  In (score, member) inserted /\
  zrange "dead" st' = drop cut inserted /\
  Z.of_nat (length (zrange "dead" st')) <= 10000 /\
  (Rank.ranked (zrange "dead" st) ->
     Rank.ranked (zrange "dead" st') /\
     forall old kept,
       In old (take cut inserted) -> In kept (zrange "dead" st') ->
       Rank.entry_le old kept /\ (fst old <= fst kept)%Q) /\
  lists st' = lists st.
Proof.
  intros Hw. unfold Client.MoveToDLQ.
  set (j' := Client.with_FailedAt _ j).
  set (score := Go.float64 (Go.Unix t2)).
  destruct (ZAdd_healthy "dead" score (Marshal j') st Hw) as [n ->].
  set (inserted := zinsert (score, Marshal j') (zremove (Marshal j') (zrange "dead" st))).
  destruct (ZRemRangeByRank_healthy "dead" 0 (-10001) (set_zset "dead" inserted st) Hw)
    as [m ->].
  cbv zeta. rewrite !zrange_set_zset, zremrange_dead.
  assert (Hsplit : Rank.ranked (zrange "dead" st) ->
            StronglySorted Rank.entry_le
              (take (Z.to_nat (Z.of_nat (length inserted) - 10000)) inserted
               ++ drop (Z.to_nat (Z.of_nat (length inserted) - 10000)) inserted)).
  { intros Hr. rewrite take_drop. by apply zinsert_ranked, zremove_ranked. }
  assert (Hle : Rank.ranked (zrange "dead" st) ->
            forall old kept,
              In old (take (Z.to_nat (Z.of_nat (length inserted) - 10000)) inserted) ->
              In kept (drop (Z.to_nat (Z.of_nat (length inserted) - 10000)) inserted) ->
              Rank.entry_le old kept).
  { intros Hr old kept Hold Hkept.
    eapply StronglySorted_app_1_elem_of; [exact (Hsplit Hr)| |]; by apply list_elem_of_In. }
  assert (Hlater : t1 <= t2 -> Z.abs (Go.Unix t1) <= 2 ^ 53 ->
            Z.abs (Go.Unix t2) <= 2 ^ 53 ->
            (FailedAt j' <= score)%Q /\
            (Go.Unix t1 < Go.Unix t2 -> (FailedAt j' + 1 <= score)%Q)).
  { intros Hord H1 H2. subst score. simpl. unfold Go.float64.
    rewrite (round53_small _ H1), (round53_small _ H2).
    assert (Hmono : Go.Unix t1 <= Go.Unix t2)
      by (unfold Go.Unix; apply Z.div_le_mono; [reflexivity | exact Hord]).
    split.
    - by rewrite <- Zle_Qle.
    - intros Hlt. unfold Qle, Qplus, inject_Z; simpl. lia. }
  split; [reflexivity|]. split; [reflexivity|]. split; [reflexivity|].
  split; [reflexivity|]. split; [exact Hlater|].
  repeat split; try reflexivity.
  - intros Heq. subst score. simpl. by rewrite Heq.
  - apply In_zinsert.
  - apply length_drop_dead.
  - match goal with Hr : Rank.ranked _ |- _ =>
      exact (StronglySorted_app_1_r _ _ _ (Hsplit Hr)) end.
  - by apply Hle.
  - apply entry_le_score. by apply Hle.
Qed.

End DeadSet.

(** C6, at a concrete input: a job moved to an empty [dead] at
    1700000000.5 s. *)
Lemma MoveToDLQ_spec_witness :
  let run := @Client.MoveToDLQ Examples.codec
               1700000000500000000 1700000000500000000
               (Examples.job_of "j1") Examples.empty_store in
  job.FailedAt (fst (fst (fst run))) = inject_Z 1700000000 /\
  redis.zrange "dead" (snd (fst run)) = [(inject_Z 1700000000, "j1")].
Proof.
  intros run.
  pose proof (@MoveToDLQ_spec Examples.codec
                1700000000500000000 1700000000500000000
                (Examples.job_of "j1") Examples.empty_store eq_refl) as Hs.
  fold run in Hs. destruct run as [[[j' err] st'] warnings]. cbv zeta in Hs.
  simpl fst. simpl snd.
  destruct Hs as (_ & _ & Hf & Hsame & _ & _ & _ & Hdead & _).
  split.
  - rewrite Hf. reflexivity.
  - injection Hsame as _ _ Hjid _ _ _ _ _ _.
    change (@job.Marshal Examples.codec j') with (job.JID j') in Hdead.
    rewrite Hjid in Hdead. exact Hdead.
Defined.

(** C6 as first stated fails: the clock is read twice.  With the first
    reading in the last nanosecond of a second and the next reading in
    the second after it, the score is one above [FailedAt]. *)
Lemma MoveToDLQ_two_readings_counterexample :
  let run := @Client.MoveToDLQ Examples.codec
               1700000000999999999 1700000001000000000
               (Examples.job_of "j1") Examples.empty_store in
  let failed_at := job.FailedAt (fst (fst (fst run))) in
  failed_at = inject_Z 1700000000 /\
  redis.zrange "dead" (snd (fst run)) = [(inject_Z 1700000001, "j1")] /\
  ~ (inject_Z 1700000001 == failed_at)%Q.
Proof.
  cbv zeta. split; [reflexivity|]. split; [reflexivity|].
  intros Heq. vm_compute in Heq. discriminate.
Qed.

(** ** The circuit breaker *)

Section Breaker.
Import sidecar BreakerRuns.

Lemma record_failures_snoc times now cb :
  record_failures (times ++ [now]) cb = RecordFailure now (record_failures times cb).
Proof. unfold record_failures. by rewrite foldl_app. Qed.

(** Below the threshold the breaker only counts. *)
Lemma record_failures_below times : forall cb,
  0 <= failures cb ->
  failures cb + Z.of_nat (length times) < maxFailures cb ->
  maxFailures cb <= Go.int_max ->
  let cb' := record_failures times cb in
  failures cb' = failures cb + Z.of_nat (length times) /\
  state cb' = state cb /\
  maxFailures cb' = maxFailures cb /\
  resetTimeout cb' = resetTimeout cb.
Proof.
  induction times as [|now times IH] using rev_ind; intros cb H0 Hlt Hmax; simpl.
  - repeat split. lia.
  - rewrite record_failures_snoc. rewrite length_app in *. simpl in *.
    destruct (IH cb H0 ltac:(lia) Hmax) as (Hf & Hs & Hm & Hr).
    unfold RecordFailure. simpl. rewrite Hf, Hs, Hm, Hr.
    rewrite wrap_in_range by (unfold Go.in_range, Go.int_min, Go.int_max in *; lia).
    repeat split; [lia|].
    destruct (Z.leb_spec (maxFailures cb)
                (failures cb + Z.of_nat (length times) + 1)); [lia | reflexivity].
Qed.

(** C3 (amended).  A breaker made with [maxFailures] at least 1 starts
    closed, and after [maxFailures] calls of [RecordFailure] with no
    [RecordSuccess] in between it is open, with the instant of the last
    of them as [lastFailTime].  While open, [AllowRequest] refuses, and
    leaves the breaker as it is, for as long as the time since the last
    failure is at most [resetTimeout]; once that time is strictly
    greater than [resetTimeout] it moves the breaker to half-open and
    permits the request.  [RecordSuccess], from any state, sets the
    failure count to 0 and closes the breaker. *)
Theorem breaker_opens_blocks_and_resets (maxFailures resetTimeout : Z)
    (times : list Z) (last : Z) :
  1 <= maxFailures <= Go.int_max ->
  Z.of_nat (length times) + 1 = maxFailures ->
  let fresh := NewCircuitBreaker maxFailures resetTimeout in
  let cb := record_failures (times ++ [last]) fresh in
  state fresh = StateClosed /\
  state cb = StateOpen /\
  lastFailTime cb = last /\
  (forall now, Go.Sub now last <= resetTimeout ->
               AllowRequest now cb = (false, cb)) /\
  (forall now, resetTimeout < Go.Sub now last ->
               fst (AllowRequest now cb) = true /\
               state (snd (AllowRequest now cb)) = StateHalfOpen) /\
  (forall any, failures (RecordSuccess any) = 0 /\
               state (RecordSuccess any) = StateClosed).
Proof.
  intros Hm Hlen fresh cb.
  destruct (record_failures_below times fresh) as (Hf & Hs & Hmax & Hr);
    [simpl; lia | simpl; lia | simpl; lia |].
  assert (Hopen : state cb = StateOpen).
  { subst cb. rewrite record_failures_snoc. unfold RecordFailure. simpl.
    rewrite Hf, Hmax. simpl.
    rewrite wrap_in_range by (unfold Go.in_range, Go.int_min, Go.int_max in *; lia).
    destruct (Z.leb_spec maxFailures (0 + Z.of_nat (length times) + 1)); [reflexivity | lia]. }
  assert (Hlast : lastFailTime cb = last).
  { subst cb. by rewrite record_failures_snoc. }
  assert (Hreset : sidecar.resetTimeout cb = resetTimeout).
  { subst cb. rewrite record_failures_snoc. simpl. exact Hr. }
  repeat split.
  - exact Hopen.
  - exact Hlast.
  - intros now Hnow. unfold AllowRequest. rewrite Hopen, Hlast, Hreset.
    destruct (Z.ltb_spec resetTimeout (Go.Sub now last)); [lia | reflexivity].
  - unfold AllowRequest. rewrite Hopen, Hlast, Hreset.
    destruct (Z.ltb_spec resetTimeout (Go.Sub now last)); [reflexivity | lia].
  - unfold AllowRequest. rewrite Hopen, Hlast, Hreset.
    destruct (Z.ltb_spec resetTimeout (Go.Sub now last)); [reflexivity | lia].
Qed.

End Breaker.

(** C3, at a concrete input: three failures open a breaker made for
    three, with a reset timeout of 30 s. *)
Lemma breaker_opens_blocks_and_resets_witness :
  let cb := BreakerRuns.record_failures ([10; 20] ++ [30])
              (sidecar.NewCircuitBreaker 3 (30 * Go.Second)) in
  sidecar.state cb = sidecar.StateOpen /\
  sidecar.AllowRequest (30 + 30 * Go.Second) cb = (false, cb) /\
  fst (sidecar.AllowRequest (31 + 30 * Go.Second) cb) = true.
Proof.
  intros cb.
  destruct (breaker_opens_blocks_and_resets 3 (30 * Go.Second) [10; 20] 30
              ltac:(unfold Go.int_max; lia) eq_refl)
    as (_ & Hopen & _ & Hblock & Hhalf & _).
  split; [exact Hopen|]. split.
  - apply Hblock. vm_compute. discriminate.
  - apply Hhalf. vm_compute. reflexivity.
Defined.

(** C3 as stated fails at the boundary: with the time since the last
    failure equal to [resetTimeout], [AllowRequest] refuses the request
    and the breaker stays open. *)
Lemma breaker_boundary_counterexample :
  let cb := BreakerRuns.record_failures [0] (sidecar.NewCircuitBreaker 1 (30 * Go.Second)) in
  let now := 30 * Go.Second in
  sidecar.state cb = sidecar.StateOpen /\
  Go.Sub now (sidecar.lastFailTime cb) >= sidecar.resetTimeout cb /\
  sidecar.AllowRequest now cb = (false, cb) /\
  sidecar.state (snd (sidecar.AllowRequest now cb)) <> sidecar.StateHalfOpen.
Proof.
  repeat split; vm_compute; congruence.
Qed.

(** ** The HTTP retry loop *)

Section Retry.
Import job sidecar HTTPRuns.
Context {A : Type} (decode : string -> option A) (net : Z -> round_trip) (maxRetries : Z).

Lemma attempts_step n attempt lastErr :
  retryable (net attempt) = true ->
  exists e,
    attempts decode net maxRetries (S n) attempt lastErr
      = (fst (attempts decode net maxRetries n (attempt + 1) (Some e)),
         attempt_events attempt
           ++ snd (attempts decode net maxRetries n (attempt + 1) (Some e))).
Proof.
  intros Hr. simpl. unfold attempt_events.
  destruct (net attempt) as [err|status err|status body]; simpl in Hr.
  - eexists. destruct (attempts _ _ _ n _ _) as [r rest] eqn:Heq.
    rewrite Heq. simpl. by rewrite <- app_assoc.
  - eexists. destruct (attempts _ _ _ n _ _) as [r rest] eqn:Heq.
    rewrite Heq. simpl. by rewrite <- app_assoc.
  - rewrite Hr. eexists. destruct (attempts _ _ _ n _ _) as [r rest] eqn:Heq.
    rewrite Heq. simpl. by rewrite <- app_assoc.
Qed.

Lemma attempts_skip k : forall n attempt lastErr,
  (forall i, (i < k)%nat -> retryable (net (attempt + Z.of_nat i)) = true) ->
  exists e,
    (k = O -> e = lastErr) /\ (k <> O -> is_Some e) /\
    attempts decode net maxRetries (k + n) attempt lastErr
      = (fst (attempts decode net maxRetries n (attempt + Z.of_nat k) e),
         attempts_events attempt k
           ++ snd (attempts decode net maxRetries n (attempt + Z.of_nat k) e)).
Proof.
  induction k as [|k IH]; intros n attempt lastErr Hr.
  - exists lastErr. repeat split; [congruence|].
    simpl. rewrite Z.add_0_r. by destruct (attempts _ _ _ _ _ _).
  - destruct (attempts_step (k + n) attempt lastErr) as [e1 He1].
    { specialize (Hr O ltac:(lia)). by rewrite Z.add_0_r in Hr. }
    destruct (IH n (attempt + 1) (Some e1)) as (e & He0 & He & Heq).
    { intros i Hi. specialize (Hr (S i) ltac:(lia)).
      by replace (attempt + 1 + Z.of_nat i) with (attempt + Z.of_nat (S i)) by lia. }
    exists e. split; [congruence|]. split.
    + intros _. destruct k; [rewrite He0 by reflexivity; by eexists | by apply He].
    + change (S k + n)%nat with (S (k + n)). rewrite He1, Heq. simpl.
      replace (attempt + 1 + Z.of_nat k) with (attempt + Z.of_nat (S k)) by lia.
      by rewrite <- app_assoc.
Qed.

Lemma attempts_events_snoc k : forall attempt,
  attempts_events attempt (S k)
    = attempts_events attempt k ++ attempt_events (attempt + Z.of_nat k).
Proof.
  induction k as [|k IH]; intros attempt.
  - simpl. by rewrite Z.add_0_r, app_nil_r.
  - change (attempts_events attempt (S (S k)))
      with (attempt_events attempt ++ attempts_events (attempt + 1) (S k)).
    rewrite IH. simpl. rewrite <- !app_assoc.
    by replace (attempt + 1 + Z.of_nat k) with (attempt + Z.of_nat (S k)) by lia.
Qed.

Lemma attempts_stop k n attempt lastErr :
  (forall i, (i < k)%nat -> retryable (net (attempt + Z.of_nat i)) = true) ->
  retryable (net (attempt + Z.of_nat k)) = false ->
  attempts decode net maxRetries (k + S n) attempt lastErr
    = (verdict decode (net (attempt + Z.of_nat k)), attempts_events attempt (S k)).
Proof.
  intros Hr Hstop.
  destruct (attempts_skip k (S n) attempt lastErr Hr) as (e & _ & _ & ->).
  rewrite attempts_events_snoc. simpl. unfold attempt_events, verdict.
  destruct (net (attempt + Z.of_nat k)) as [err|status err|status body];
    simpl in Hstop; try discriminate.
  rewrite Hstop. simpl.
  destruct (400 <=? status); simpl; [reflexivity|].
  destruct (decode body); reflexivity.
Qed.

Lemma attempts_exhaust k attempt lastErr :
  (forall i, (i < k)%nat -> retryable (net (attempt + Z.of_nat i)) = true) ->
  exists e,
    (k <> O -> is_Some e) /\
    attempts decode net maxRetries k attempt lastErr
      = (inr (Go.Errorf "request failed after %d attempts: %w"
                [Go.AInt (maxRetries + 1)] e),
         attempts_events attempt k).
Proof.
  intros Hr.
  destruct (attempts_skip k O attempt lastErr Hr) as (e & _ & He & Heq).
  exists e. split; [exact He|].
  rewrite Nat.add_0_r in Heq. rewrite Heq. simpl. by rewrite app_nil_r.
Qed.

End Retry.

Section RetryThree.
Import job sidecar HTTPRuns.
Context {A : Type} (decode : string -> option A) (net : Z -> round_trip).

Lemma attempts_head maxRetries n attempt lastErr :
  exists rest,
    snd (attempts decode net maxRetries (S n) attempt lastErr)
      = attempt_events attempt ++ rest.
Proof.
  simpl. unfold attempt_events.
  destruct (net attempt) as [err|status err|status body].
  - destruct (attempts _ _ _ n _ _) as [r rest]. exists rest. simpl. by rewrite <- app_assoc.
  - destruct (attempts _ _ _ n _ _) as [r rest]. exists rest. simpl. by rewrite <- app_assoc.
  - destruct (500 <=? status).
    + destruct (attempts _ _ _ n _ _) as [r rest]. exists rest. simpl. by rewrite <- app_assoc.
    + exists []. destruct (400 <=? status); [|destruct (decode body)];
        simpl; by rewrite <- app_assoc.
Qed.

Lemma four_attempts_made k :
  (k <= 3)%nat ->
  (forall i, (i < k)%nat -> retryable (net (Z.of_nat i)) = true) ->
  exists rest, snd (four_attempts decode net) = trace_through k ++ rest.
Proof.
  intros Hk Hr. unfold four_attempts, trace_through.
  replace 4%nat with (k + S (3 - k))%nat by lia.
  destruct (attempts_skip decode net 3 k (S (3 - k)) 0 None) as (e & _ & _ & ->);
    [exact Hr|].
  destruct (attempts_head 3 (3 - k) (0 + Z.of_nat k) e) as [rest Hrest].
  exists rest. cbn [snd]. rewrite Hrest, attempts_events_snoc. by rewrite <- app_assoc.
Qed.

Lemma four_attempts_stop k :
  (k <= 3)%nat ->
  (forall i, (i < k)%nat -> retryable (net (Z.of_nat i)) = true) ->
  retryable (net (Z.of_nat k)) = false ->
  four_attempts decode net = (verdict decode (net (Z.of_nat k)), trace_through k).
Proof.
  intros Hk Hr Hstop. unfold four_attempts, trace_through.
  replace 4%nat with (k + S (3 - k))%nat by lia.
  by rewrite (attempts_stop decode net 3 k (3 - k) 0 None).
Qed.

Lemma four_attempts_exhaust :
  (forall i, (i <= 3)%nat -> retryable (net (Z.of_nat i)) = true) ->
  exists e,
    four_attempts decode net
      = (inr (Go.Errorf "request failed after %d attempts: %w" [Go.AInt 4] (Some e)),
         trace_through 3).
Proof.
  intros Hr. unfold four_attempts, trace_through.
  destruct (attempts_exhaust decode net 3 4 0 None) as (e & He & Heq).
  { intros i Hi. apply Hr. lia. }
  destruct (He ltac:(lia)) as [e' ->]. exists e'. exact Heq.
Qed.

Lemma four_attempts_at_most :
  exists k, (k <= 3)%nat /\ snd (four_attempts decode net) = trace_through k.
Proof.
  destruct (retryable (net (Z.of_nat 0))) eqn:H0;
    [|exists 0%nat; split; [lia|]; rewrite (four_attempts_stop 0); auto; intros; lia].
  destruct (retryable (net (Z.of_nat 1))) eqn:H1;
    [|exists 1%nat; split; [lia|]; rewrite (four_attempts_stop 1); auto;
      intros i Hi; by replace i with 0%nat by lia].
  destruct (retryable (net (Z.of_nat 2))) eqn:H2;
    [|exists 2%nat; split; [lia|]; rewrite (four_attempts_stop 2); auto;
      intros i Hi; destruct i as [|[|]]; auto; lia].
  destruct (retryable (net (Z.of_nat 3))) eqn:H3;
    [|exists 3%nat; split; [lia|]; rewrite (four_attempts_stop 3); auto;
      intros i Hi; destruct i as [|[|[|]]]; auto; lia].
  exists 3%nat. split; [lia|].
  destruct (four_attempts_exhaust) as [e ->]; [|reflexivity].
  intros i Hi. destruct i as [|[|[|[|]]]]; auto; lia.
Qed.

End RetryThree.

Section HTTPExecute.
Import job sidecar HTTPRuns.
Context `{JSON}.

Lemma ExecuteJob_allowed net t_allow t_record jobData c :
  fst (AllowRequest t_allow (breaker c)) = true ->
  let req := {| method := "POST"; url := baseURL c +:+ "/execute";
                body := Marshal jobData |} in
  fst (fst (ExecuteJob net t_allow t_record jobData c))
    = fst (four_attempts UnmarshalResult (net req)) /\
  snd (ExecuteJob net t_allow t_record jobData c)
    = snd (four_attempts UnmarshalResult (net req)).
Proof.
  intros Hallow req. unfold ExecuteJob.
  destruct (AllowRequest t_allow (breaker c)) as [b cb]. simpl in Hallow. subst b.
  change (executeWithRetry UnmarshalResult net _ 3)
    with (four_attempts UnmarshalResult (net req)).
  by destruct (four_attempts UnmarshalResult (net req)) as [[result|err] evs].
Qed.

(** C4.  A request the breaker lets through is tried at most four
    times, numbered 0 to 3, with a pause of 100, 400 and 900 ms before
    the second, third and fourth.  While every attempt so far met a
    connection failure, an unreadable body or a status from 500 up, the
    next one is made.  A response with a status from 400 to 499 ends
    the request there with an error.  A response with a status below
    400 whose body decodes ends it there with the decoded result as the
    value returned, with no error, whatever its [Status] field says, so
    also when it says [failure].  When all four attempts fail an error
    is returned. *)
Theorem ExecuteJob_retry_policy (net : Transport) (t_allow t_record : Z)
    (jobData : SidekiqJob) (c : HTTPClient) :
  fst (AllowRequest t_allow (breaker c)) = true ->
  let req := {| method := "POST"; url := baseURL c +:+ "/execute";
                body := Marshal jobData |} in
  let r := fst (fst (ExecuteJob net t_allow t_record jobData c)) in
  let evs := snd (ExecuteJob net t_allow t_record jobData c) in
  trace_through 3
    = [Do 0; Sleep (100 * Go.Millisecond); Do 1; Sleep (400 * Go.Millisecond);
       Do 2; Sleep (900 * Go.Millisecond); Do 3] /\
  (exists k, (k <= 3)%nat /\ evs = trace_through k) /\
  (forall k, (k <= 3)%nat ->
     (forall i, (i < k)%nat -> retryable (net req (Z.of_nat i)) = true) ->
     (exists rest, evs = trace_through k ++ rest) /\
     (forall status body,
        net req (Z.of_nat k) = Response status body -> 400 <= status < 500 ->
        r = inr (Go.Errorf "client error: status %d, body: %s"
                   [Go.AInt status; Go.AStr body] None) /\
        evs = trace_through k) /\
     (forall status body result,
        net req (Z.of_nat k) = Response status body -> status < 400 ->
        UnmarshalResult body = Some result ->
        r = inl result /\ evs = trace_through k)) /\
  ((forall i, (i <= 3)%nat -> retryable (net req (Z.of_nat i)) = true) ->
     (exists e, r = inr (Go.Errorf "request failed after %d attempts: %w"
                           [Go.AInt 4] (Some e))) /\
     evs = trace_through 3).
Proof.
  intros Hallow req r evs.
  destruct (ExecuteJob_allowed net t_allow t_record jobData c Hallow) as [Hr He].
  fold req in Hr, He. subst r evs. rewrite Hr, He. clear Hr He.
  split; [reflexivity|]. split; [apply four_attempts_at_most|]. split.
  - intros k Hk Hretry. split; [by apply four_attempts_made|]. split.
    + intros status body Hnet [Hlo Hhi].
      rewrite (four_attempts_stop UnmarshalResult (net req) k Hk Hretry).
      * rewrite Hnet. simpl.
        destruct (Z.leb_spec 400 status); [by split | lia].
      * rewrite Hnet. simpl. destruct (Z.leb_spec 500 status); [lia | reflexivity].
    + intros status body result Hnet Hlt Hdec.
      rewrite (four_attempts_stop UnmarshalResult (net req) k Hk Hretry).
      * rewrite Hnet. simpl.
        destruct (Z.leb_spec 400 status); [lia|]. by rewrite Hdec.
      * rewrite Hnet. simpl. destruct (Z.leb_spec 500 status); [lia | reflexivity].
  - intros Hall.
    destruct (four_attempts_exhaust UnmarshalResult (net req) Hall) as [e ->].
    split; [by exists e | reflexivity].
Qed.

End HTTPExecute.

(** C4, at a concrete input: two 500s, then a 200 whose result says
    [failure]. *)
Lemma ExecuteJob_retry_policy_witness :
  let run := @sidecar.ExecuteJob Examples.codec ExampleNet.flaky 0 0
               (Examples.job_of "j1") (sidecar.NewHTTPClient "http://sidecar:3000") in
  fst (fst run) = inl (Examples.result_of "failure") /\
  snd run = [sidecar.Do 0; sidecar.Sleep (100 * Go.Millisecond); sidecar.Do 1;
             sidecar.Sleep (400 * Go.Millisecond); sidecar.Do 2].
Proof.
  intros run.
  destruct (@ExecuteJob_retry_policy Examples.codec ExampleNet.flaky 0 0
              (Examples.job_of "j1") (sidecar.NewHTTPClient "http://sidecar:3000") eq_refl)
    as (_ & _ & Hk & _).
  destruct (Hk 2%nat ltac:(lia)) as (_ & _ & Hok).
  { intros i Hi. destruct i as [|[|]]; [reflexivity | reflexivity | lia]. }
  exact (Hok 200 "failure" (Examples.result_of "failure") eq_refl ltac:(lia) eq_refl).
Defined.

(** ** How a float64 is printed *)

Section FormatFacts.
Import strconv.
Local Open Scope Q_scope.

Lemma pow2_pos e : 0 < 2 ^ e.
Proof. by apply Qpower_0_lt. Qed.

Lemma pow10_pos k : 0 < 10 ^ k.
Proof. by apply Qpower_0_lt. Qed.

Lemma magnitude_scaled m e :
  magnitude m e == inject_Z (4 * Zpos m) * 2 ^ (e - 2).
Proof.
  unfold magnitude. replace e with (2 + (e - 2))%Z at 1 by lia.
  rewrite Qpower_plus by discriminate. rewrite inject_Z_mult.
  change (2 ^ 2) with 4. change (inject_Z 4) with 4. ring.
Qed.

Lemma scaled_lt a b e : (a < b)%Z -> inject_Z a * 2 ^ e < inject_Z b * 2 ^ e.
Proof.
  intros Hab. apply Qmult_lt_r; [apply pow2_pos|]. by rewrite <- Zlt_Qlt.
Qed.

Lemma lower_pos m e : 0 < lower m e.
Proof.
  assert (H0 : 0 == inject_Z 0 * 2 ^ (e - 2)) by ring.
  unfold lower. destruct (_ && _); rewrite H0; apply scaled_lt; lia.
Qed.

Lemma lower_lt_magnitude m e : lower m e < magnitude m e.
Proof.
  rewrite magnitude_scaled. unfold lower. destruct (_ && _); apply scaled_lt; lia.
Qed.

Lemma magnitude_lt_upper m e : magnitude m e < upper m e.
Proof. rewrite magnitude_scaled. unfold upper. apply scaled_lt. lia. Qed.

(** [upper] and [lower] are the midpoints between the float and the
    floats next to it: above, the float with the next mantissa; below,
    the float with the mantissa before, which in the binade below has
    half the unit. *)
Lemma midpoints_of_neighbours m e :
  upper m e == (magnitude m e + magnitude (m + 1) e) / 2 /\
  lower m e ==
    if (Zpos m =? 2 ^ 52)%Z && (-1074 <? e)%Z
    then (magnitude m e + magnitude (2 * m - 1) (e - 1)) / 2
    else (magnitude m e + inject_Z (Zpos m - 1) * 2 ^ e) / 2.
Proof.
  assert (H2 : forall x, 2 ^ x == 4 * 2 ^ (x - 2)).
  { intros x. replace x with (2 + (x - 2))%Z at 1 by lia.
    rewrite Qpower_plus by discriminate. reflexivity. }
  assert (H1 : 2 ^ (e - 1) == 2 * 2 ^ (e - 2)).
  { replace (e - 1)%Z with (1 + (e - 2))%Z by lia.
    rewrite Qpower_plus by discriminate. reflexivity. }
  unfold upper, lower, magnitude. split.
  - rewrite (H2 e), Pos2Z.inj_add, !inject_Z_plus, !inject_Z_mult.
    change (inject_Z 4) with 4. change (inject_Z 2) with 2. change (inject_Z 1) with 1.
    field.
  - destruct ((Zpos m =? 2 ^ 52)%Z && (-1074 <? e)%Z) eqn:Hb.
    + apply andb_true_iff in Hb as [Hm _]. apply Z.eqb_eq in Hm.
      assert (Hpred : Zpos (2 * m - 1) = (2 * Zpos m - 1)%Z).
      { rewrite Pos2Z.inj_sub by lia. lia. }
      rewrite Hpred, (H2 e), H1.
      unfold Zminus. rewrite !inject_Z_plus, !inject_Z_mult.
      change (inject_Z 4) with 4. change (inject_Z 2) with 2.
      change (inject_Z (- (1))) with (- (1)). field.
    + rewrite (H2 e). unfold Zminus. rewrite !inject_Z_plus, !inject_Z_mult.
      change (inject_Z 4) with 4. change (inject_Z (- (2))) with (- (2)).
      change (inject_Z (- (1))) with (- (1)). field.
Qed.

Lemma Qlt_bool_iff a b : Qlt_bool a b = true <-> a < b.
Proof.
  unfold Qlt_bool. rewrite negb_true_iff. split.
  - intros Hf. apply Qnot_le_lt. intros Hle. apply Qle_bool_iff in Hle. congruence.
  - intros Hlt. destruct (Qle_bool b a) eqn:Hle; [|reflexivity].
    apply Qle_bool_iff in Hle. by apply Qlt_not_le in Hlt.
Qed.

Lemma reads_back_iff m e q : reads_back m e q = true <-> within m e q.
Proof.
  unfold reads_back, within. destruct (Z.even (Z.pos m)); rewrite andb_true_iff.
  - by rewrite !Qle_bool_iff.
  - by rewrite !Qlt_bool_iff.
Qed.

Lemma within_comp m e q q' : q == q' -> within m e q -> within m e q'.
Proof.
  unfold within. intros Heq. destruct (Z.even (Z.pos m)); intros [Hl Hu];
    rewrite <- Heq; by split.
Qed.

Lemma within_magnitude m e : within m e (magnitude m e).
Proof.
  pose proof (lower_lt_magnitude m e). pose proof (magnitude_lt_upper m e).
  unfold within. destruct (Z.even (Z.pos m)); split;
    first [assumption | by apply Qlt_le_weak].
Qed.

Lemma within_between m e y1 y2 z :
  within m e y1 -> within m e y2 -> y1 <= z -> z <= y2 -> within m e z.
Proof.
  unfold within. destruct (Z.even (Z.pos m)); intros [Hl1 Hu1] [Hl2 Hu2] H1 H2; split.
  - by apply Qle_trans with y1.
  - by apply Qle_trans with y2.
  - by apply Qlt_le_trans with y1.
  - by apply Qle_lt_trans with y2.
Qed.

Lemma within_pos m e q : within m e q -> 0 < q.
Proof.
  pose proof (lower_pos m e) as Hpos. unfold within.
  destruct (Z.even (Z.pos m)); intros [Hl _].
  - by apply Qlt_le_trans with (lower m e).
  - by apply Qlt_trans with (lower m e).
Qed.

Lemma within_upper m e q : within m e q -> q <= upper m e.
Proof.
  unfold within. destruct (Z.even (Z.pos m)); intros [_ Hu];
    [assumption | by apply Qlt_le_weak].
Qed.

Lemma decimal_le c c' k : (c <= c')%Z -> decimal c k <= decimal c' k.
Proof.
  intros Hle. unfold decimal. apply Qmult_le_r; [apply pow10_pos|]. by rewrite <- Zle_Qle.
Qed.

Lemma decimal_pos c k : 0 < decimal c k -> (0 < c)%Z.
Proof.
  unfold decimal. intros Hpos. destruct (Z.ltb_spec 0 c) as [|Hle]; [assumption|].
  exfalso. apply (Qlt_not_le _ _ Hpos).
  assert (H0 : 0 == inject_Z 0 * 10 ^ k) by ring. rewrite H0.
  apply Qmult_le_r; [apply pow10_pos|]. by rewrite <- Zle_Qle.
Qed.

(** The quotient that [pick] rounds, and the two candidates around
    the float. *)
Lemma quotient_back m e k : magnitude m e / 10 ^ k * 10 ^ k == magnitude m e.
Proof.
  field. intros H0. pose proof (pow10_pos k) as Hp. rewrite H0 in Hp. discriminate.
Qed.

Lemma floor_below m e k :
  decimal (Qfloor (magnitude m e / 10 ^ k)) k <= magnitude m e.
Proof.
  rewrite <- (quotient_back m e k) at 2. unfold decimal.
  apply Qmult_le_r; [apply pow10_pos | apply Qfloor_le].
Qed.

Lemma ceiling_above m e k :
  magnitude m e <= decimal (Qceiling (magnitude m e / 10 ^ k)) k.
Proof.
  rewrite <- (quotient_back m e k) at 1. unfold decimal.
  apply Qmult_le_r; [apply pow10_pos | apply Qle_ceiling].
Qed.

Lemma pick_some m e k c :
  pick m e k = Some c ->
  within m e (decimal c k) /\
  (c = Qfloor (magnitude m e / 10 ^ k) \/ c = Qceiling (magnitude m e / 10 ^ k)).
Proof.
  unfold pick.
  destruct (reads_back m e (decimal (Qfloor _) k)) eqn:Ha;
    destruct (reads_back m e (decimal (Qceiling _) k)) eqn:Hb;
    try apply reads_back_iff in Ha; try apply reads_back_iff in Hb.
  - destruct (_ ?= _); [destruct (Z.even _)| |]; intros Heq; injection Heq as <-; auto.
  - intros Heq; injection Heq as <-; auto.
  - intros Heq; injection Heq as <-; auto.
  - discriminate.
Qed.

Lemma pick_none m e k :
  pick m e k = None -> forall c, ~ within m e (decimal c k).
Proof.
  unfold pick.
  destruct (reads_back m e (decimal (Qfloor _) k)) eqn:Ha;
    destruct (reads_back m e (decimal (Qceiling _) k)) eqn:Hb;
    try (destruct (_ ?= _); discriminate); try discriminate.
  intros _ c Hc.
  destruct (Qlt_le_dec (magnitude m e) (decimal c k)) as [Habove|Hbelow].
  - assert (Hcb : (Qceiling (magnitude m e / 10 ^ k) <= c)%Z).
    { rewrite <- (Qceiling_Z c). apply Qceiling_resp_le.
      apply Qle_shift_div_r; [apply pow10_pos | by apply Qlt_le_weak]. }
    assert (Hin : within m e (decimal (Qceiling (magnitude m e / 10 ^ k)) k)).
    { apply (within_between m e (magnitude m e) (decimal c k));
        [apply within_magnitude | exact Hc | apply ceiling_above | by apply decimal_le]. }
    apply reads_back_iff in Hin. congruence.
  - assert (Hca : (c <= Qfloor (magnitude m e / 10 ^ k))%Z).
    { rewrite <- (Qfloor_Z c) at 1. apply Qfloor_resp_le.
      by apply Qle_shift_div_l; [apply pow10_pos|]. }
    assert (Hin : within m e (decimal (Qfloor (magnitude m e / 10 ^ k)) k)).
    { apply (within_between m e (decimal c k) (magnitude m e));
        [exact Hc | apply within_magnitude | by apply decimal_le | apply floor_below]. }
    apply reads_back_iff in Hin. congruence.
Qed.

Lemma pick_exact m e k n :
  magnitude m e / 10 ^ k == inject_Z n -> pick m e k <> None.
Proof.
  intros Hq Hnone. apply (pick_none m e k Hnone n).
  apply (within_comp m e (magnitude m e)); [|apply within_magnitude].
  rewrite <- (quotient_back m e k), Hq. reflexivity.
Qed.

Lemma pick_bottom m e : pick m e (Z.min e 0) <> None.
Proof.
  destruct (Z.le_gt_cases 0 e) as [Hpos|Hneg].
  - rewrite Z.min_r by lia. apply (pick_exact m e 0 (Zpos m * 2 ^ e)).
    unfold magnitude. rewrite inject_Z_mult, Zpower_Qpower by lia.
    change (10 ^ 0) with 1. change (inject_Z 2) with 2. field.
  - rewrite Z.min_l by lia. apply (pick_exact m e e (Zpos m * 5 ^ (- e))).
    unfold magnitude. rewrite inject_Z_mult, Zpower_Qpower by lia.
    change (inject_Z 5) with 5.
    assert (H10 : 10 ^ e == 2 ^ e * 5 ^ e) by (rewrite <- Qmult_power; reflexivity).
    rewrite H10, Qpower_opp.
    field. split; intros H0.
    + pose proof (Qpower_0_lt 5 e eq_refl) as Hp. rewrite H0 in Hp. discriminate.
    + pose proof (pow2_pos e) as Hp. rewrite H0 in Hp. discriminate.
Qed.

Lemma search_spec m e fuel : forall k,
  (exists k0, (k - Z.of_nat fuel <= k0 <= k)%Z /\ pick m e k0 <> None) ->
  exists c k1,
    search m e fuel k = (c, k1) /\ pick m e k1 = Some c /\ (k1 <= k)%Z /\
    forall k', (k1 < k' <= k)%Z -> pick m e k' = None.
Proof.
  induction fuel as [|fuel IH]; intros k (k0 & Hk0 & Hsome); cbn [search].
  - assert (k0 = k) as -> by lia.
    destruct (pick m e k) as [c|] eqn:Hpick; [|congruence].
    exists c, k. split; [reflexivity|]. split; [exact Hpick|].
    split; [lia | intros; lia].
  - destruct (pick m e k) as [c|] eqn:Hpick.
    + exists c, k. split; [reflexivity|]. split; [exact Hpick|].
      split; [lia | intros; lia].
    + assert (Hne : k0 <> k) by (intros ->; congruence).
      destruct (IH (k - 1)%Z) as (c & k1 & Hs & Hp & Hle & Hnone).
      { exists k0. split; [lia | exact Hsome]. }
      exists c, k1. split; [exact Hs|]. split; [exact Hp|]. split; [lia|].
      intros k' Hk'. destruct (Z.eq_dec k' k) as [->|]; [exact Hpick|].
      apply Hnone. lia.
Qed.

Lemma upper_below_top m e :
  upper m e < 10 ^ (Z.log2_up (Qceiling (upper m e)) / 3 + 2).
Proof.
  set (U := Qceiling (upper m e)). set (L := Z.log2_up U).
  assert (HU : (0 < U)%Z).
  { rewrite Zlt_Qlt. apply Qlt_le_trans with (upper m e); [|apply Qle_ceiling].
    apply Qlt_trans with (magnitude m e); [|apply magnitude_lt_upper].
    apply Qlt_trans with (lower m e); [apply lower_pos | apply lower_lt_magnitude]. }
  assert (HL : (0 <= L)%Z) by apply Z.log2_up_nonneg.
  assert (Hz : (U < 10 ^ (L / 3 + 2))%Z).
  { apply Z.le_lt_trans with (2 ^ L)%Z; [apply (Z.log2_log2_up_spec U HU)|].
    apply Z.le_lt_trans with (2 ^ (3 * (L / 3 + 1)))%Z.
    { apply Z.pow_le_mono_r; [lia|]. pose proof (Z.div_mod L 3 ltac:(lia)).
      pose proof (Z.mod_pos_bound L 3 ltac:(lia)). lia. }
    rewrite Z.pow_mul_r by (try lia; pose proof (Z.div_pos L 3); lia).
    change (2 ^ 3)%Z with 8%Z.
    assert (Hd : (0 <= L / 3)%Z) by (apply Z.div_pos; lia).
    apply Z.le_lt_trans with (10 ^ (L / 3 + 1))%Z.
    { apply Z.pow_le_mono_l. lia. }
    apply Z.pow_lt_mono_r; lia. }
  apply Qle_lt_trans with (inject_Z U); [apply Qle_ceiling|].
  assert (Hd : (0 <= L / 3)%Z) by (apply Z.div_pos; lia).
  change 10 with (inject_Z 10). rewrite <- Zpower_Qpower by lia.
  by rewrite <- Zlt_Qlt.
Qed.

Lemma above_top m e k c :
  (Z.log2_up (Qceiling (upper m e)) / 3 + 2 <= k)%Z -> ~ within m e (decimal c k).
Proof.
  intros Hk Hin. pose proof (within_pos _ _ _ Hin) as Hpos.
  apply decimal_pos in Hpos. apply within_upper in Hin.
  apply (Qlt_not_le _ _ (upper_below_top m e)).
  apply Qle_trans with (decimal c k); [|exact Hin].
  apply Qle_trans with (10 ^ k).
  - by apply Qpower_le_compat_l.
  - unfold decimal. rewrite <- (Qmult_1_l (10 ^ k)) at 1.
    apply Qmult_le_r; [apply pow10_pos|]. change 1 with (inject_Z 1).
    rewrite <- Zle_Qle. lia.
Qed.

(** What [shortest] finds: a decimal that reads back, on the coarsest
    grid of powers of ten that has one. *)
Lemma shortest_spec m e :
  exists c k,
    shortest m e = (c, k) /\ pick m e k = Some c /\
    within m e (decimal c k) /\ (0 < c)%Z /\
    forall c' k', (k < k')%Z -> ~ within m e (decimal c' k').
Proof.
  unfold shortest. set (top := (Z.log2_up (Qceiling (upper m e)) / 3 + 2)%Z).
  assert (Htop : (2 <= top)%Z).
  { unfold top. pose proof (Z.log2_up_nonneg (Qceiling (upper m e))).
    pose proof (Z.div_pos (Z.log2_up (Qceiling (upper m e))) 3). lia. }
  destruct (search_spec m e (Z.to_nat (top - Z.min e 0)) top)
    as (c & k & Hs & Hp & Hle & Hnone).
  { exists (Z.min e 0). split; [lia | apply pick_bottom]. }
  exists c, k. split; [exact Hs|]. split; [exact Hp|].
  destruct (pick_some _ _ _ _ Hp) as [Hin _]. split; [exact Hin|].
  split; [apply (decimal_pos c k), (within_pos m e), Hin|].
  intros c' k' Hk'. destruct (Z.le_gt_cases k' top).
  - apply pick_none. destruct (Z.eq_dec k' top) as [->|].
    + destruct (pick m e top) as [c0|] eqn:Htp; [|reflexivity].
      destruct (pick_some _ _ _ _ Htp) as [Hin0 _].
      by apply above_top in Hin0.
    + apply Hnone. lia.
  - apply above_top. lia.
Qed.

End FormatFacts.

Section DigitFacts.
Import strconv.

Lemma digits_from_acc fuel : forall n acc,
  digits_from fuel n acc = digits_from fuel n [] ++ acc.
Proof.
  induction fuel as [|fuel IH]; intros n acc; cbn [digits_from]; [reflexivity|].
  destruct (n <? 10); [reflexivity|].
  rewrite (IH _ (n mod 10 :: acc)), (IH _ [n mod 10]), <- app_assoc. reflexivity.
Qed.

Lemma digits_from_fuel f1 : forall f2 n acc,
  0 < n < 2 ^ Z.of_nat f1 -> n < 2 ^ Z.of_nat f2 ->
  digits_from f1 n acc = digits_from f2 n acc.
Proof.
  induction f1 as [|f1 IH]; intros f2 n acc H1 H2.
  { change (2 ^ Z.of_nat 0) with 1 in H1. lia. }
  destruct f2 as [|f2]; [change (2 ^ Z.of_nat 0) with 1 in H2; lia|].
  cbn [digits_from]. destruct (Z.ltb_spec n 10) as [|Hbig]; [reflexivity|].
  rewrite !Nat2Z.inj_succ, !Z.pow_succ_r in * by lia.
  apply IH; [split; [apply Z.div_str_pos; lia|]|]; apply Z.div_lt_upper_bound; lia.
Qed.

Lemma digits_fuel n fuel :
  0 < n < 2 ^ Z.of_nat fuel -> digits n = digits_from fuel n [].
Proof.
  intros Hn. unfold digits. destruct (Z.leb_spec n 0); [lia|].
  symmetry. apply digits_from_fuel; [exact Hn|].
  rewrite Nat2Z.inj_succ, Z2Nat.id by apply Z.log2_nonneg.
  apply Z.log2_spec. lia.
Qed.

Lemma digits_small n : 0 < n < 10 -> digits n = [n].
Proof.
  intros Hn. rewrite (digits_fuel n 4) by (change (2 ^ Z.of_nat 4) with 16; lia).
  cbn [digits_from]. destruct (Z.ltb_spec n 10); [reflexivity | lia].
Qed.

Lemma digits_step n : 10 <= n -> digits n = digits (n / 10) ++ [n mod 10].
Proof.
  intros Hn. set (fuel := Z.to_nat (Z.log2 n)).
  assert (Hf : n < 2 ^ Z.of_nat (S fuel)).
  { unfold fuel. rewrite Nat2Z.inj_succ, Z2Nat.id by apply Z.log2_nonneg.
    apply Z.log2_spec. lia. }
  rewrite (digits_fuel n (S fuel)) by lia. cbn [digits_from].
  destruct (Z.ltb_spec n 10); [lia|].
  rewrite digits_from_acc. f_equal. symmetry. apply digits_fuel.
  rewrite Nat2Z.inj_succ, Z.pow_succ_r in Hf by lia.
  split; [apply Z.div_str_pos; lia | apply Z.div_lt_upper_bound; lia].
Qed.

(** Induction along the digits of a positive number. *)
Lemma digits_ind (P : Z -> Prop) :
  (forall n, 0 < n < 10 -> P n) ->
  (forall n, 10 <= n -> P (n / 10) -> P n) ->
  forall n, 0 < n -> P n.
Proof.
  intros Hsmall Hstep n Hn.
  assert (Hall : forall b, 0 <= b -> forall n, 0 < n < b -> P n).
  { intros b Hb. pattern b. apply natlike_ind; [intros; lia| |exact Hb].
    intros x Hx IH k Hk. destruct (Z.lt_ge_cases k 10); [apply Hsmall; lia|].
    apply Hstep; [lia|]. apply IH.
    split; [apply Z.div_str_pos; lia | apply Z.div_lt_upper_bound; lia]. }
  apply (Hall (n + 1)); lia.
Qed.

Lemma digits_magnitude n :
  0 < n ->
  1 <= Z.of_nat (length (digits n)) /\
  10 ^ (Z.of_nat (length (digits n)) - 1) <= n < 10 ^ Z.of_nat (length (digits n)).
Proof.
  intros Hn. pattern n. apply digits_ind; [| |exact Hn]; clear n Hn.
  - intros n Hn. rewrite digits_small by exact Hn. cbn. lia.
  - intros n Hn (Hone & Hlo & Hhi). rewrite digits_step, length_app by exact Hn.
    cbn [length]. rewrite Nat2Z.inj_add. change (Z.of_nat 1) with 1.
    set (nd := Z.of_nat (length (digits (n / 10)))) in *.
    replace (nd + 1 - 1) with (Z.succ (nd - 1)) by lia.
    replace (nd + 1) with (Z.succ nd) by lia.
    rewrite !Z.pow_succ_r by lia.
    pose proof (Z.div_mod n 10 ltac:(lia)). pose proof (Z.mod_pos_bound n 10 ltac:(lia)).
    lia.
Qed.

Lemma digits_range n : 0 < n -> Forall (fun d => 0 <= d <= 9) (digits n).
Proof.
  intros Hn. pattern n. apply digits_ind; [| |exact Hn]; clear n Hn.
  - intros n Hn. rewrite digits_small by exact Hn. apply Forall_cons; split; [lia|constructor].
  - intros n Hn IH. rewrite digits_step by exact Hn. apply Forall_app. split; [exact IH|].
    pose proof (Z.mod_pos_bound n 10 ltac:(lia)).
    apply Forall_cons; split; [lia|constructor].
Qed.

End DigitFacts.

Section Fewest.
Import strconv.
Local Open Scope Q_scope.

Lemma decimal_shift c k j :
  (0 <= j)%Z -> decimal (c * 10 ^ j) k == decimal c (k + j).
Proof.
  intros Hj. unfold decimal. rewrite inject_Z_mult, Zpower_Qpower by exact Hj.
  rewrite Qpower_plus by discriminate. change (inject_Z 10) with 10. ring.
Qed.

(** The decimal that [shortest] finds has the fewest digits of all
    that read back, and its last digit is not a zero. *)
Lemma shortest_fewest m e c k :
  shortest m e = (c, k) ->
  (c mod 10 <> 0)%Z /\
  forall c' k', within m e (decimal c' k') ->
                (length (digits c) <= length (digits c'))%nat.
Proof.
  intros Hs. destruct (shortest_spec m e) as (c0 & k0 & Hs0 & _ & Hin & Hpos & Hmax).
  rewrite Hs in Hs0. injection Hs0 as <- <-. split.
  - intros Hmod. apply (Hmax (c / 10)%Z (k + 1)%Z); [lia|].
    apply (within_comp m e (decimal c k)); [|exact Hin].
    rewrite <- (decimal_shift (c / 10) k 1) by lia.
    pose proof (Z.div_mod c 10 ltac:(lia)) as Hdm.
    replace (c / 10 * 10 ^ 1)%Z with c by lia. reflexivity.
  - intros c' k' Hin'.
    destruct (le_lt_dec (length (digits c)) (length (digits c'))) as [|Hlt]; [assumption|].
    exfalso.
    assert (Hpos' : (0 < c')%Z) by apply (decimal_pos c' k'), (within_pos m e), Hin'.
    assert (Hk' : (k' <= k)%Z).
    { destruct (Z.le_gt_cases k' k); [assumption|]. destruct (Hmax c' k'); [lia | exact Hin']. }
    destruct (digits_magnitude c Hpos) as (Hone & Hlo & _).
    destruct (digits_magnitude c' Hpos') as (Hone' & _ & Hhi').
    set (n := Z.of_nat (length (digits c))) in *.
    set (n' := Z.of_nat (length (digits c'))) in *.
    assert (Hnn : (n' < n)%Z) by (unfold n, n'; lia).
    apply (Hmax 1%Z (k + (n - 1))%Z); [lia|].
    apply (within_between m e (decimal c' k') (decimal c k)); [exact Hin' | exact Hin | |].
    + apply Qle_trans with (decimal (10 ^ n') k').
      { apply decimal_le. lia. }
      replace (10 ^ n')%Z with (1 * 10 ^ n')%Z by lia.
      rewrite decimal_shift by lia. unfold decimal.
      apply Qmult_le_l; [reflexivity|]. apply Qpower_le_compat_l; [lia | discriminate].
    + rewrite <- decimal_shift by lia. apply decimal_le. lia.
Qed.

End Fewest.

Section ReadFacts.
Import strconv Literals.

Ltac each_digit d H :=
  let E := fresh in
  assert (E : d = 0 \/ d = 1 \/ d = 2 \/ d = 3 \/ d = 4 \/ d = 5 \/ d = 6 \/ d = 7
                  \/ d = 8 \/ d = 9) by (unfold is_digit in H; lia);
  clear H; destruct E as [->|[->|[->|[->|[->|[->|[->|[->|[->| ->]]]]]]]]].

Lemma digit_value_char d : is_digit d -> digit_value (digit_char d) = Some d.
Proof. intros H. each_digit d H; reflexivity. Qed.

Lemma strip_digit p d r :
  is_digit d -> In p ["-"; "."; "e"; "+"] -> strip p (String (digit_char d) r) = None.
Proof.
  intros H Hp. cbn [In] in Hp.
  destruct Hp as [<-|[<-|[<-|[<-|[]]]]]; each_digit d H; reflexivity.
Qed.

Lemma append_cons x (s t : string) : String x s +:+ t = String x (s +:+ t).
Proof. reflexivity. Qed.

Lemma append_nil_l (t : string) : EmptyString +:+ t = t.
Proof. reflexivity. Qed.

Lemma append_nil_r (s : string) : s +:+ EmptyString = s.
Proof. induction s as [|a s IH]; [reflexivity | by rewrite append_cons, IH]. Qed.

Lemma text_app a b : text (a ++ b) = text a +:+ text b.
Proof.
  induction a as [|d a IH]; [reflexivity|].
  cbn [app text]. by rewrite append_cons, IH.
Qed.

Lemma append_assoc (a b c : string) : (a +:+ b) +:+ c = a +:+ (b +:+ c).
Proof.
  induction a as [|x a IH]; [reflexivity|]. by rewrite !append_cons, IH.
Qed.

Lemma scan_text ds : forall rest acc n,
  Forall is_digit ds -> stops rest ->
  scan (text ds +:+ rest) acc n = (spelled acc ds, n + Z.of_nat (length ds), rest).
Proof.
  induction ds as [|d ds IH]; intros rest acc n Hds Hrest.
  - cbn [text length spelled fold_left]. rewrite append_nil_l, Z.add_0_r.
    destruct rest as [|a rest]; [reflexivity|].
    cbn [scan]. cbn [stops] in Hrest. by rewrite Hrest.
  - apply Forall_cons in Hds as [Hd Hds]. cbn [text]. rewrite append_cons. cbn [scan].
    rewrite (digit_value_char d Hd), (IH rest _ _ Hds Hrest).
    cbn [spelled fold_left length]. f_equal. f_equal. lia.
Qed.

Lemma scan_text_end ds acc n :
  Forall is_digit ds ->
  scan (text ds) acc n = (spelled acc ds, n + Z.of_nat (length ds), EmptyString).
Proof.
  intros Hds. pose proof (scan_text ds EmptyString acc n Hds I) as Hs.
  by rewrite append_nil_r in Hs.
Qed.

Lemma spelled_app acc a b : spelled acc (a ++ b) = spelled (spelled acc a) b.
Proof. apply fold_left_app. Qed.

Lemma spelled_zeros j : forall acc, 0 <= j -> spelled acc (zeros j) = acc * 10 ^ j.
Proof.
  unfold zeros. intros acc Hj. rewrite <- (Z2Nat.id j) at 2 by exact Hj.
  generalize (Z.to_nat j) as n. clear j Hj. intros n. revert acc.
  induction n as [|n IH]; intros acc.
  - cbn. lia.
  - cbn [replicate spelled fold_left]. fold (spelled (10 * acc + 0) (replicate n 0)).
    rewrite IH, Nat2Z.inj_succ, Z.pow_succ_r by lia. lia.
Qed.

Lemma spelled_digits n : 0 < n -> spelled 0 (digits n) = n.
Proof.
  intros Hn. pattern n. apply digits_ind; [| |exact Hn]; clear n Hn.
  - intros n Hn. rewrite digits_small by exact Hn. cbn. lia.
  - intros n Hn IH. rewrite digits_step, spelled_app, IH by exact Hn. cbn.
    pose proof (Z.div_mod n 10 ltac:(lia)). lia.
Qed.

Lemma zeros_digits j : Forall is_digit (zeros j).
Proof. apply Forall_forall. intros d Hd. apply elem_of_replicate in Hd as [-> _]; unfold is_digit; lia. Qed.

Lemma digits_are_digits n : 0 < n -> Forall is_digit (digits n).
Proof. apply digits_range. Qed.


Lemma strip_literal :
  (forall s, strip "-" ("-" +:+ s) = Some s) /\
  (forall s, strip "-" ("+" +:+ s) = None) /\
  (forall s, strip "+" ("+" +:+ s) = Some s) /\
  (forall s, strip "e" ("e" +:+ s) = Some s) /\
  (forall s, strip "." ("." +:+ s) = Some s) /\
  (forall s, strip "." ("e" +:+ s) = None) /\
  (forall s, stops ("e" +:+ s)) /\
  (forall s, stops ("." +:+ s)).
Proof. repeat split. Qed.

Lemma read_signed (neg : bool) d0 r q :
  is_digit d0 ->
  unsigned (String (digit_char d0) r) = Some q ->
  read ((if neg then "-" else EmptyString) +:+ String (digit_char d0) r)
    = Some (if neg then (- q)%Q else q).
Proof.
  intros Hd Hu. destruct strip_literal as (Hminus & _). unfold read. destruct neg.
  - rewrite Hminus, Hu. reflexivity.
  - rewrite append_nil_l, strip_digit by (auto; cbn; auto). exact Hu.
Qed.

Lemma exponent_written exp :
  -1000 < exp < 1000 -> exponent (exponent_text exp) = Some exp.
Proof.
  intros Hexp. destruct strip_literal as (Hmm & Hmp & Hpp & He & _).
  unfold exponent_text, exponent. rewrite He.
  set (a := Z.abs exp).
  assert (Hscan : scan (if a <? 10 then text [0; a]
                        else if a <? 100 then text [a / 10; a mod 10]
                        else text [a / 100; (a / 10) mod 10; a mod 10]) 0 0
                  = (a, (if a <? 100 then 2 else 3), EmptyString)).
  { destruct (Z.ltb_spec a 10); [|destruct (Z.ltb_spec a 100)].
    - destruct (Z.ltb_spec a 100); [|lia].
      rewrite scan_text_end by (repeat constructor; unfold is_digit; lia).
      replace (spelled 0 [0; a]) with a by (cbn; lia). reflexivity.
    - rewrite scan_text_end
        by (repeat constructor; unfold is_digit; Z.to_euclidean_division_equations; lia).
      replace (spelled 0 [a / 10; a mod 10]) with a
        by (cbn; Z.to_euclidean_division_equations; lia).
      reflexivity.
    - rewrite scan_text_end
        by (repeat constructor; unfold is_digit; Z.to_euclidean_division_equations; lia).
      replace (spelled 0 [a / 100; (a / 10) mod 10; a mod 10]) with a
        by (cbn; Z.to_euclidean_division_equations; lia).
      reflexivity. }
  destruct (Z.ltb_spec exp 0).
  - rewrite Hmm, Hscan. destruct (a <? 100); cbn; f_equal; lia.
  - rewrite Hmp, Hpp, Hscan. destruct (a <? 100); cbn; f_equal; lia.
Qed.

(** A literal in its parts: the digits before the point, the digits
    after it if there is one, and the exponent if there is one. *)
Lemma unsigned_parts ints fracs (point : bool) tail x :
  Forall is_digit ints -> ints <> [] -> Forall is_digit fracs ->
  (tail = EmptyString \/ exists r, tail = "e" +:+ r) ->
  exponent tail = Some x ->
  unsigned (text ints +:+ (if point then "." +:+ text fracs else EmptyString) +:+ tail)
    = Some (decimal (spelled 0 (ints ++ (if point then fracs else [])))
                    (x - (if point then Z.of_nat (length fracs) else 0))).
Proof.
  intros Hints Hne Hfracs Htail Hx.
  destruct strip_literal as (_ & _ & _ & _ & Hpoint & Hpe & Hse & Hsp).
  unfold unsigned.
  assert (Hstop : stops tail) by (destruct Htail as [->|[r ->]]; [exact I | apply Hse]).
  assert (Hnopoint : strip "." tail = None)
    by (destruct Htail as [->|[r ->]]; [reflexivity | apply Hpe]).
  assert (Hlen : (0 + Z.of_nat (length ints) =? 0) = false).
  { apply Z.eqb_neq. destruct ints; [congruence | cbn [length]; lia]. }
  destruct point.
  - rewrite append_assoc. rewrite scan_text; [|exact Hints|apply Hsp].
    rewrite Hlen, Hpoint. rewrite scan_text by assumption.
    rewrite Hx, spelled_app. do 2 f_equal.
  - rewrite append_nil_l. rewrite scan_text by assumption.
    rewrite Hlen, Hnopoint, Hx, app_nil_r. reflexivity.
Qed.

Lemma fraction_digits (d : list Z) (dp : Z) :
  dp <= Z.of_nat (length d) ->
  map (fun i => let j := dp + Z.of_nat i in
                if (0 <=? j) && (j <? Z.of_nat (length d)) then nth (Z.to_nat j) d 0 else 0)
      (seq 0 (Z.to_nat (Z.of_nat (length d) - dp)))
    = zeros (- dp) ++ drop (Z.to_nat dp) d.
Proof.
  intros Hdp. apply list_eq. intros i.
  match goal with |- map ?f ?l !! i = _ => change (map f l) with (f <$> l) end.
  rewrite list_lookup_fmap.
  destruct (decide (i < Z.to_nat (Z.of_nat (length d) - dp))%nat) as [Hi|Hi].
  - rewrite lookup_seq_lt by exact Hi. cbn [fmap option_fmap option_map Nat.add].
    destruct (Z.leb_spec 0 (dp + Z.of_nat i)) as [Hj|Hj]; cbn [andb].
    + destruct (Z.ltb_spec (dp + Z.of_nat i) (Z.of_nat (length d))); [|lia].
      rewrite lookup_app_r by (unfold zeros; rewrite length_replicate; lia).
      unfold zeros. rewrite length_replicate, lookup_drop, nth_lookup.
      replace (Z.to_nat dp + (i - Z.to_nat (- dp)))%nat with (Z.to_nat (dp + Z.of_nat i))
        by lia.
      destruct (lookup_lt_is_Some_2 d (Z.to_nat (dp + Z.of_nat i)) ltac:(lia)) as [v ->].
      reflexivity.
    + rewrite lookup_app_l by (unfold zeros; rewrite length_replicate; lia).
      unfold zeros. rewrite lookup_replicate_2 by lia. reflexivity.
  - rewrite lookup_seq_ge by lia. symmetry. apply lookup_ge_None.
    unfold zeros. rewrite length_app, length_replicate, length_drop. lia.
Qed.

Lemma same_decimal c k k' : k = k' -> Some (decimal c k) = Some (decimal c k').
Proof. by intros ->. Qed.

(** What [formatDigits] writes spells the decimal it was given. *)
Lemma read_formatDigits (neg : bool) c k :
  0 < c ->
  -1000 < k + Z.of_nat (length (digits c)) - 1 < 1000 ->
  exists q,
    read (formatDigits neg (digits c) (k + Z.of_nat (length (digits c)))) = Some q /\
    (q == if neg then - decimal c k else decimal c k)%Q.
Proof.
  intros Hc Hexp.
  pose proof (digits_are_digits c Hc) as Hds.
  pose proof (spelled_digits c Hc) as Hval.
  destruct (digits_magnitude c Hc) as (Hone & _).
  destruct (digits c) as [|d0 dtl]; [cbn in Hone; lia|]. clear Hone.
  set (nd := Z.of_nat (length (d0 :: dtl))) in *.
  set (dp := k + nd) in *.
  assert (Hd0 : is_digit d0) by (by apply Forall_cons in Hds as [? _]).
  assert (Htl : Forall is_digit dtl) by (by apply Forall_cons in Hds as [_ ?]).
  assert (Hlen : Z.of_nat (length dtl) = nd - 1) by (unfold nd; cbn [length]; lia).
  unfold formatDigits. fold nd.
  destruct ((dp - 1 <? -4) || (6 <=? dp - 1)) eqn:Hform.
  - (* %e *)
    unfold fmtE. cbv zeta. fold nd. cbn [hd tl].
    destruct (Z.eqb_spec nd 0); [lia|].
    replace (Z.min nd (nd - 1 + 1)) with nd by lia.
    replace (nd - 1 + 1 - Z.max 1 nd) with 0 by lia.
    replace (Z.to_nat (nd - 1)) with (length dtl) by lia.
    rewrite firstn_all. change (zeros 0) with (@nil Z). rewrite app_nil_r.
    fold (exponent_text (dp - 1)).
    assert (Hu : unsigned (text [d0] +:+ (if 0 <? nd - 1 then "." +:+ text dtl
                                          else EmptyString) +:+ exponent_text (dp - 1))
                 = Some (decimal c k)).
    { rewrite (unsigned_parts [d0] dtl (0 <? nd - 1) _ (dp - 1));
        [|constructor; [exact Hd0 | constructor]|discriminate|exact Htl|right; by eexists
         |by apply exponent_written].
      destruct (Z.ltb_spec 0 (nd - 1)).
      - change ([d0] ++ dtl) with (d0 :: dtl). rewrite Hval. apply same_decimal. lia.
      - assert (dtl = []) as -> by (destruct dtl; [reflexivity | cbn in Hlen; lia]).
        cbn [app]. rewrite Hval. apply same_decimal. lia. }
    eexists. split; [apply (read_signed neg d0 _ _ Hd0 Hu)|]. by destruct neg.
  - (* %f *)
    apply orb_false_iff in Hform as [Hlo Hhi].
    apply Z.ltb_ge in Hlo. apply Z.leb_gt in Hhi.
    unfold fmtF. cbv zeta. fold nd.
    destruct (Z.ltb_spec 0 dp) as [Hpos|Hneg].
    + destruct (Z.lt_ge_cases dp nd) as [Hin|Hout].
      * (* the point falls inside the digits *)
        replace (Z.min nd dp) with dp by lia. replace (dp - dp) with 0 by lia.
        change (zeros 0) with (@nil Z). rewrite app_nil_r.
        replace (Z.max (nd - dp) 0) with (nd - dp) by lia.
        destruct (Z.ltb_spec 0 (nd - dp)); [|lia].
        pose proof (fraction_digits (d0 :: dtl) dp ltac:(fold nd; lia)) as Hfr.
        cbv zeta in Hfr. fold nd in Hfr. rewrite Hfr.
        replace (zeros (- dp)) with (@nil Z) by (unfold zeros; by replace (Z.to_nat (- dp)) with O by lia).
        cbn [app].
        assert (Hu : unsigned (text (firstn (Z.to_nat dp) (d0 :: dtl))
                                 +:+ "." +:+ text (drop (Z.to_nat dp) (d0 :: dtl)))
                     = Some (decimal c k)).
        { rewrite <- (append_nil_r ("." +:+ text (drop _ _))).
          rewrite (unsigned_parts (firstn (Z.to_nat dp) (d0 :: dtl))
                     (drop (Z.to_nat dp) (d0 :: dtl)) true EmptyString 0);
            [|by apply Forall_take|destruct (Z.to_nat dp) eqn:?; [lia|discriminate]
             |by apply Forall_drop|by left|reflexivity].
          rewrite take_drop, length_drop, Hval. apply same_decimal.
          unfold dp, nd in *. cbn [length] in *. lia. }
        destruct (Z.to_nat dp) as [|n] eqn:Hn; [lia|]. cbn [firstn text] in *.
        rewrite append_cons in *.
        eexists. split; [apply (read_signed neg d0 _ _ Hd0 Hu)|]. by destruct neg.
      * (* the digits, then zeros; no point *)
        replace (Z.min nd dp) with nd by lia.
        replace (Z.max (nd - dp) 0) with 0 by lia. cbn [Z.ltb Z.compare].
        replace (Z.to_nat nd) with (length (d0 :: dtl)) by (unfold nd; lia).
        rewrite firstn_all.
        assert (Hu : unsigned (text ((d0 :: dtl) ++ zeros (dp - nd)) +:+ EmptyString)
                     = Some (decimal (c * 10 ^ (dp - nd)) 0)).
        { pose proof (unsigned_parts ((d0 :: dtl) ++ zeros (dp - nd)) [] false
                        EmptyString 0) as Hparts.
          rewrite app_nil_r, spelled_app, Hval, spelled_zeros in Hparts by lia.
          apply Hparts; [|discriminate|constructor|by left|reflexivity].
          apply Forall_app; split; [exact Hds | apply zeros_digits]. }
        eexists. split; [apply (read_signed neg d0 _ _ Hd0 Hu)|].
        assert (Hshift : (decimal (c * 10 ^ (dp - nd)) 0 == decimal c k)%Q).
        { rewrite decimal_shift by lia. replace (0 + (dp - nd)) with k by (unfold dp; lia).
          reflexivity. }
        destruct neg; by rewrite Hshift.
    + (* a zero, the point, zeros, the digits *)
      replace (Z.max (nd - dp) 0) with (nd - dp) by lia.
      destruct (Z.ltb_spec 0 (nd - dp)); [|lia].
      pose proof (fraction_digits (d0 :: dtl) dp ltac:(fold nd; lia)) as Hfr.
      cbv zeta in Hfr. fold nd in Hfr. rewrite Hfr.
      replace (Z.to_nat dp) with O by lia. cbn [drop].
      assert (Hu : unsigned (text [0] +:+ "." +:+ text (zeros (- dp) ++ d0 :: dtl))
                   = Some (decimal c k)).
      { rewrite <- (append_nil_r ("." +:+ text (zeros _ ++ _))).
        rewrite (unsigned_parts [0] (zeros (- dp) ++ d0 :: dtl) true EmptyString 0);
          [|repeat constructor; unfold is_digit; lia|discriminate
           |apply Forall_app; split; [apply zeros_digits | exact Hds]|by left|reflexivity].
        change ([0] ++ zeros (- dp) ++ d0 :: dtl) with (([0] ++ zeros (- dp)) ++ d0 :: dtl).
        rewrite spelled_app, spelled_app, spelled_zeros by lia.
        change (spelled 0 [0]) with 0. rewrite Z.mul_0_l, Hval.
        apply same_decimal. rewrite length_app. unfold zeros at 1.
        rewrite length_replicate. unfold dp, nd in *. lia. }
      change (text [0]) with "0" in Hu.
      eexists. split; [apply (read_signed neg 0 _ _ ltac:(unfold is_digit; lia) Hu)|].
      by destruct neg.
Qed.

End ReadFacts.

Section Float64Facts.
Import strconv.
Local Open Scope Q_scope.

Lemma digits2_pos_size m : digits2_pos m = Pos.size m.
Proof. induction m as [m IH|m IH|]; cbn; by rewrite ?IH. Qed.

(** A float64 has a mantissa of 53 bits at most and an exponent
    between -1074 and 971. *)
Lemma valid_binary_bounds neg m e :
  valid_binary 53 1024 (S754_finite neg m e) = true ->
  (Zpos m < 2 ^ 53)%Z /\ (-1074 <= e <= 971)%Z.
Proof.
  cbn [valid_binary]. unfold bounded, canonical_mantissa, fexp, emin.
  intros Hb. apply andb_true_iff in Hb as [Hc He].
  apply Z.eqb_eq in Hc. apply Z.leb_le in He.
  rewrite digits2_pos_size in Hc.
  assert (Hsize : (Zpos (Pos.size m) <= 53)%Z) by lia.
  split; [|lia].
  apply Z.lt_le_trans with (Zpos (2 ^ Pos.size m)); [apply Pos.size_gt|].
  rewrite Pos2Z.inj_pow. apply Z.pow_le_mono_r; lia.
Qed.

Lemma exponent_bound m e c k :
  (Zpos m < 2 ^ 53)%Z -> (-1074 <= e <= 971)%Z ->
  (0 < c)%Z -> within m e (decimal c k) ->
  (-1000 < k + Z.of_nat (length (digits c)) - 1 < 1000)%Z.
Proof.
  intros Hm He Hc Hin.
  destruct (digits_magnitude c Hc) as (Hone & Hlo & Hhi).
  set (nd := Z.of_nat (length (digits c))) in *.
  assert (Hup : upper m e < 10 ^ 309).
  { apply Qle_lt_trans with (inject_Z (2 ^ 55) * 2 ^ 969); [|by vm_compute].
    unfold upper. apply Qmult_le_compat_nonneg.
    - split; [change 0 with (inject_Z 0)|]; rewrite <- Zle_Qle; lia.
    - split; [apply Qlt_le_weak, pow2_pos|].
      apply Qpower_le_compat_l; [lia | discriminate]. }
  assert (Hdown : 10 ^ (-324) < lower m e).
  { apply Qlt_le_trans with (inject_Z 2 * 2 ^ (-1076)); [by vm_compute|].
    assert (Hleast : forall n, (2 <= n)%Z ->
              inject_Z 2 * 2 ^ (-1076) <= inject_Z n * 2 ^ (e - 2)).
    { intros n Hn. apply Qmult_le_compat_nonneg.
      - split; [discriminate|]. by rewrite <- Zle_Qle.
      - split; [apply Qlt_le_weak, pow2_pos|].
        apply Qpower_le_compat_l; [lia | discriminate]. }
    unfold lower. destruct (_ && _); apply Hleast; lia. }
  assert (Hy1 : 10 ^ (k + (nd - 1)) <= decimal c k).
  { rewrite <- (Qmult_1_l (10 ^ _)). change (1 * 10 ^ (k + (nd - 1)))
      with (decimal 1 (k + (nd - 1))).
    rewrite <- decimal_shift by lia. apply decimal_le. lia. }
  assert (Hy2 : decimal c k <= 10 ^ (k + nd)).
  { rewrite <- (Qmult_1_l (10 ^ _)). change (1 * 10 ^ (k + nd)) with (decimal 1 (k + nd)).
    rewrite <- decimal_shift by lia. apply decimal_le. lia. }
  assert (Hlow : lower m e <= decimal c k).
  { unfold within in Hin. destruct (Z.even (Z.pos m)); destruct Hin as [Hl _];
      [assumption | by apply Qlt_le_weak]. }
  pose proof (within_upper _ _ _ Hin) as Hhigh.
  assert (H1 : (k + (nd - 1) < 309)%Z).
  { apply (Qpower_lt_compat_l_inv 10); [|reflexivity].
    apply Qle_lt_trans with (decimal c k); [exact Hy1|].
    by apply Qle_lt_trans with (upper m e). }
  assert (H2 : (-324 < k + nd)%Z).
  { apply (Qpower_lt_compat_l_inv 10); [|reflexivity].
    apply Qlt_le_trans with (lower m e); [exact Hdown|].
    by apply Qle_trans with (decimal c k). }
  lia.
Qed.

(** [FormatFloat] on a float64 other than zero: the digits are those
    of [shortest], what is written spells their decimal, the decimal
    reads back as the float, its last digit is not a zero, and no
    decimal of fewer digits reads back as the float. *)
Lemma FormatFloat_shortest neg m e :
  valid_binary 53 1024 (S754_finite neg m e) = true ->
  exists c k q,
    shortest m e = (c, k) /\
    FormatFloat (S754_finite neg m e)
      = formatDigits neg (digits c) (k + Z.of_nat (length (digits c))) /\
    read (FormatFloat (S754_finite neg m e)) = Some q /\
    (q == if neg then - decimal c k else decimal c k) /\
    reads_back m e (decimal c k) = true /\
    (c mod 10 <> 0)%Z /\
    (forall c' k', reads_back m e (decimal c' k') = true ->
                   (length (digits c) <= length (digits c'))%nat).
Proof.
  intros Hvalid. destruct (valid_binary_bounds _ _ _ Hvalid) as [Hm He].
  destruct (shortest_spec m e) as (c & k & Hs & _ & Hin & Hc & _).
  destruct (shortest_fewest m e c k Hs) as [Hlast Hfew].
  destruct (read_formatDigits neg c k Hc (exponent_bound m e c k Hm He Hc Hin))
    as (q & Hread & Hq).
  exists c, k, q. cbn [FormatFloat]. rewrite Hs.
  split; [reflexivity|]. split; [reflexivity|]. split; [exact Hread|].
  split; [exact Hq|]. split; [by apply reads_back_iff|]. split; [exact Hlast|].
  intros c' k' Hin'. apply (Hfew c' k'). by apply reads_back_iff.
Qed.

End Float64Facts.

(** ** Arguments on the gRPC transport *)

Section GRPC.
Import job sidecar.

(** C8 (amended).  The request built for the gRPC transport carries one
    string per argument, in order, each the [%v] rendering of the
    argument: a boolean as [true] or [false], a string unchanged, a
    null as the five characters [<nil>], and a number as [strconv]
    formats it with ['g'] and the shortest precision.  For a float64
    other than zero what is written spells a decimal that reads back
    as the same float64, has no zero as its last digit, and has no
    more digits than any decimal that reads back as it; a zero is
    written [0], and [-0] if it is the negative one. *)
Theorem build_request_args (jobData : SidekiqJob) :
  length (rq_Args (build_request jobData)) = length (Args jobData) /\
  (forall i arg, Args jobData !! i = Some arg ->
                 rq_Args (build_request jobData) !! i = Some (Sprintf_v arg)) /\
  (forall rpc err, rpc (build_request jobData) = inr err ->
                   GRPC_ExecuteJob rpc jobData
                     = inr (Go.Errorf "gRPC execution failed: %w" [] (Some err))) /\
  (forall f, Sprintf_v (VNumber f) = strconv.FormatFloat f) /\
  (forall neg m e,
      valid_binary 53 1024 (S754_finite neg m e) = true ->
      exists c k q,
        strconv.shortest m e = (c, k) /\
        Sprintf_v (VNumber (S754_finite neg m e))
          = strconv.formatDigits neg (strconv.digits c)
              (k + Z.of_nat (length (strconv.digits c))) /\
        strconv.read (Sprintf_v (VNumber (S754_finite neg m e))) = Some q /\
        (q == if neg then - strconv.decimal c k else strconv.decimal c k)%Q /\
        strconv.reads_back m e (strconv.decimal c k) = true /\
        c mod 10 <> 0 /\
        (forall c' k',
            strconv.reads_back m e (strconv.decimal c' k') = true ->
            (length (strconv.digits c) <= length (strconv.digits c'))%nat)) /\
  (forall neg, Sprintf_v (VNumber (S754_zero neg)) = if neg then "-0" else "0") /\
  Sprintf_v (VBool true) = "true" /\
  Sprintf_v (VBool false) = "false" /\
  (forall s, Sprintf_v (VString s) = s) /\
  Sprintf_v VNil = "<nil>".
Proof.
  split; [unfold build_request; cbn [rq_Args]; by rewrite length_map|].
  split.
  { intros i arg Hi. unfold build_request. cbn [rq_Args].
    change (map Sprintf_v (Args jobData)) with (Sprintf_v <$> Args jobData).
    by rewrite list_lookup_fmap, Hi. }
  split.
  { intros rpc err Hrpc. unfold GRPC_ExecuteJob. by rewrite Hrpc. }
  split; [reflexivity|].
  split; [intros neg m e Hvalid; exact (FormatFloat_shortest neg m e Hvalid)|].
  split; [by intros []|].
  repeat split.
Qed.

End GRPC.

(** C8 as stated fails on a null argument: it is sent as [<nil>], not as
    the empty string. *)
Lemma build_request_null_counterexample :
  sidecar.rq_Args
    (sidecar.build_request (Examples.job_with_args [job.VString "User"; job.VNil]))
    = ["User"; "<nil>"] /\
  "<nil>" <> EmptyString.
Proof. split; [reflexivity | discriminate]. Qed.

(** ** The semaphore *)

Section SemaphoreFacts.
Import concurrency SemaphoreRuns.

Lemma NewSemaphore_consistent c :
  1 <= c <= Go.int_max ->
  consistent (NewSemaphore c) /\ capacity (NewSemaphore c) = c.
Proof.
  intros Hc. unfold NewSemaphore, consistent.
  destruct (Z.leb_spec c 0); [lia|]. simpl. lia.
Qed.

Lemma acquired_consistent s :
  consistent s -> can_send s = true -> consistent (acquired s).
Proof.
  unfold consistent, can_send, acquired. intros (Hch & Hwg & Ha & Hc) Hs. simpl.
  apply Z.ltb_lt in Hs.
  rewrite wrap_in_range by (unfold Go.in_range, Go.int_min, Go.int_max in *; lia).
  lia.
Qed.

Lemma consistent_acquire_room s :
  consistent s -> can_send s = true ->
  ActiveCount s < capacity s /\ ActiveCount (acquired s) = ActiveCount s + 1.
Proof.
  unfold consistent, can_send, ActiveCount, acquired.
  intros (Hch & Hwg & Ha & Hc) Hs. apply Z.ltb_lt in Hs. simpl.
  rewrite wrap_in_range by (unfold Go.in_range, Go.int_min, Go.int_max in *; lia).
  lia.
Qed.

Lemma delete_end {A : Type} (l : list A) (x : A) : delete (length l) (l ++ [x]) = l.
Proof. induction l as [|a l IH]; [reflexivity|]. simpl. by f_equal. Qed.

Lemma insert_end {A : Type} (l : list A) (x y : A) :
  <[length l := y]> (l ++ [x]) = l ++ [y].
Proof. induction l as [|a l IH]; [reflexivity|]. simpl. by f_equal. Qed.

Lemma Acquire_uninterrupted done pick (m : Interleaving.Machine) :
  let last := length (Interleaving.calls m) in
  match Acquire done pick (Interleaving.sem m) with
  | Returns true s' =>
      Interleaving.step (Interleaving.EnterAcquire done pick) m
        = Returns Interleaving.GoesOn (Interleaving.sent m) /\
      Interleaving.step (Interleaving.Resume last) (Interleaving.sent m)
        = Returns (Interleaving.Returned (Some true))
            {| Interleaving.sem := s'; Interleaving.calls := Interleaving.calls m |}
  | Returns false s' =>
      s' = Interleaving.sem m /\
      Interleaving.step (Interleaving.EnterAcquire done pick) m
        = Returns (Interleaving.Returned (Some false)) m
  | Blocks => Interleaving.step (Interleaving.EnterAcquire done pick) m = Blocks
  | Panics => False
  end.
Proof.
  intros last. unfold Acquire. cbn [Interleaving.step].
  assert (Hresume : Interleaving.step (Interleaving.Resume last) (Interleaving.sent m)
            = Returns (Interleaving.Returned (Some true))
                {| Interleaving.sem := acquired (Interleaving.sem m);
                   Interleaving.calls := Interleaving.calls m |}).
  { unfold Interleaving.step, Interleaving.sent, last. cbn [Interleaving.calls].
    rewrite list_lookup_middle by reflexivity.
    cbn [Interleaving.sem ch capacity active wg].
    by rewrite delete_end. }
  destruct (can_send (Interleaving.sem m)), done, pick; by try split.
Qed.

Lemma Release_uninterrupted (m : Interleaving.Machine) :
  let last := length (Interleaving.calls m) in
  match Release (Interleaving.sem m) with
  | Returns _ s' =>
      Interleaving.play [Interleaving.EnterRelease; Interleaving.Resume last;
                         Interleaving.Resume last] m
        = Some {| Interleaving.sem := s'; Interleaving.calls := Interleaving.calls m |} \/
      (ch (Interleaving.sem m) = O /\ s' = Interleaving.sem m /\
       Interleaving.step Interleaving.EnterRelease m
         = Returns (Interleaving.Returned None) m)
  | Blocks => False
  | Panics =>
      Interleaving.play [Interleaving.EnterRelease; Interleaving.Resume last;
                         Interleaving.Resume last] m = None
  end.
Proof.
  intros last. unfold Release. cbn [Interleaving.play Interleaving.step].
  destruct (ch (Interleaving.sem m)) as [|n] eqn:Hch; [by right|].
  cbn [Interleaving.calls]. subst last.
  rewrite list_lookup_middle by reflexivity.
  cbn [Interleaving.sem Interleaving.calls ch capacity active wg].
  rewrite insert_end, list_lookup_middle by reflexivity.
  destruct (wg (Interleaving.sem m) - 1 <? 0); [reflexivity|].
  left. by rewrite delete_end.
Qed.

(** C7.  The claim does not hold of the code once two calls overlap:
    the channel operation and the update of [active] are separate
    steps, and another call can come between them.  On a semaphore of
    capacity 1 whose token is held, the holder's [Release] receives
    from the channel; before it has lowered [active], another
    goroutine's [Acquire] sends, raises [active] and returns true.
    That [Acquire] succeeded while the active count was 1, the
    capacity, and it leaves the active count at 2.  By the same
    defect a [Release] with no acquire of its own, coming between the
    send and the locked section of another goroutine's [Acquire],
    takes the active count to -1 and panics in [wg.Done()]. *)
Theorem active_count_above_capacity :
  let held := Interleaving.idle (acquired (NewSemaphore 1)) in
  let fresh := Interleaving.idle (NewSemaphore 1) in
  (exists m1 m2 m3,
      ActiveCount (Interleaving.sem held) = 1 /\
      Interleaving.step Interleaving.EnterRelease held
        = Returns Interleaving.GoesOn m1 /\
      ActiveCount (Interleaving.sem m1) = 1 /\
      Interleaving.step (Interleaving.EnterAcquire false true) m1
        = Returns Interleaving.GoesOn m2 /\
      Interleaving.step (Interleaving.Resume 1) m2
        = Returns (Interleaving.Returned (Some true)) m3 /\
      ActiveCount (Interleaving.sem m3) = 2 /\
      Capacity (Interleaving.sem m3) = 1) /\
  (exists m1 m2 m3,
      Interleaving.step (Interleaving.EnterAcquire false true) fresh
        = Returns Interleaving.GoesOn m1 /\
      Interleaving.step Interleaving.EnterRelease m1 = Returns Interleaving.GoesOn m2 /\
      Interleaving.step (Interleaving.Resume 1) m2 = Returns Interleaving.GoesOn m3 /\
      ActiveCount (Interleaving.sem m3) = -1 /\
      Interleaving.step (Interleaving.Resume 1) m3 = Panics).
Proof.
  split; do 3 eexists; repeat split; reflexivity.
Qed.

End SemaphoreFacts.

(** ** The processor *)

Section ProcessorFacts.
Import job concurrency SemaphoreRuns ProcessorRuns.
Context {E : Type} `{JobExecutor E}.

Lemma NewConcurrentProcessor_ok (c : Z) (ex : E) :
  1 <= c <= Go.int_max -> processor_ok (NewConcurrentProcessor c ex).
Proof.
  intros Hc. unfold processor_ok. simpl.
  destruct (NewSemaphore_consistent c Hc) as [Hs _].
  split; [exact Hs|]. unfold NewSemaphore. by destruct (c <=? 0).
Qed.

Lemma ProcessJob_ok pick job (cp cp' : @ConcurrentProcessor E) :
  processor_ok cp ->
  ProcessJob pick job cp = Returns None cp' ->
  processor_ok cp' /\ goroutines cp' = goroutines cp ++ [job] /\
  executor cp' = executor cp /\ log cp' = log cp.
Proof.
  intros (Hs & Ha & Hw). unfold ProcessJob.
  destruct (running cp); simpl; [|discriminate].
  unfold Acquire.
  destruct (can_send (semaphore cp)) eqn:Hsend, (ctx_done cp), pick;
    simpl; try discriminate; intros Heq; injection Heq as <-; simpl;
    (split; [|by repeat split]);
    unfold processor_ok; simpl; rewrite length_app; simpl;
    (split; [by apply acquired_consistent|]);
    destruct (consistent_acquire_room _ Hs Hsend) as [_ Hinc];
    unfold ActiveCount in Hinc; simpl in Hinc; lia.
Qed.

Lemma ProcessJob_error pick job (cp cp' : @ConcurrentProcessor E) (err : Go.error) :
  ProcessJob pick job cp = Returns (Some err) cp' ->
  cp' = cp /\ (err = ErrShuttingDown \/ err = ErrAcquire).
Proof.
  unfold ProcessJob. destruct (running cp); simpl.
  - destruct (Acquire (ctx_done cp) pick (semaphore cp)) as [[|] sem| |];
      try discriminate.
    intros Heq. injection Heq as <- <-. by split; [|right].
  - intros Heq. injection Heq as <- <-. by split; [|left].
Qed.

Lemma goroutine_ok start stop job rest (cp : @ConcurrentProcessor E) :
  processor_ok cp ->
  goroutines cp = job :: rest ->
  exists cp',
    goroutine start stop cp = Returns tt cp' /\
    processor_ok cp' /\
    goroutines cp' = rest /\
    executor cp' = fst (executeJob start stop job (executor cp)) /\
    log cp' = log cp ++ snd (executeJob start stop job (executor cp)) /\
    ActiveJobs cp' = ActiveJobs cp - 1 /\
    running cp' = running cp /\ ctx_done cp' = ctx_done cp.
Proof.
  intros (Hs & Ha & Hw) Hg. unfold goroutine. rewrite Hg.
  destruct (executeJob start stop job (executor cp)) as [ex' lines].
  rewrite Hg in Ha, Hw. simpl in Ha, Hw.
  destruct Hs as (Hch & Hwg & Hact & Hcap).
  unfold Release. destruct (ch (semaphore cp)) as [|n] eqn:Hn; [lia|].
  destruct (Z.ltb_spec (wg (semaphore cp) - 1) 0); [lia|].
  destruct (Z.ltb_spec (pwg cp - 1) 0); [lia|].
  eexists. split; [reflexivity|]. unfold processor_ok, consistent, ActiveJobs, ActiveCount.
  simpl.
  rewrite wrap_in_range by (unfold Go.in_range, Go.int_min, Go.int_max in *; lia).
  repeat split; lia.
Qed.

End ProcessorFacts.

(** ** The goroutine of a job, the submit path and shutdown *)

Section Supervisor.
Import job redis concurrency ProcessorRuns worker.
Context {E : Type} `{JobExecutor E} `{JSON}.

Lemma executeJob_failed start stop job (ex : E) :
  failed (fst (ExecuteJob job ex)) ->
  snd (executeJob start stop job ex)
    = [LogStarting (JID job) (Class job);
       match fst (ExecuteJob job ex) with
       | inr err => LogFailedErr (JID job) (Class job) err (Go.Sub stop start)
       | inl result =>
           LogFailed (JID job) (Class job) (ErrorMessage result) (Go.Sub stop start)
       end].
Proof.
  unfold executeJob, failed. destruct (ExecuteJob job ex) as [[result|err] ex']; simpl.
  - by intros ->.
  - reflexivity.
Qed.

(** C1 (amended).  When the execution of a job ends in failure (the
    executor call returns an error, or a result whose status is not
    [success]), the goroutine that ran it writes the two log lines,
    releases its token and ends.  It sends nothing to the store: the
    store after it is the store before it, so the job is neither put
    in [schedule] nor in [dead], and no goroutine holds it any more. *)
Theorem failed_job_is_only_logged (start stop : Z) (w : @World E)
    (job : SidekiqJob) (rest : list SidekiqJob) :
  processor_ok (processor w) ->
  goroutines (processor w) = job :: rest ->
  failed (fst (ExecuteJob job (executor (processor w)))) ->
  exists w',
    run_goroutine start stop w = Returns tt w' /\
    redisClient w' = redisClient w /\
    zrange "schedule" (redisClient w') = zrange "schedule" (redisClient w) /\
    zrange "dead" (redisClient w') = zrange "dead" (redisClient w) /\
    output w' = output w /\
    log (processor w')
      = log (processor w) ++
        [LogStarting (JID job) (Class job);
         match fst (ExecuteJob job (executor (processor w))) with
         | inr err => LogFailedErr (JID job) (Class job) err (Go.Sub stop start)
         | inl result =>
             LogFailed (JID job) (Class job) (ErrorMessage result) (Go.Sub stop start)
         end] /\
    goroutines (processor w') = rest /\
    ActiveJobs (processor w') = ActiveJobs (processor w) - 1.
Proof.
  intros Hok Hg Hfail.
  destruct (goroutine_ok start stop job rest (processor w) Hok Hg)
    as (cp' & Hrun & _ & Hrest & _ & Hlog & Hact & _).
  eexists. unfold run_goroutine. rewrite Hrun. split; [reflexivity|]. simpl.
  repeat split; try assumption.
  rewrite Hlog. f_equal. by apply executeJob_failed.
Qed.

Lemma blpop_scan_some keys : forall st key v st',
  blpop_scan keys st = Some (key, v, st') ->
  In key keys /\ exists tl, lrange key st = v :: tl /\ st' = set_list key tl st.
Proof.
  induction keys as [|k ks IH]; intros st key v st'; simpl; [discriminate|].
  destruct (lrange k st) as [|x tl] eqn:Hl.
  - intros Hs. destruct (IH _ _ _ _ Hs) as [Hin Htl]. split; [by right | exact Htl].
  - intros Heq. injection Heq as <- <- <-. split; [by left|]. by exists tl.
Qed.

Lemma send_keeps st : lists (snd (send st)) = lists st /\ zsets (snd (send st)) = zsets st.
Proof. unfold send. by destruct (wire st). Qed.

Lemma PollJobs_some Queues st0 job st :
  Client.PollJobs Queues st0 = (inl (Some job), st) ->
  exists queue payload tl,
    In queue Queues /\
    lrange (Client.queue_key queue) st0 = payload :: tl /\
    Unmarshal payload = Some job /\
    lists st = lists (set_list (Client.queue_key queue) tl st0) /\
    zsets st = zsets st0.
Proof.
  unfold Client.PollJobs, BLPop.
  destruct (send_keeps st0) as [Hl Hz].
  destruct (send st0) as [[|] st1]; simpl in Hl, Hz; [|discriminate].
  destruct (map Client.queue_key Queues) as [|k ks] eqn:Hkeys; [discriminate|].
  rewrite <- Hkeys.
  destruct (blpop_scan (map Client.queue_key Queues) st1) as [[[key v] st2]|] eqn:Hscan;
    [|discriminate].
  destruct (blpop_scan_some _ _ _ _ _ Hscan) as (Hin & tl & Hhead & ->).
  apply in_map_iff in Hin as (queue & <- & Hq).
  destruct (Unmarshal v) as [j|] eqn:Hdec; [|discriminate].
  intros Heq. injection Heq as <- <-.
  exists queue, v, tl. unfold lrange in *. rewrite Hl in Hhead.
  repeat split; try assumption.
  unfold set_list. simpl. by rewrite Hl.
Qed.

(** C9.  When a turn of the supervisor loop has popped a job and
    [ProcessJob] returns an error (the processor is shutting down, or
    the acquire was cancelled), the turn ends with one line logged and
    nothing else: the processor is as it was, so no goroutine holds the
    job, and the store is as the pop left it, the job's payload gone
    from the head of its queue, every sorted set untouched.  The job is
    in no collection any more. *)
Theorem submit_error_loses_job (pick : bool) (Queues : list string) (PollInterval : Z)
    (w : @World E) (job : SidekiqJob) (st : Store) (err : Go.error)
    (cp : @ConcurrentProcessor E) :
  Client.PollJobs Queues (redisClient w) = (inl (Some job), st) ->
  ProcessJob pick job (processor w) = Returns (Some err) cp ->
  iteration false pick Queues PollInterval w
    = Again {| redisClient := st; processor := processor w;
               output := output w ++ [LogSubmitError err] |} [] /\
  (err = ErrShuttingDown \/ err = ErrAcquire) /\
  zsets st = zsets (redisClient w) /\
  exists queue payload tl,
    In queue Queues /\
    lrange (Client.queue_key queue) (redisClient w) = payload :: tl /\
    Unmarshal payload = Some job /\
    lists st = lists (set_list (Client.queue_key queue) tl (redisClient w)).
Proof.
  intros Hpoll Hsubmit.
  destruct (ProcessJob_error _ _ _ _ _ Hsubmit) as [-> Herr].
  destruct (PollJobs_some _ _ _ _ Hpoll) as (queue & payload & tl & Hq & Hhead & Hdec & Hl & Hz).
  split.
  { unfold iteration. by rewrite Hpoll, Hsubmit. }
  split; [exact Herr|]. split; [exact Hz|].
  by exists queue, payload, tl.
Qed.

End Supervisor.

(** ** Shutdown *)

Section ShutdownFacts.
Import job concurrency SemaphoreRuns ProcessorRuns Lifecycle.
Context {E : Type} `{JobExecutor E}.

(** The goroutine run to its end in one go is the goroutine that
    begins and then ends with nothing in between. *)
Lemma goroutine_begin_finish start stop (cp : @ConcurrentProcessor E) job rest :
  goroutines cp = job :: rest ->
  match goroutine start stop cp with
  | Returns _ cp' => finish 0 stop (begin 0 start (at_rest cp)) = Returns tt (at_rest cp')
  | Blocks => finish 0 stop (begin 0 start (at_rest cp)) = Blocks
  | Panics => finish 0 stop (begin 0 start (at_rest cp)) = Panics
  end.
Proof.
  intros Hg. unfold goroutine, begin, finish, at_rest, executeJob, outcome_line.
  cbn [proc inflight]. rewrite Hg.
  cbn [lookup list_lookup app proc inflight executor semaphore pwg].
  destruct (ExecuteJob job (executor cp)) as [r ex'].
  destruct (Release (semaphore cp)) as [u sem| |]; [|reflexivity|reflexivity].
  destruct (pwg cp - 1 <? 0); [reflexivity|].
  cbn. rewrite <- app_assoc. cbn [app].
  destruct r as [result|err]; [destruct (String.eqb (Status result) "success")|];
    reflexivity.
Qed.

Lemma happen_flags h (p p' : @Pool E) :
  happen h p = Returns tt p' ->
  running (proc p') = running (proc p) /\ ctx_done (proc p') = ctx_done (proc p) /\
  exists lines, log (proc p') = log (proc p) ++ lines.
Proof.
  destruct h as [i start|k stop]; cbn [happen].
  - intros Heq. injection Heq as <-. unfold begin.
    destruct (goroutines (proc p) !! i) as [job|].
    + cbn. repeat split. by eexists.
    + repeat split. exists []. by rewrite app_nil_r.
  - unfold finish. destruct (inflight p !! k) as [[job start]|].
    + destruct (ExecuteJob job (executor (proc p))) as [r ex'].
      destruct (Release (semaphore (proc p))) as [u sem| |]; try discriminate.
      destruct (pwg (proc p) - 1 <? 0); [discriminate|].
      intros Heq. injection Heq as <-. cbn. repeat split. by eexists.
    + intros Heq. injection Heq as <-. repeat split. exists []. by rewrite app_nil_r.
Qed.

Lemma wait_flags fire hs : forall last last' (p p' : @Pool E),
  wait fire hs last p = Returns last' p' ->
  running (proc p') = running (proc p) /\ ctx_done (proc p') = ctx_done (proc p) /\
  last <= last' /\
  exists lines, log (proc p') = log (proc p) ++ lines.
Proof.
  induction hs as [|h rest IH]; intros last last' p p'; cbn [wait].
  - intros Heq. injection Heq as <- <-. repeat split; [lia|].
    exists []. by rewrite app_nil_r.
  - destruct (drained p).
    { intros Heq. injection Heq as <- <-. repeat split; [lia|].
      exists []. by rewrite app_nil_r. }
    destruct (fire <? instant h).
    { intros Heq. injection Heq as <- <-. repeat split; [lia|].
      exists []. by rewrite app_nil_r. }
    destruct (happen h p) as [[] p1| |] eqn:Hh; try discriminate.
    intros Hw. destruct (happen_flags _ _ _ Hh) as (Hr1 & Hc1 & l1 & Hl1).
    destruct (IH _ _ _ _ Hw) as (Hr2 & Hc2 & Hle & l2 & Hl2).
    split; [congruence|]. split; [congruence|]. split; [lia|].
    exists (l1 ++ l2). by rewrite Hl2, Hl1, app_assoc.
Qed.

Lemma drained_pending (p : @Pool E) :
  pool_ok p -> drained p = true <-> pending p = O.
Proof.
  intros ((_ & Hwg & _) & Ha & Hp). unfold drained. rewrite Hp, Hwg, Ha.
  split.
  - intros Hd. apply andb_true_iff in Hd as [Hz _]. apply Z.eqb_eq in Hz. lia.
  - intros ->. reflexivity.
Qed.

Lemma begin_ok i start (p : @Pool E) :
  pool_ok p ->
  pool_ok (begin i start p) /\ pending (begin i start p) = pending p /\
  ((i < length (goroutines (proc p)))%nat ->
   length (goroutines (proc (begin i start p))) = (length (goroutines (proc p)) - 1)%nat /\
   length (inflight (begin i start p)) = S (length (inflight p)) /\
   exists line, log (proc (begin i start p)) = log (proc p) ++ [line]).
Proof.
  intros Hok. unfold begin.
  destruct (goroutines (proc p) !! i) as [job|] eqn:Hi.
  - assert (Hlt : (i < length (goroutines (proc p)))%nat)
      by (apply lookup_lt_is_Some; by eexists).
    assert (Hpend : pending
              {| proc := {| semaphore := semaphore (proc p); ctx_done := ctx_done (proc p);
                            pwg := pwg (proc p); running := running (proc p);
                            goroutines := delete i (goroutines (proc p));
                            executor := executor (proc p);
                            log := log (proc p) ++ [LogStarting (JID job) (Class job)] |};
                 inflight := inflight p ++ [(job, start)] |} = pending p).
    { unfold pending. cbn [proc inflight goroutines].
      rewrite length_delete by (by eexists). rewrite length_app. cbn [length]. lia. }
    split.
    + destruct Hok as (Hs & Ha & Hp). unfold pool_ok. rewrite Hpend.
      exact (conj Hs (conj Ha Hp)).
    + split; [exact Hpend|]. intros _. cbn [proc inflight goroutines log].
      rewrite length_delete by (by eexists). rewrite length_app. cbn [length].
      split; [lia|]. split; [lia|]. by eexists.
  - split; [exact Hok|]. split; [reflexivity|]. intros Hlt.
    apply lookup_ge_None in Hi. lia.
Qed.

Lemma finish_ok k stop (p : @Pool E) :
  pool_ok p ->
  exists p',
    finish k stop p = Returns tt p' /\ pool_ok p' /\
    (pending p <= S (pending p'))%nat /\
    ((k < length (inflight p))%nat ->
     length (goroutines (proc p')) = length (goroutines (proc p)) /\
     length (inflight p') = (length (inflight p) - 1)%nat /\
     exists line, log (proc p') = log (proc p) ++ [line]).
Proof.
  intros Hok. unfold finish.
  destruct (inflight p !! k) as [[job start]|] eqn:Hk.
  - assert (Hlt : (k < length (inflight p))%nat)
      by (apply lookup_lt_is_Some; by eexists).
    destruct (ExecuteJob job (executor (proc p))) as [r ex'].
    destruct Hok as (Hs & Ha & Hp). unfold pending in Ha, Hp.
    destruct Hs as (Hch & Hwg & Hact & Hcap).
    unfold Release. destruct (ch (semaphore (proc p))) as [|n] eqn:Hn; [lia|].
    destruct (Z.ltb_spec (wg (semaphore (proc p)) - 1) 0); [lia|].
    destruct (Z.ltb_spec (pwg (proc p) - 1) 0); [lia|].
    eexists. split; [reflexivity|].
    unfold pool_ok, pending, consistent. cbn [proc inflight goroutines semaphore pwg log
                                               ch capacity active wg].
    rewrite length_delete by (by eexists).
    rewrite wrap_in_range by (unfold Go.in_range, Go.int_min, Go.int_max in *; lia).
    split; [repeat split; lia|]. split; [lia|]. intros _.
    split; [reflexivity|]. split; [lia|]. by eexists.
  - exists p. split; [reflexivity|]. split; [exact Hok|]. split; [lia|].
    intros Hlt. apply lookup_ge_None in Hk. lia.
Qed.

Lemma happen_ok h (p : @Pool E) :
  pool_ok p ->
  exists p',
    happen h p = Returns tt p' /\ pool_ok p' /\
    (pending p <= pending p' + (match h with Ends _ _ => 1 | Begins _ _ => 0 end))%nat.
Proof.
  intros Hok. destruct h as [i start|k stop]; cbn [happen].
  - destruct (begin_ok i start p Hok) as (Hok' & Hpend & _).
    eexists. split; [reflexivity|]. split; [exact Hok' | lia].
  - destruct (finish_ok k stop p Hok) as (p' & Hrun & Hok' & Hpend & _).
    exists p'. split; [exact Hrun|]. split; [exact Hok' | lia].
Qed.

Lemma wait_ok fire hs : forall last (p : @Pool E),
  pool_ok p ->
  exists last' p',
    wait fire hs last p = Returns last' p' /\ pool_ok p' /\
    (pending p
       <= pending p' + endings (List.filter (fun h => (instant h <=? fire)%Z) hs))%nat.
Proof.
  induction hs as [|h rest IH]; intros last p Hok; cbn [wait].
  - exists last, p. split; [reflexivity|]. split; [exact Hok | lia].
  - destruct (drained p).
    { exists last, p. split; [reflexivity|]. split; [exact Hok | lia]. }
    destruct (Z.ltb_spec fire (instant h)) as [Hlate|Hin].
    { exists last, p. split; [reflexivity|]. split; [exact Hok | lia]. }
    destruct (happen_ok h p Hok) as (p1 & -> & Hok1 & Hpend1).
    destruct (IH (Z.max last (instant h)) p1 Hok1) as (last' & p' & -> & Hok' & Hpend').
    exists last', p'. split; [reflexivity|]. split; [exact Hok'|].
    cbn [List.filter]. destruct (Z.leb_spec (instant h) fire); [|lia].
    unfold endings in *. destruct h; cbn [List.filter length]; lia.
Qed.

Lemma wait_ends_all fire hs : forall last (p : @Pool E),
  pool_ok p ->
  ends_all (length (goroutines (proc p))) (length (inflight p)) hs ->
  Forall (fun h => instant h <= fire) hs ->
  exists p' lines,
    wait fire hs last p = Returns (latest last hs) p' /\
    pool_ok p' /\ pending p' = O /\
    log (proc p') = log (proc p) ++ lines /\ length lines = length hs.
Proof.
  induction hs as [|h rest IH]; intros last p Hok Hall Hin; cbn [wait].
  - destruct Hall as [Hg Hf]. exists p, [].
    split; [reflexivity|]. split; [exact Hok|].
    split; [unfold pending; lia|]. by rewrite app_nil_r.
  - assert (Hpos : pending p <> O).
    { unfold pending. destruct h; cbn [ends_all] in Hall; lia. }
    destruct (drained p) eqn:Hd; [by apply (drained_pending p Hok) in Hd|].
    apply Forall_cons in Hin as [Hh Hin].
    destruct (Z.ltb_spec fire (instant h)); [lia|].
    destruct h as [i start|k stop]; cbn [happen ends_all instant] in *.
    + change (latest last (Begins i start :: rest)) with (latest (Z.max last start) rest).
      destruct Hall as [Hi Hall].
      destruct (begin_ok i start p Hok) as (Hok1 & _ & Hlen).
      destruct (Hlen Hi) as (Hg1 & Hf1 & line & Hl1).
      rewrite <- Hg1, <- Hf1 in Hall.
      destruct (IH (Z.max last start) _ Hok1 Hall Hin)
        as (p' & lines & -> & Hok' & Hpend & Hlog & Hlines).
      exists p', (line :: lines). split; [reflexivity|]. split; [exact Hok'|].
      split; [exact Hpend|]. rewrite Hlog, Hl1, <- app_assoc.
      split; [reflexivity | cbn; lia].
    + change (latest last (Ends k stop :: rest)) with (latest (Z.max last stop) rest).
      destruct Hall as [Hk Hall].
      destruct (finish_ok k stop p Hok) as (p1 & -> & Hok1 & _ & Hlen).
      destruct (Hlen Hk) as (Hg1 & Hf1 & line & Hl1).
      rewrite <- Hg1, <- Hf1 in Hall.
      destruct (IH (Z.max last stop) _ Hok1 Hall Hin)
        as (p' & lines & -> & Hok' & Hpend & Hlog & Hlines).
      exists p', (line :: lines). split; [reflexivity|]. split; [exact Hok'|].
      split; [exact Hpend|]. rewrite Hlog, Hl1, <- app_assoc.
      split; [reflexivity | cbn; lia].
Qed.

(** C10.  A [Shutdown] that finds the processor not running returns
    nil at once and leaves everything as it is: it does not look at
    the timeout, and no goroutine still in flight is waited for.  The
    first [Shutdown], on a running processor, flips it to not running,
    cancels the admission context and waits, and whatever it returns,
    every later [Shutdown] is of the first kind.  The wait is for the
    drain: nil is returned only when every goroutine that was pending
    has come to its end before the timer fired, and then nothing is
    pending and no job is active; and when the goroutines do all end
    before the timer fires, and [done] is closed before it, nil is
    what is returned, after their lines in the log.  The wait is up to
    the timeout: with a timeout of zero or below the timer has fired
    before [done] can be closed, and the timeout error is returned
    even with nothing to wait for; with nothing to wait for and [done]
    closed within a positive timeout, nil is returned.  The processor
    is taken between calls of [ProcessJob], each goroutine that has
    not ended holding its token and its count in the wait groups. *)
Theorem Shutdown_idempotent (timeout timeout' now now' : Z) (hs hs' : list happening)
    (wake wake' : N) (pick pick' : bool) (p : @Pool E) :
  let fire := if 0 <? timeout then Go.Add now timeout else now in
  (running (proc p) = false ->
     Shutdown timeout now hs wake pick p = Returns None p) /\
  (pool_ok p -> exists r p', Shutdown timeout now hs wake pick p = Returns r p') /\
  (forall r p',
      Shutdown timeout now hs wake pick p = Returns r p' ->
      running (proc p') = false /\
      Shutdown timeout' now' hs' wake' pick' p' = Returns None p') /\
  (pool_ok p -> running (proc p) = true ->
   forall r p',
      Shutdown timeout now hs wake pick p = Returns r p' ->
      ctx_done (proc p') = true /\
      (exists lines, log (proc p') = log (proc p) ++ LogShutdownInit timeout :: lines) /\
      (r = None \/ r = Some ErrShutdownTimeout) /\
      (r = None ->
         pending p' = O /\ ActiveJobs (proc p') = 0 /\
         (pending p <= endings (List.filter (fun h => (instant h <=? fire)%Z) hs))%nat) /\
      (timeout <= 0 -> (0 < wake)%N -> r = Some ErrShutdownTimeout) /\
      (pending p = O -> 0 < timeout -> Z.of_N wake < timeout -> r = None) /\
      (ends_all (length (goroutines (proc p))) (length (inflight p)) hs ->
       Forall (fun h => instant h <= fire) hs ->
       latest now hs + Z.of_N wake < fire ->
       r = None /\
       exists lines,
         log (proc p')
           = log (proc p) ++ LogShutdownInit timeout :: lines ++ [LogShutdownDone] /\
         length lines = length hs)).
Proof.
  intros fire.
  assert (Hidle : forall t n h w k (q : @Pool E),
             running (proc q) = false -> Shutdown t n h w k q = Returns None q).
  { intros t n h w k q Hq. unfold Shutdown. by rewrite Hq. }
  set (p0 := {| proc := {| semaphore := semaphore (proc p); ctx_done := true;
                           pwg := pwg (proc p); running := false;
                           goroutines := goroutines (proc p);
                           executor := executor (proc p);
                           log := log (proc p) ++ [LogShutdownInit timeout] |};
                inflight := inflight p |}).
  assert (Hok0 : pool_ok p -> pool_ok p0).
  { intros (Hs & Ha & Hp). exact (conj Hs (conj Ha Hp)). }
  split; [apply Hidle|]. split; [|split].
  - intros Hok. unfold Shutdown. destruct (running (proc p)); cbn [negb]; [|by eexists _, _].
    fold p0. fold fire.
    destruct (wait_ok fire hs now p0 (Hok0 Hok)) as (last & pw & -> & _).
    destruct (drained pw && _); by eexists _, _.
  - intros r p'. unfold Shutdown. destruct (running (proc p)) eqn:Hr; cbn [negb].
    + fold p0. fold fire.
      destruct (wait fire hs now p0) as [last pw| |] eqn:Hw; try discriminate.
      destruct (wait_flags _ _ _ _ _ _ Hw) as (Hr1 & _).
      assert (Hstop : running (proc pw) = false) by exact Hr1.
      destruct (drained pw && _); intros Heq; injection Heq as <- <-;
        (split; [exact Hstop | by apply Hidle]).
    + intros Heq. injection Heq as <- <-. split; [exact Hr | by apply Hidle].
  - intros Hok Hr r p'. unfold Shutdown. rewrite Hr. cbn [negb]. fold p0. fold fire.
    destruct (wait_ok fire hs now p0 (Hok0 Hok)) as (last & pw & Hw & Hokw & Hcount).
    rewrite Hw.
    destruct (wait_flags _ _ _ _ _ _ Hw) as (_ & Hc1 & Hlast & lines & Hl1).
    cbn [proc p0 ctx_done log] in Hc1, Hl1.
    assert (Hpend0 : pending p0 = pending p) by reflexivity.
    assert (Hall : ends_all (length (goroutines (proc p))) (length (inflight p)) hs ->
              Forall (fun h => instant h <= fire) hs ->
              last = latest now hs /\ drained pw = true /\
              exists lines', lines = lines' /\ length lines' = length hs).
    { intros Hends Hin.
      destruct (wait_ends_all fire hs now p0 (Hok0 Hok) Hends Hin)
        as (pw' & lines' & Hw' & Hokw' & Hpend' & Hlog' & Hlen').
      rewrite Hw in Hw'. injection Hw' as -> <-.
      split; [reflexivity|]. split; [by apply drained_pending|].
      exists lines'. split; [|exact Hlen'].
      rewrite Hl1 in Hlog'. by apply app_inv_head in Hlog'. }
    destruct (drained pw) eqn:Hd; cbn [andb].
    + apply (drained_pending pw Hokw) in Hd.
      destruct ((last + Z.of_N wake <? fire)
                || (last + Z.of_N wake =? fire) && pick) eqn:Hsel;
        intros Heq; injection Heq as <- <-; cbn [with_pool_log proc inflight].
      * split; [exact Hc1|]. split.
        { exists (lines ++ [LogShutdownDone]). cbn [with_log log].
          by rewrite Hl1, <- !app_assoc. }
        split; [by left|]. split.
        { intros _. split; [exact Hd|]. split; [|lia].
          unfold ActiveJobs, ActiveCount. cbn [with_log semaphore].
          destruct Hokw as (_ & Ha & _). rewrite Ha, Hd. reflexivity. }
        split.
        { intros Hneg Hwake. exfalso. subst fire.
          destruct (Z.ltb_spec 0 timeout); [lia|].
          apply orb_true_iff in Hsel as [Hlt|Heq].
          - apply Z.ltb_lt in Hlt. lia.
          - apply andb_true_iff in Heq as [Heq _]. apply Z.eqb_eq in Heq. lia. }
        split; [reflexivity|].
        intros Hends Hin Hsoon. split; [reflexivity|].
        destruct (Hall Hends Hin) as (_ & _ & lines' & <- & Hlen).
        exists lines. split; [|exact Hlen]. cbn [with_log log].
        by rewrite Hl1, <- !app_assoc.
      * split; [exact Hc1|]. split.
        { exists (lines ++ [LogShutdownTimeout timeout]). cbn [with_log log].
          by rewrite Hl1, <- !app_assoc. }
        split; [by right|]. split; [discriminate|]. split; [reflexivity|].
        apply orb_false_iff in Hsel as [Hlt Heq]. apply Z.ltb_ge in Hlt.
        split.
        { intros Hnone Hpos Hwake. exfalso.
          assert (Hd0 : drained p0 = true) by (apply (drained_pending p0 (Hok0 Hok)); lia).
          assert (Hlast0 : last = now).
          { destruct hs as [|h rest]; cbn [wait] in Hw.
            - by injection Hw as <- _.
            - rewrite Hd0 in Hw. by injection Hw as <- _. }
          subst fire. destruct (Z.ltb_spec 0 timeout); [|lia]. unfold Go.Add in *. lia. }
        intros Hends Hin Hsoon. exfalso.
        destruct (Hall Hends Hin) as (-> & _). lia.
    + intros Heq. injection Heq as <- <-. cbn [with_pool_log proc inflight].
      split; [exact Hc1|]. split.
      { exists (lines ++ [LogShutdownTimeout timeout]). cbn [with_log log].
        by rewrite Hl1, <- !app_assoc. }
      split; [by right|]. split; [discriminate|]. split; [reflexivity|].
      split.
      { intros Hnone Hpos Hwake. exfalso.
        assert (Hd0 : drained p0 = true) by (apply (drained_pending p0 (Hok0 Hok)); lia).
        destruct hs as [|h rest]; cbn [wait] in Hw.
        - injection Hw as _ <-. congruence.
        - rewrite Hd0 in Hw. injection Hw as _ <-. congruence. }
      intros Hends Hin Hsoon. exfalso.
      destruct (Hall Hends Hin) as (_ & Hd' & _). congruence.
Qed.

End ShutdownFacts.

(** C1, at a concrete input: the one job of [ExampleWorlds.submitted],
    with the executor down. *)
Lemma failed_job_is_only_logged_witness :
  exists w',
    @worker.run_goroutine unit Examples.down 0 1 ExampleWorlds.submitted
      = concurrency.Returns tt w' /\
    worker.redisClient w' = worker.redisClient ExampleWorlds.submitted /\
    concurrency.goroutines (worker.processor w') = [] /\
    concurrency.ActiveJobs (worker.processor w') = 0.
Proof.
  destruct (@failed_job_is_only_logged unit Examples.down 0 1 ExampleWorlds.submitted
              (Examples.job_of "j1") [])
    as (w' & Hrun & Hstore & _ & _ & _ & _ & Hrest & Hact).
  - unfold ProcessorRuns.processor_ok, SemaphoreRuns.consistent.
    repeat split; vm_compute; congruence.
  - reflexivity.
  - exact I.
  - exists w'. split; [exact Hrun|]. split; [exact Hstore|]. split; [exact Hrest|].
    rewrite Hact. reflexivity.
Defined.

(** C1 as stated fails: a job is pushed, polled and submitted, the
    executor call ends in a transport error, and once its goroutine has
    ended the job is in no goroutine, in no queue, not in [schedule] and
    not in [dead]; all there is of it is two log lines. *)
Lemma failed_job_discarded_counterexample :
  exists w1 w2,
    @worker.iteration unit Examples.codec false true ["default"] 0
      ExampleWorlds.fresh = worker.Again w1 [] /\
    concurrency.goroutines (worker.processor w1) = [Examples.job_of "j1"] /\
    @worker.run_goroutine unit Examples.down 0 1 w1 = concurrency.Returns tt w2 /\
    concurrency.goroutines (worker.processor w2) = [] /\
    redis.lrange "queue:default" (worker.redisClient w2) = [] /\
    redis.zrange "schedule" (worker.redisClient w2) = [] /\
    redis.zrange "dead" (worker.redisClient w2) = [] /\
    concurrency.log (worker.processor w2)
      = [concurrency.LogStarting "j1" "HardWorkJob";
         concurrency.LogFailedErr "j1" "HardWorkJob"
           (Go.Errorf "connection refused" [] None) 1].
Proof.
  do 2 eexists. repeat split; reflexivity.
Qed.

(** C9, at a concrete input: a turn of the loop against a processor
    that was shut down. *)
Lemma submit_error_loses_job_witness :
  exists st,
    @worker.iteration unit Examples.codec false true ["default"] 0
      ExampleWorlds.stopped
      = worker.Again {| worker.redisClient := st;
                        worker.processor := worker.processor ExampleWorlds.stopped;
                        worker.output := [worker.LogSubmitError concurrency.ErrShuttingDown] |}
                     [] /\
    redis.lrange "queue:default" st = [] /\
    redis.zsets st = redis.zsets (worker.redisClient ExampleWorlds.stopped).
Proof.
  eexists.
  destruct (@submit_error_loses_job unit Examples.codec true ["default"] 0
              ExampleWorlds.stopped (Examples.job_of "j1") _ concurrency.ErrShuttingDown
              (worker.processor ExampleWorlds.stopped) eq_refl eq_refl)
    as (Hturn & _ & Hz & _).
  split; [exact Hturn|]. split; [reflexivity | exact Hz].
Defined.

(** C10, at a concrete input: a processor with one job submitted is
    shut down with thirty seconds' grace at instant 100; the job's
    goroutine begins at 150 and ends at 200, and [done] is closed 10
    later.  A second [Shutdown], with no grace at all, changes
    nothing. *)
Lemma Shutdown_idempotent_witness :
  let p := concurrency.at_rest (worker.processor ExampleWorlds.submitted) in
  exists p',
    @concurrency.Shutdown unit Examples.down (30 * Go.Second) 100
      [concurrency.Begins 0 150; concurrency.Ends 0 200] 10 false p
      = concurrency.Returns None p' /\
    Lifecycle.pending p = 1%nat /\ Lifecycle.pending p' = 0%nat /\
    concurrency.ActiveJobs (concurrency.proc p') = 0 /\
    concurrency.running (concurrency.proc p') = false /\
    concurrency.ctx_done (concurrency.proc p') = true /\
    concurrency.log (concurrency.proc p')
      = [concurrency.LogShutdownInit (30 * Go.Second);
         concurrency.LogStarting "j1" "HardWorkJob";
         concurrency.LogFailedErr "j1" "HardWorkJob"
           (Go.Errorf "connection refused" [] None) 50;
         concurrency.LogShutdownDone] /\
    @concurrency.Shutdown unit Examples.down 0 0 [] 0 true p'
      = concurrency.Returns None p'.
Proof.
  intros p.
  assert (Hok : Lifecycle.pool_ok p).
  { unfold Lifecycle.pool_ok, SemaphoreRuns.consistent. vm_compute.
    repeat split; discriminate. }
  assert (Hon : concurrency.running (concurrency.proc p) = true) by (vm_compute; reflexivity).
  destruct (@Shutdown_idempotent unit Examples.down (30 * Go.Second) 0 100 0
              [concurrency.Begins 0 150; concurrency.Ends 0 200] [] 10 0 false true p)
    as (_ & Hret & Hlater & Hrun).
  destruct (Hret Hok) as (r & p' & Hs).
  destruct (Hlater _ _ Hs) as [Hstop Hagain].
  destruct (Hrun Hok Hon _ _ Hs) as (Hctx & _ & _ & Hnone & _ & _ & _).
  assert (Hr : r = None).
  { vm_compute in Hs. by injection Hs as <- _. }
  destruct (Hnone Hr) as (Hpend & Hact & _).
  exists p'. subst r.
  split; [exact Hs|]. split; [vm_compute; reflexivity|]. split; [exact Hpend|].
  split; [exact Hact|]. split; [exact Hstop|]. split; [exact Hctx|].
  split; [|exact Hagain].
  vm_compute in Hs. injection Hs as <-. vm_compute. reflexivity.
Defined.


(** C8, at a concrete input: the job of the examples, whose second
    argument is the number 2, and the float64 nearest to a million and
    a quarter, which is written in the exponent form. *)
Lemma build_request_args_witness :
  sidecar.rq_Args (sidecar.build_request (Examples.job_of "j1")) = ["User"; "2"] /\
  valid_binary 53 1024 (S754_finite true 5368709120000000 (-32)) = true /\
  sidecar.Sprintf_v (job.VNumber (S754_finite true 5368709120000000 (-32)))
    = "-1.25e+06" /\
  strconv.shortest 5368709120000000 (-32) = (125, 4) /\
  (forall c' k',
      strconv.reads_back 5368709120000000 (-32) (strconv.decimal c' k') = true ->
      (3 <= length (strconv.digits c'))%nat) /\
  option_map strconv.nearest (strconv.read "-1.25e+06")
    = Some (S754_finite true 5368709120000000 (-32)).
Proof.
  destruct (build_request_args (Examples.job_of "j1"))
    as (_ & _ & _ & _ & Hnumber & _).
  destruct (Hnumber true 5368709120000000%positive (-32) eq_refl)
    as (c & k & q & Hshort & _ & _ & _ & _ & _ & Hfew).
  assert (Hck : strconv.shortest 5368709120000000 (-32) = (125, 4))
    by (vm_compute; reflexivity).
  rewrite Hck in Hshort. injection Hshort as <- <-.
  split; [vm_compute; reflexivity|]. split; [reflexivity|].
  split; [vm_compute; reflexivity|]. split; [exact Hck|].
  split; [exact Hfew | vm_compute; reflexivity].
Defined.

(** [%v] on some float64s, and the float64 nearest to what was
    written. *)
Lemma Sprintf_v_numbers :
  map (fun q => sidecar.Sprintf_v (job.VNumber (strconv.nearest q)))
      [1 # 10; 1 # 3; 5 # 2; 100000 # 1; 1000000 # 1; 1234567 # 1; 1 # 10000;
       1 # 100000; 123456789 # 1000; 9007199254740993 # 1;
       (100000000000000000000000 # 1)%Q]
    = ["0.1"; "0.3333333333333333"; "2.5"; "100000"; "1e+06"; "1.234567e+06";
       "0.0001"; "1e-05"; "123456.789"; "9.007199254740992e+15"; "1e+23"] /\
  Forall (fun q => option_map strconv.nearest
                     (strconv.read (strconv.FormatFloat (strconv.nearest q)))
                   = Some (strconv.nearest q))
         [1 # 10; 1 # 3; 5 # 2; 100000 # 1; 1000000 # 1; 1234567 # 1; 1 # 10000;
          1 # 100000; 123456789 # 1000; 9007199254740993 # 1;
          (100000000000000000000000 # 1)%Q] /\
  strconv.FormatFloat (S754_finite false 1 (-1074)) = "5e-324" /\
  strconv.FormatFloat (S754_finite false 9007199254740991 971)
    = "1.7976931348623157e+308" /\
  strconv.FormatFloat (S754_zero true) = "-0".
Proof.
  split; [vm_compute; reflexivity|]. split; [|vm_compute; by repeat split].
  repeat constructor; vm_compute; reflexivity.
Qed.

(** * Further properties of the store adapter *)

Section PollingMore.
Import job redis.
Context `{JSON}.

Lemma BLPop_scan timeout keys st :
  wire st = [] -> keys <> [] ->
  BLPop timeout keys st
    = match blpop_scan keys st with
      | Some (key, v, st'') => (Reply [key; v], st'')
      | None => (Nil, st)
      end.
Proof.
  intros Hw Hne. unfold BLPop. rewrite (send_healthy _ Hw).
  destruct keys; [congruence | reflexivity].
Qed.

Lemma blpop_scan_none keys st :
  (forall k, In k keys -> lrange k st = []) -> blpop_scan keys st = None.
Proof.
  induction keys as [|k ks IH]; intros Hempty; simpl; [reflexivity|].
  rewrite (Hempty k) by (by left). apply IH. intros k' Hk'. apply Hempty. by right.
Qed.

Lemma blpop_scan_skip before key rest st :
  (forall k, In k before -> lrange k st = []) ->
  blpop_scan (before ++ key :: rest) st = blpop_scan (key :: rest) st.
Proof.
  induction before as [|k ks IH]; intros Hempty; [reflexivity|].
  change ((k :: ks) ++ key :: rest) with (k :: (ks ++ key :: rest)).
  cbn [blpop_scan]. rewrite (Hempty k) by (by left).
  apply IH. intros k' Hk'. apply Hempty. by right.
Qed.

(** X1.  With a healthy connection and nothing waiting on any of the
    queues polled, [PollJobs] returns no job and no error and leaves
    the store as it is; polling with an empty list of queue names is
    an error of the server, not an idle poll. *)
Theorem PollJobs_idle (queues : list string) (st : Store) :
  wire st = [] ->
  (forall queue, In queue queues -> lrange (Client.queue_key queue) st = []) ->
  (queues <> [] -> Client.PollJobs queues st = (inl None, st)) /\
  (queues = [] -> exists err, Client.PollJobs queues st = (inr err, st)).
Proof.
  intros Hw Hempty. split.
  - intros Hne. unfold Client.PollJobs.
    rewrite (BLPop_scan _ _ _ Hw) by (destruct queues; [congruence | discriminate]).
    rewrite blpop_scan_none; [reflexivity|].
    intros k Hk. apply in_map_iff in Hk as (queue & <- & Hq). by apply Hempty.
  - intros ->. unfold Client.PollJobs, BLPop. rewrite (send_healthy _ Hw). simpl.
    by eexists.
Qed.

Lemma PollJobs_first_nonempty before after queue payload tl st :
  wire st = [] ->
  (forall q, In q before -> lrange (Client.queue_key q) st = []) ->
  lrange (Client.queue_key queue) st = payload :: tl ->
  Client.PollJobs (before ++ queue :: after) st
    = (match Unmarshal payload with
       | Some j => inl (Some j)
       | None => inr (Go.Errorf "failed to unmarshal job JSON: %w" [] (Some Client.ErrJSON))
       end,
       set_list (Client.queue_key queue) tl st).
Proof.
  intros Hw Hempty Hhead. unfold Client.PollJobs.
  rewrite (BLPop_scan _ _ _ Hw) by (destruct before; discriminate).
  rewrite map_app. cbn [map]. rewrite blpop_scan_skip.
  2:{ intros k Hk. apply in_map_iff in Hk as (q & <- & Hq). by apply Hempty. }
  cbn [blpop_scan]. rewrite Hhead.
  destruct (Unmarshal payload); reflexivity.
Qed.

Lemma PollJobs_zsets queues st :
  zsets (snd (Client.PollJobs queues st)) = zsets st.
Proof.
  unfold Client.PollJobs, BLPop.
  pose proof (proj2 (send_keeps st)) as Hz.
  destruct (send st) as [[|] st1]; cbn [snd] in Hz; [|exact Hz].
  destruct (map Client.queue_key queues) as [|k ks] eqn:Hkeys; [exact Hz|].
  rewrite <- Hkeys.
  destruct (blpop_scan (map Client.queue_key queues) st1) as [[[key v] st2]|] eqn:Hscan;
    [|exact Hz].
  destruct (blpop_scan_some _ _ _ _ _ Hscan) as (_ & tl & _ & ->).
  destruct (Unmarshal v); exact Hz.
Qed.

(** X2.  Queue priority: the queues are served in the order they are
    listed.  When every queue listed before [queue] is empty and
    [queue] is not, the poll takes the head of [queue], whatever waits
    on the queues listed after it; no other list changes and no sorted
    set does.  A head that does not decode is taken all the same and
    an error returned in its place. *)
Theorem PollJobs_queue_priority (before after : list string) (queue payload : string)
    (tl : list string) (st : Store) :
  wire st = [] ->
  (forall q, In q before -> lrange (Client.queue_key q) st = []) ->
  lrange (Client.queue_key queue) st = payload :: tl ->
  let '(r, st') := Client.PollJobs (before ++ queue :: after) st in
  r = match Unmarshal payload with
      | Some j => inl (Some j)
      | None => inr (Go.Errorf "failed to unmarshal job JSON: %w" [] (Some Client.ErrJSON))
      end /\
  lrange (Client.queue_key queue) st' = tl /\
  (forall key, key <> Client.queue_key queue -> lrange key st' = lrange key st) /\
  zsets st' = zsets st.
Proof.
  intros Hw Hempty Hhead.
  rewrite (PollJobs_first_nonempty before after queue payload tl st Hw Hempty Hhead).
  split; [reflexivity|]. split; [apply lrange_set_list|]. split; [|reflexivity].
  intros key Hne. by apply lrange_set_list_ne.
Qed.

(** X3.  What a poll can do to the store, on any connection and for
    any queues: it never writes to a sorted set; it removes the head of
    at most one of the lists polled and adds nothing.  When it returns
    a job, the job is the decoded head it removed; when it returns
    nothing, all lists are as before; when it returns an error, either
    all lists are as before or the head it removed did not decode, and
    that payload is in no collection any more. *)
Theorem PollJobs_frame (queues : list string) (st : Store) :
  let '(r, st') := Client.PollJobs queues st in
  zsets st' = zsets st /\
  match r with
  | inl None => lists st' = lists st
  | inl (Some j) =>
      exists queue payload tl,
        In queue queues /\
        lrange (Client.queue_key queue) st = payload :: tl /\
        Unmarshal payload = Some j /\
        lists st' = lists (set_list (Client.queue_key queue) tl st)
  | inr err =>
      lists st' = lists st \/
      exists queue payload tl,
        In queue queues /\
        lrange (Client.queue_key queue) st = payload :: tl /\
        Unmarshal payload = None /\
        lists st' = lists (set_list (Client.queue_key queue) tl st)
  end.
Proof.
  unfold Client.PollJobs, BLPop.
  destruct (send_keeps st) as [Hl Hz].
  destruct (send st) as [[|] st1]; simpl in Hl, Hz; [|by split; [|left]].
  destruct (map Client.queue_key queues) as [|k ks] eqn:Hkeys; [by split; [|left]|].
  rewrite <- Hkeys.
  destruct (blpop_scan (map Client.queue_key queues) st1) as [[[key v] st2]|] eqn:Hscan;
    [|by split].
  destruct (blpop_scan_some _ _ _ _ _ Hscan) as (Hin & tl & Hhead & ->).
  apply in_map_iff in Hin as (queue & <- & Hq).
  assert (Hhead' : lrange (Client.queue_key queue) st = v :: tl)
    by (unfold lrange in *; by rewrite <- Hl).
  assert (Hlists : lists (set_list (Client.queue_key queue) tl st1)
                   = lists (set_list (Client.queue_key queue) tl st))
    by (unfold set_list; simpl; by rewrite Hl).
  destruct (Unmarshal v) as [j|] eqn:Hdec; (split; [exact Hz|]).
  - by exists queue, v, tl.
  - right. by exists queue, v, tl.
Qed.

End PollingMore.

(** X1, at a concrete input: two queues, both empty. *)
Lemma PollJobs_idle_witness :
  @Client.PollJobs Examples.codec ["critical"; "default"] Examples.empty_store
    = (inl None, Examples.empty_store).
Proof.
  refine (proj1 (@PollJobs_idle Examples.codec ["critical"; "default"] Examples.empty_store
                   eq_refl _) _).
  - intros queue _. reflexivity.
  - discriminate.
Defined.

(** X2, at a concrete input: [critical] is empty, [default] holds two
    jobs and [low] one. *)
Lemma PollJobs_queue_priority_witness :
  let st := Runs.produce "low" ["c"] (Runs.produce "default" ["a"; "b"] Examples.empty_store) in
  fst (@Client.PollJobs Examples.codec (["critical"] ++ "default" :: ["low"]) st)
    = inl (Some (Examples.job_of "b")).
Proof.
  intros st.
  pose proof (@PollJobs_queue_priority Examples.codec ["critical"] ["low"] "default" "b" ["a"] st
                eq_refl) as Hp.
  destruct (@Client.PollJobs Examples.codec (["critical"] ++ "default" :: ["low"]) st)
    as [r st'].
  refine (proj1 (Hp _ _)).
  - intros q [<-|[]]. reflexivity.
  - reflexivity.
Defined.

(** ** Faults between the adapter and the store *)

Section Faults.
Import job redis.
Context `{JSON}.

Lemma send_fault st w :
  wire st = false :: w ->
  send st = (false, {| wire := w; lists := lists st; zsets := zsets st |}).
Proof. unfold send. intros ->. reflexivity. Qed.

Lemma send_through st w :
  wire st = true :: w ->
  send st = (true, {| wire := w; lists := lists st; zsets := zsets st |}).
Proof. unfold send. intros ->. reflexivity. Qed.

Lemma length_zinsert e z : length (zinsert e z) = S (length z).
Proof.
  induction z as [|x tl IH]; simpl; [reflexivity|].
  destruct (entry_ltb e x); simpl; [reflexivity | by rewrite IH].
Qed.

(** X4.  When the command of [EnqueueRetry] does not reach the store,
    the call returns the error and nothing is stored, in the schedule
    or on the queue; but the caller's record has been changed all the
    same: its retry count is already one up and [failed_at] is set.  A
    caller that answers the error by calling again with the same
    record stores it with the count two up. *)
Theorem EnqueueRetry_fault_keeps_increment (t1 t2 t3 t4 : Z) (j : SidekiqJob) (delay : Z)
    (st : Store) :
  wire st = [false] ->
  let '(j', err, st') := Client.EnqueueRetry t1 t2 j delay st in
  err = Some (Go.Errorf (if 0 <? delay then "failed to schedule retry job: %w"
                         else "failed to enqueue retry job: %w") []
                (Some ErrTransport)) /\
  lists st' = lists st /\ zsets st' = zsets st /\
  Retry j' = Go.wrap (Retry j + 1) /\
  FailedAt j' = Go.float64 (Go.Unix t1) /\
  let '(j'', err', st'') := Client.EnqueueRetry t3 t4 j' delay st' in
  err' = None /\
  Retry j'' = Go.wrap (Go.wrap (Retry j + 1) + 1) /\
  (Go.int_min <= Retry j < Go.int_max - 1 -> Retry j'' = Retry j + 2) /\
  (0 < delay -> In (Go.float64 (Go.Unix (Go.Add t4 delay)), Marshal j'')
                   (zrange "schedule" st'')) /\
  (delay <= 0 -> exists tl, lrange (Client.queue_key (Queue j)) st'' = Marshal j'' :: tl).
Proof.
  intros Hw. unfold Client.EnqueueRetry.
  destruct (0 <? delay) eqn:Hd.
  - unfold ZAdd at 1. rewrite (send_fault _ _ Hw).
    split; [reflexivity|]. split; [reflexivity|]. split; [reflexivity|].
    split; [reflexivity|]. split; [reflexivity|].
    unfold ZAdd. rewrite send_healthy by reflexivity.
    split; [reflexivity|]. split; [reflexivity|]. split.
    + intros Hr. simpl. rewrite (wrap_in_range (Retry j + 1)) by (unfold Go.in_range; lia).
      rewrite wrap_in_range; [lia | unfold Go.in_range; lia].
    + split; [|intros; lia]. intros _. rewrite zrange_set_zset. apply In_zinsert.
  - unfold LPush at 1. rewrite (send_fault _ _ Hw).
    split; [reflexivity|]. split; [reflexivity|]. split; [reflexivity|].
    split; [reflexivity|]. split; [reflexivity|].
    unfold LPush. rewrite send_healthy by reflexivity.
    split; [reflexivity|]. split; [reflexivity|]. split.
    + intros Hr. simpl. rewrite (wrap_in_range (Retry j + 1)) by (unfold Go.in_range; lia).
      rewrite wrap_in_range; [lia | unfold Go.in_range; lia].
    + split; [intros; lia|]. intros _. rewrite lrange_set_list. by eexists.
Qed.

(** X5.  When the ZADD of [MoveToDLQ] does not reach the store, the
    call returns the error, the trim is not sent, and the store holds
    what it held: the job is not in the dead set. *)
Theorem MoveToDLQ_add_fault (t1 t2 : Z) (j : SidekiqJob) (st : Store) (w : list bool) :
  wire st = false :: w ->
  let '(j', err, st', warnings) := Client.MoveToDLQ t1 t2 j st in
  err = Some (Go.Errorf "failed to move job to dead letter queue: %w" []
                (Some ErrTransport)) /\
  warnings = [] /\
  wire st' = w /\ lists st' = lists st /\ zsets st' = zsets st /\
  FailedAt j' = Go.float64 (Go.Unix t1).
Proof.
  intros Hw. unfold Client.MoveToDLQ, ZAdd. rewrite (send_fault _ _ Hw).
  by repeat split.
Qed.

(** X6.  When the ZADD of [MoveToDLQ] goes through and the trim does
    not, the call returns no error: the failure is only printed.  The
    job is in the dead set, and the set is left untrimmed, one entry
    longer than it was without this member, whatever its size. *)
Theorem MoveToDLQ_trim_fault_swallowed (t1 t2 : Z) (j : SidekiqJob) (st : Store)
    (w : list bool) :
  wire st = true :: false :: w ->
  let '(j', err, st', warnings) := Client.MoveToDLQ t1 t2 j st in
  let member := Marshal j' in
  err = None /\
  warnings = [Go.Errorf "Warning: failed to trim dead letter queue: %v" []
                (Some ErrTransport)] /\
  zrange "dead" st'
    = zinsert (Go.float64 (Go.Unix t2), member) (zremove member (zrange "dead" st)) /\
  length (zrange "dead" st') = S (length (zremove member (zrange "dead" st))) /\
  lists st' = lists st.
Proof.
  intros Hw. unfold Client.MoveToDLQ, ZAdd. rewrite (send_through _ _ Hw).
  cbn zeta. unfold ZRemRangeByRank.
  rewrite (send_fault _ w) by (destruct (zinsert _ _); reflexivity).
  assert (Hz : forall z (s : Store), zrange "dead"
             {| wire := w; lists := lists (set_zset "dead" z s);
                zsets := zsets (set_zset "dead" z s) |} = z).
  { intros z s. exact (zrange_set_zset "dead" z s). }
  repeat split.
  - apply Hz.
  - rewrite Hz. apply length_zinsert.
Qed.

End Faults.

(** X4, at a concrete input: a retry with a delay, the first call cut
    off. *)
Lemma EnqueueRetry_fault_keeps_increment_witness :
  let st := {| redis.wire := [false]; redis.lists := ∅; redis.zsets := ∅ |} in
  let first := @Client.EnqueueRetry Examples.codec 0 0 (Examples.job_of "j1") Go.Second st in
  let again := @Client.EnqueueRetry Examples.codec 0 0 (fst (fst first)) Go.Second (snd first) in
  redis.zsets (snd first) = ∅ /\ job.Retry (fst (fst first)) = 1 /\
  job.Retry (fst (fst again)) = 2.
Proof.
  intros st. cbv zeta.
  generalize (@EnqueueRetry_fault_keeps_increment Examples.codec 0 0 0 0
                (Examples.job_of "j1") Go.Second st eq_refl).
  destruct (@Client.EnqueueRetry Examples.codec 0 0 (Examples.job_of "j1") Go.Second st)
    as [[j' err] st'].
  intros (_ & _ & Hz & Hr & _ & Hagain). revert Hagain. cbn [fst snd].
  destruct (@Client.EnqueueRetry Examples.codec 0 0 j' Go.Second st') as [[j'' err'] st''].
  intros (_ & _ & Hr2 & _). cbn [fst snd].
  split; [exact Hz|]. split; [exact Hr|]. apply Hr2. vm_compute. by split.
Defined.

(** X5, at a concrete input. *)
Lemma MoveToDLQ_add_fault_witness :
  let st := {| redis.wire := [false]; redis.lists := ∅; redis.zsets := ∅ |} in
  let run := @Client.MoveToDLQ Examples.codec 0 0 (Examples.job_of "j1") st in
  is_Some (snd (fst (fst run))) /\ redis.zsets (snd (fst run)) = ∅.
Proof.
  intros st. cbv zeta.
  generalize (@MoveToDLQ_add_fault Examples.codec 0 0 (Examples.job_of "j1") st [] eq_refl).
  destruct (@Client.MoveToDLQ Examples.codec 0 0 (Examples.job_of "j1") st)
    as [[[j' err] st'] warnings].
  intros (-> & _ & _ & _ & Hz & _). split; [by eexists | exact Hz].
Defined.

(** X6, at a concrete input. *)
Lemma MoveToDLQ_trim_fault_swallowed_witness :
  let st := {| redis.wire := [true; false]; redis.lists := ∅; redis.zsets := ∅ |} in
  let run := @Client.MoveToDLQ Examples.codec 0 0 (Examples.job_of "j1") st in
  snd (fst (fst run)) = None /\ length (snd run) = 1%nat /\
  length (redis.zrange "dead" (snd (fst run))) = 1%nat.
Proof.
  intros st. cbv zeta.
  generalize (@MoveToDLQ_trim_fault_swallowed Examples.codec 0 0 (Examples.job_of "j1") st []
                eq_refl).
  destruct (@Client.MoveToDLQ Examples.codec 0 0 (Examples.job_of "j1") st)
    as [[[j' err] st'] warnings].
  intros (-> & -> & _ & Hlen & _). split; [reflexivity|]. split; [reflexivity|].
  exact Hlen.
Defined.

(** ** The sorted sets stay well formed *)

Section WellFormed.
Import job redis Rank Sweep.
Context `{JSON}.

Lemma zrange_set_zset_ne key key' z st :
  key <> key' -> zrange key' (set_zset key z st) = zrange key' st.
Proof.
  intros Hne. unfold zrange, set_zset; simpl. destruct z.
  - by rewrite lookup_delete_ne.
  - by rewrite lookup_insert_ne.
Qed.

Lemma zinsert_perm e z : zinsert e z ≡ₚ e :: z.
Proof.
  induction z as [|x tl IH]; simpl; [reflexivity|].
  destruct (entry_ltb e x); [reflexivity|].
  rewrite IH. apply Permutation_swap.
Qed.

Lemma zremove_members member z :
  map snd (zremove member z) = filter (fun m => m <> member) (map snd z).
Proof.
  unfold zremove. induction z as [|x tl IH]; [reflexivity|].
  cbn [map]. rewrite !filter_cons.
  destruct (decide (snd x <> member)); cbn [map]; by rewrite IH.
Qed.

Lemma zremove_gone member z : ~ In member (map snd (zremove member z)).
Proof.
  rewrite zremove_members. intros Hin. apply list_elem_of_In in Hin.
  apply list_elem_of_filter in Hin as [Hne _]. by apply Hne.
Qed.

Lemma ranked_sublist (k z : list (Q * string)) : sublist k z -> ranked z -> ranked k.
Proof.
  unfold ranked. induction 1 as [|x k z Hs IH|x k z Hs IH]; intros Hr.
  - constructor.
  - apply StronglySorted_inv in Hr as [Hr Hall]. constructor; [by apply IH|].
    apply Forall_forall. intros y Hy.
    apply (proj1 (Forall_forall _ _) Hall). eapply elem_of_sublist; eassumption.
  - apply StronglySorted_inv in Hr as [Hr _]. by apply IH.
Qed.

Lemma sublist_zremrange start stop z : sublist (zremrange start stop z) z.
Proof.
  unfold zremrange. cbv zeta.
  set (llen := Z.of_nat (length z)).
  set (s1 := if start <? 0 then llen + start else start).
  set (e1 := if stop <? 0 then llen + stop else stop).
  set (s2 := if s1 <? 0 then 0 else s1).
  destruct ((e1 <? s2) || (llen <=? s2)) eqn:Hc; [reflexivity|].
  apply orb_false_iff in Hc as [Hc1 Hc2].
  apply Z.ltb_ge in Hc1. apply Z.leb_gt in Hc2.
  set (e2 := if llen <=? e1 then llen - 1 else e1).
  assert (H0 : 0 <= s2) by (unfold s2; destruct (Z.ltb_spec s1 0); lia).
  assert (Hab : (Z.to_nat s2 <= Z.to_nat (e2 + 1))%nat)
    by (unfold e2; destruct (Z.leb_spec llen e1); lia).
  revert Hab. generalize (Z.to_nat s2) (Z.to_nat (e2 + 1)). intros a b Hab.
  rewrite <- (take_drop a z) at 3.
  apply sublist_app; [reflexivity|].
  replace b with (a + (b - a))%nat by lia. rewrite <- drop_drop. apply sublist_drop.
Qed.

Lemma zset_ok_nil : zset_ok [].
Proof. split; constructor. Qed.

Lemma zset_ok_zadd score member z :
  zset_ok z -> zset_ok (zinsert (score, member) (zremove member z)).
Proof.
  intros [Hr Hnd]. split.
  - apply zinsert_ranked. by apply zremove_ranked.
  - rewrite (zinsert_perm (score, member) (zremove member z)). cbn [map snd].
    apply NoDup_cons. split.
    + rewrite list_elem_of_In. apply zremove_gone.
    + rewrite zremove_members. by apply NoDup_filter.
Qed.

Lemma zset_ok_sublist k z : sublist k z -> zset_ok z -> zset_ok k.
Proof.
  intros Hs [Hr Hnd]. split; [by apply (ranked_sublist k z)|].
  apply (sublist_NoDup _ (map snd z)); [exact Hnd | by apply (fmap_sublist snd)].
Qed.

Lemma sublist_zremove member z : sublist (zremove member z) z.
Proof. apply sublist_filter. Qed.

Lemma ZAdd_zset_ok key score member st :
  (forall k, zset_ok (zrange k st)) ->
  (forall k, zset_ok (zrange k (snd (ZAdd key score member st)))) /\
  lists (snd (ZAdd key score member st)) = lists st.
Proof.
  intros Hok. unfold ZAdd.
  assert (Hs : forall k, zrange k (snd (send st)) = zrange k st)
    by (intros k; unfold zrange; by rewrite (proj2 (send_keeps st))).
  pose proof (proj1 (send_keeps st)) as Hl.
  destruct (send st) as [[|] st1]; simpl in Hs, Hl; cbn [snd].
  - split; [|exact Hl]. intros k. destruct (decide (key = k)) as [<-|Hne].
    + rewrite zrange_set_zset. apply zset_ok_zadd. rewrite Hs. apply Hok.
    + rewrite zrange_set_zset_ne by exact Hne. rewrite Hs. apply Hok.
  - split; [|exact Hl]. intros k. rewrite Hs. apply Hok.
Qed.

Lemma ZRemRangeByRank_zset_ok key start stop st :
  (forall k, zset_ok (zrange k st)) ->
  (forall k, zset_ok (zrange k (snd (ZRemRangeByRank key start stop st)))) /\
  lists (snd (ZRemRangeByRank key start stop st)) = lists st.
Proof.
  intros Hok. unfold ZRemRangeByRank.
  assert (Hs : forall k, zrange k (snd (send st)) = zrange k st)
    by (intros k; unfold zrange; by rewrite (proj2 (send_keeps st))).
  pose proof (proj1 (send_keeps st)) as Hl.
  destruct (send st) as [[|] st1]; simpl in Hs, Hl; cbn [snd].
  - split; [|exact Hl]. intros k. destruct (decide (key = k)) as [<-|Hne].
    + rewrite zrange_set_zset. eapply zset_ok_sublist; [apply sublist_zremrange|].
      rewrite Hs. apply Hok.
    + rewrite zrange_set_zset_ne by exact Hne. rewrite Hs. apply Hok.
  - split; [|exact Hl]. intros k. rewrite Hs. apply Hok.
Qed.

(** X7.  Every sorted set of the store stays as the server keeps it,
    in rank order (by score, then by member) and with each member
    once, through every call of the adapter that writes to one:
    [EnqueueRetry], [MoveToDLQ] and [MoveScheduledToQueue], on any
    connection, for any job and any readings of the clock.  So a
    member added twice has one entry, at its latest score. *)
Theorem sorted_sets_stay_well_formed (t1 t2 : Z) (j : SidekiqJob) (delay : Z) (st : Store) :
  (forall key, zset_ok (zrange key st)) ->
  (forall key, zset_ok (zrange key (snd (Client.EnqueueRetry t1 t2 j delay st)))) /\
  (forall key, zset_ok (zrange key (snd (fst (Client.MoveToDLQ t1 t2 j st))))) /\
  (forall key, zset_ok (zrange key (snd (MoveScheduledToQueue j st)))).
Proof.
  intros Hok. split; [|split]; intros key.
  - unfold Client.EnqueueRetry. destruct (0 <? delay).
    + pose proof (proj1 (ZAdd_zset_ok "schedule" (Go.float64 (Go.Unix (Go.Add t2 delay)))
                     (Marshal (Client.with_retry_metadata (Go.float64 (Go.Unix t1)) j))
                     st Hok) key) as Hz.
      destruct (ZAdd _ _ _ st) as [[| |] st']; exact Hz.
    + unfold LPush.
      assert (Hs : zrange key (snd (send st)) = zrange key st)
        by (unfold zrange; by rewrite (proj2 (send_keeps st))).
      destruct (send st) as [[|] st1]; cbn [snd] in Hs;
        change (zset_ok (zrange key st1)); rewrite Hs; apply Hok.
  - unfold Client.MoveToDLQ.
    pose proof (ZAdd_zset_ok "dead" (Go.float64 (Go.Unix t2))
                  (Marshal (Client.with_FailedAt (Go.float64 (Go.Unix t1)) j)) st Hok)
      as [Hz _].
    destruct (ZAdd _ _ _ st) as [r st']. cbn [snd] in Hz.
    destruct r; try exact (Hz key).
    all: pose proof (proj1 (ZRemRangeByRank_zset_ok "dead" 0 (-10001) st' Hz) key) as Hz';
      destruct (ZRemRangeByRank "dead" 0 (-10001) st') as [[| |] st'']; exact Hz'.
  - unfold MoveScheduledToQueue.
    assert (Hs : forall k, zrange k (snd (send st)) = zrange k st)
      by (intros k; unfold zrange; by rewrite (proj2 (send_keeps st))).
    destruct (send st) as [[|] st1]; cbn [snd] in *; [|rewrite Hs; apply Hok].
    change (zrange key (set_list ?k ?l ?s)) with (zrange key s).
    destruct (decide ("schedule" = key)) as [<-|Hne].
    + rewrite zrange_set_zset. eapply zset_ok_sublist; [apply sublist_zremove|].
      rewrite Hs. apply Hok.
    + rewrite zrange_set_zset_ne by exact Hne. rewrite Hs. apply Hok.
Qed.

End WellFormed.

(** X7, at a concrete input: the same job scheduled twice, at two
    delays, into an empty store. *)
Lemma sorted_sets_stay_well_formed_witness :
  let st := snd (@Client.EnqueueRetry Examples.codec 0 0 (Examples.job_of "j1")
                   (30 * Go.Second) Examples.empty_store) in
  Sweep.zset_ok (redis.zrange "schedule" st) /\
  Sweep.zset_ok (redis.zrange "schedule"
                   (snd (@Client.EnqueueRetry Examples.codec 0 0 (Examples.job_of "j1")
                           (15 * Go.Second) st))).
Proof.
  intros st.
  assert (Hempty : forall key, Sweep.zset_ok (redis.zrange key Examples.empty_store)).
  { intros key. apply zset_ok_nil. }
  pose proof (proj1 (@sorted_sets_stay_well_formed Examples.codec 0 0 (Examples.job_of "j1")
                       (30 * Go.Second) Examples.empty_store Hempty)) as Hst.
  split; [exact (Hst "schedule")|].
  exact (proj1 (@sorted_sets_stay_well_formed Examples.codec 0 0 (Examples.job_of "j1")
                  (15 * Go.Second) st Hst) "schedule").
Defined.

(** ** Sweeping the schedule *)

Section Sweeping.
Import job redis Rank Sweep.
Context `{JSON}.

Lemma length_omap {A B} (f : A -> option B) (l : list A) :
  (length (omap f l) <= length l)%nat.
Proof.
  induction l as [|x l IH]; csimpl; [lia|]. destruct (f x); simpl; lia.
Qed.

Lemma float64_le (a b : Z) :
  Z.abs a <= 2 ^ 53 -> Z.abs b <= 2 ^ 53 ->
  (Go.float64 a <= Go.float64 b)%Q <-> a <= b.
Proof.
  intros Ha Hb. unfold Go.float64. rewrite !round53_small by assumption.
  by rewrite <- Zle_Qle.
Qed.

Lemma In_zinsert_inv x e z : In x (zinsert e z) -> x = e \/ In x z.
Proof.
  intros Hin. apply (Permutation_in _ (zinsert_perm e z)) in Hin as [->|Hin]; auto.
Qed.

Lemma In_zremove x member z : In x (zremove member z) <-> snd x <> member /\ In x z.
Proof.
  unfold zremove. split.
  - intros Hin. apply list_elem_of_In, list_elem_of_filter in Hin as [Hne Hin].
    split; [exact Hne | by apply list_elem_of_In].
  - intros [Hne Hin]. apply list_elem_of_In, list_elem_of_filter.
    split; [exact Hne | by apply list_elem_of_In].
Qed.

Lemma zremove_absent member z : ~ In member (map snd z) -> zremove member z = z.
Proof.
  unfold zremove. induction z as [|x tl IH]; intros Hout; [reflexivity|].
  rewrite filter_cons_True by (intros Heq; apply Hout; left; exact Heq).
  f_equal. apply IH. intros Hin. apply Hout. by right.
Qed.

Lemma zremove_zinsert score member z :
  zremove member (zinsert (score, member) z) = zremove member z.
Proof.
  unfold zremove. induction z as [|x tl IH]; simpl.
  - by rewrite filter_cons_False by (intros Hne; by apply Hne).
  - destruct (entry_ltb (score, member) x).
    + by rewrite filter_cons_False by (intros Hne; by apply Hne).
    + rewrite !filter_cons. destruct (decide (snd x <> member)); by rewrite IH.
Qed.

Lemma GetScheduledJobs_healthy t st :
  wire st = [] ->
  GetScheduledJobs t st
    = (inl (omap (fun z => Unmarshal (snd z))
              (filter (fun e => Is_true (Qle_bool (fst e) (Go.float64 (Go.Unix t))))
                 (zrange "schedule" st))), st).
Proof.
  intros Hw. unfold GetScheduledJobs, ZRangeByScoreWithScores.
  by rewrite (send_healthy _ Hw).
Qed.

Lemma In_swept t st j :
  In j (omap (fun z => Unmarshal (snd z))
          (filter (fun e => Is_true (Qle_bool (fst e) (Go.float64 (Go.Unix t))))
             (zrange "schedule" st)))
  <-> exists score member,
        In (score, member) (zrange "schedule" st) /\
        (score <= Go.float64 (Go.Unix t))%Q /\ Unmarshal member = Some j.
Proof.
  rewrite <- list_elem_of_In, list_elem_of_omap. split.
  - intros ([score member] & Hin & Hdec).
    apply list_elem_of_filter in Hin as [Hle Hin].
    exists score, member. rewrite <- list_elem_of_In.
    split; [exact Hin|]. split; [|exact Hdec].
    apply Qle_bool_iff. by apply Is_true_true.
  - intros (score & member & Hin & Hle & Hdec).
    exists (score, member). split; [|exact Hdec].
    apply list_elem_of_filter. split; [|by apply list_elem_of_In].
    apply Is_true_true. by apply Qle_bool_iff.
Qed.

(** X8.  On a healthy connection [GetScheduledJobs] only reads: the
    store is as it was.  It returns exactly the records that decode
    from an entry of the schedule whose score is at most the current
    epoch second; an entry that does not decode is left out without
    an error, and stays in the schedule. *)
Theorem GetScheduledJobs_due (t : Z) (st : Store) :
  wire st = [] ->
  exists jobs,
    GetScheduledJobs t st = (inl jobs, st) /\
    (forall j, In j jobs <->
       exists score member,
         In (score, member) (zrange "schedule" st) /\
         (score <= Go.float64 (Go.Unix t))%Q /\ Unmarshal member = Some j) /\
    (length jobs <= length (zrange "schedule" st))%nat.
Proof.
  intros Hw. eexists. split; [by apply GetScheduledJobs_healthy|]. split.
  - intros j. apply In_swept.
  - etransitivity; [apply length_omap | apply length_filter].
Qed.

(** X9.  A job scheduled by [EnqueueRetry] with a positive delay is
    returned by a later [GetScheduledJobs] exactly when the clock of
    the sweep has reached the second the retry was scheduled for: not
    before, and from then on at every sweep.  (Seconds a float64 holds
    exactly; the codec reads back the record it wrote, and no other
    entry of the schedule decodes to the same record.) *)
Theorem retry_becomes_due (t1 t2 t : Z) (j : SidekiqJob) (delay : Z) (st : Store) :
  wire st = [] -> 0 < delay ->
  Z.abs (Go.Unix (Go.Add t2 delay)) <= 2 ^ 53 -> Z.abs (Go.Unix t) <= 2 ^ 53 ->
  let '(j', _, st') := Client.EnqueueRetry t1 t2 j delay st in
  Unmarshal (Marshal j') = Some j' ->
  (forall score member,
      In (score, member) (zrange "schedule" st) ->
      Unmarshal member = Some j' -> member = Marshal j') ->
  exists jobs,
    GetScheduledJobs t st' = (inl jobs, st') /\
    (In j' jobs <-> Go.Unix (Go.Add t2 delay) <= Go.Unix t).
Proof.
  intros Hw Hd Hs Ht. unfold Client.EnqueueRetry.
  apply Z.ltb_lt in Hd. rewrite Hd.
  set (j' := Client.with_retry_metadata (Go.float64 (Go.Unix t1)) j).
  set (score := Go.float64 (Go.Unix (Go.Add t2 delay))).
  destruct (ZAdd_healthy "schedule" score (Marshal j') st Hw) as [n ->].
  intros Hround Hinj.
  eexists. split; [by apply GetScheduledJobs_healthy|].
  rewrite In_swept, zrange_set_zset. split.
  - intros (s & member & Hin & Hle & Hdec).
    apply In_zinsert_inv in Hin as [Heq|Hin].
    + injection Heq as -> _. by apply (float64_le _ _ Hs Ht).
    + apply In_zremove in Hin as [Hne Hin]. exfalso. apply Hne.
      by apply (Hinj s member).
  - intros Hle. exists score, (Marshal j').
    split; [apply In_zinsert|]. split; [by apply (float64_le _ _ Hs Ht) | exact Hround].
Qed.

(** X10.  [MoveScheduledToQueue] on a healthy connection takes the
    record's encoding out of the schedule and puts it at the head of
    the list of the record's own queue; nothing else in the store
    changes.  The push does not depend on the removal: a record whose
    encoding is not in the schedule (promoted already, or changed
    since it was read) is pushed all the same, with the schedule
    untouched.  When the pipeline is not delivered the call returns an
    error and the store holds what it held. *)
Theorem MoveScheduledToQueue_spec (j : SidekiqJob) (st : Store) :
  let member := Marshal j in
  let key := Client.queue_key (Queue j) in
  let '(err, st') := MoveScheduledToQueue j st in
  (wire st = [] ->
     err = None /\
     zrange "schedule" st' = zremove member (zrange "schedule" st) /\
     ~ In member (map snd (zrange "schedule" st')) /\
     (~ In member (map snd (zrange "schedule" st)) ->
        zrange "schedule" st' = zrange "schedule" st) /\
     lrange key st' = member :: lrange key st /\
     (forall k, k <> key -> lrange k st' = lrange k st) /\
     (forall k, k <> "schedule" -> zrange k st' = zrange k st)) /\
  (forall w, wire st = false :: w ->
     err = Some (Go.Errorf "failed to move scheduled job to queue: %w" []
                   (Some ErrTransport)) /\
     lists st' = lists st /\ zsets st' = zsets st).
Proof.
  unfold MoveScheduledToQueue. cbv zeta.
  destruct (wire st) as [|[|] w] eqn:Hw.
  - rewrite (send_healthy _ Hw). split; [|discriminate]. intros _.
    set (z' := zremove (Marshal j) (zrange "schedule" st)).
    assert (Hz : zrange "schedule"
                   (set_list (Client.queue_key (Queue j))
                      (Marshal j :: lrange (Client.queue_key (Queue j))
                                      (set_zset "schedule" z' st))
                      (set_zset "schedule" z' st)) = z')
      by apply (zrange_set_zset "schedule" z' st).
    split; [reflexivity|]. split; [exact Hz|]. split; [rewrite Hz; apply zremove_gone|].
    split; [intros Hout; rewrite Hz; by apply zremove_absent|].
    split; [apply lrange_set_list|]. split.
    + intros k Hne. rewrite lrange_set_list_ne by congruence. reflexivity.
    + intros k Hne.
      change (zrange k (set_zset "schedule" z' st) = zrange k st).
      apply zrange_set_zset_ne. congruence.
  - rewrite (send_through _ _ Hw). split; [discriminate|]. intros w' Hw'. discriminate.
  - rewrite (send_fault _ _ Hw). split; [discriminate|]. intros w' _. by repeat split.
Qed.

(** X11.  The way back of a retried job: [EnqueueRetry] with a
    positive delay, then [MoveScheduledToQueue] of the record it
    returned, then a poll of the job's queue.  The poll returns that
    record, with its retry count one up; the schedule is what it was
    before, less this member; and the job's queue is as it was before
    the three calls.  (Healthy connection; the codec reads back the
    record it wrote.) *)
Theorem retry_promote_poll (t1 t2 : Z) (j : SidekiqJob) (delay : Z) (st : Store) :
  wire st = [] -> 0 < delay ->
  let '(j', _, st1) := Client.EnqueueRetry t1 t2 j delay st in
  Unmarshal (Marshal j') = Some j' ->
  let '(err, st2) := MoveScheduledToQueue j' st1 in
  let '(r, st3) := Client.PollJobs [Queue j] st2 in
  err = None /\
  r = inl (Some j') /\
  Retry j' = Go.wrap (Retry j + 1) /\
  zrange "schedule" st3 = zremove (Marshal j') (zrange "schedule" st) /\
  ~ In (Marshal j') (map snd (zrange "schedule" st3)) /\
  lrange (Client.queue_key (Queue j)) st3 = lrange (Client.queue_key (Queue j)) st.
Proof.
  intros Hw Hd. unfold Client.EnqueueRetry.
  apply Z.ltb_lt in Hd. rewrite Hd.
  set (j' := Client.with_retry_metadata (Go.float64 (Go.Unix t1)) j).
  set (score := Go.float64 (Go.Unix (Go.Add t2 delay))).
  destruct (ZAdd_healthy "schedule" score (Marshal j') st Hw) as [n ->].
  intros Hround.
  set (st1 := set_zset "schedule" (zinsert (score, Marshal j')
                                     (zremove (Marshal j') (zrange "schedule" st))) st).
  unfold MoveScheduledToQueue. rewrite (send_healthy st1 Hw).
  set (st1' := set_zset "schedule" (zremove (Marshal j') (zrange "schedule" st1)) st1).
  change (Queue j') with (Queue j).
  set (key := Client.queue_key (Queue j)).
  assert (Hhead : lrange key (set_list key (Marshal j' :: lrange key st1') st1')
                  = Marshal j' :: lrange key st)
    by (rewrite lrange_set_list; reflexivity).
  rewrite (PollJobs_head (Queue j) (Marshal j') (lrange key st)
             (set_list key (Marshal j' :: lrange key st1') st1') Hw Hhead), Hround.
  assert (Hz : zrange "schedule" st1' = zremove (Marshal j') (zrange "schedule" st)).
  { unfold st1'. rewrite zrange_set_zset. unfold st1. rewrite zrange_set_zset.
    rewrite zremove_zinsert. apply zremove_absent, zremove_gone. }
  split; [reflexivity|]. split; [reflexivity|]. split; [reflexivity|].
  change (zrange "schedule" (set_list ?k ?l (set_list ?k' ?l' st1')))
    with (zrange "schedule" st1').
  split; [exact Hz|]. split; [rewrite Hz; apply zremove_gone|].
  rewrite lrange_set_list.
  destruct (lrange key st) eqn:Hl; reflexivity.
Qed.

End Sweeping.

(** The components of a call that returns a triple, by name. *)
Ltac name_triple call a b c :=
  let run := fresh "run" in
  let Hrun := fresh "Hrun" in
  remember call as run eqn:Hrun;
  destruct run as [[a b] c];
  let Ha := fresh in
  let Hc := fresh in
  pose proof (f_equal (fun x => fst (fst x)) Hrun) as Ha;
  pose proof (f_equal snd Hrun) as Hc;
  cbn [fst snd] in Ha, Hc; clear Hrun; subst a c.

(** X8, at a concrete input: one retry in the schedule, swept late. *)
Lemma GetScheduledJobs_due_witness :
  let st := snd (@Client.EnqueueRetry Examples.codec 0 0 (Examples.job_of "j1")
                   (15 * Go.Second) Examples.empty_store) in
  exists jobs,
    @Sweep.GetScheduledJobs Examples.codec (20 * Go.Second) st = (inl jobs, st) /\
    (length jobs <= 1)%nat.
Proof.
  intros st.
  destruct (@GetScheduledJobs_due Examples.codec (20 * Go.Second) st eq_refl)
    as (jobs & Hrun & _ & Hlen).
  exists jobs. split; [exact Hrun | exact Hlen].
Defined.

(** X9, at a concrete input: a retry scheduled 15 s ahead is not due
    after 14 s and is due after 15 s. *)
Lemma retry_becomes_due_witness :
  let run := @Client.EnqueueRetry ExampleRetry.codec 1700000000500000000 1700000000500000000
               (Examples.job_of "j1") (15 * Go.Second) Examples.empty_store in
  (exists jobs,
     @Sweep.GetScheduledJobs ExampleRetry.codec (1700000014500000000) (snd run)
       = (inl jobs, snd run) /\ ~ In (fst (fst run)) jobs) /\
  (exists jobs,
     @Sweep.GetScheduledJobs ExampleRetry.codec (1700000015500000000) (snd run)
       = (inl jobs, snd run) /\ In (fst (fst run)) jobs).
Proof.
  cbv zeta. split.
  - pose proof (@retry_becomes_due ExampleRetry.codec 1700000000500000000
                  1700000000500000000 1700000014500000000 (Examples.job_of "j1")
                  (15 * Go.Second) Examples.empty_store eq_refl eq_refl
                  ltac:(vm_compute; discriminate) ltac:(vm_compute; discriminate)) as Hdue.
    name_triple (@Client.EnqueueRetry ExampleRetry.codec 1700000000500000000
                   1700000000500000000 (Examples.job_of "j1") (15 * Go.Second)
                   Examples.empty_store) j' err st'.
    destruct (Hdue eq_refl ltac:(intros score member [])) as (jobs & Hsweep & Hiff).
    exists jobs. split; [exact Hsweep|]. intros Hin. apply Hiff in Hin.
    vm_compute in Hin. by apply Hin.
  - pose proof (@retry_becomes_due ExampleRetry.codec 1700000000500000000
                  1700000000500000000 1700000015500000000 (Examples.job_of "j1")
                  (15 * Go.Second) Examples.empty_store eq_refl eq_refl
                  ltac:(vm_compute; discriminate) ltac:(vm_compute; discriminate)) as Hdue.
    name_triple (@Client.EnqueueRetry ExampleRetry.codec 1700000000500000000
                   1700000000500000000 (Examples.job_of "j1") (15 * Go.Second)
                   Examples.empty_store) j' err st'.
    destruct (Hdue eq_refl ltac:(intros score member [])) as (jobs & Hsweep & Hiff).
    exists jobs. split; [exact Hsweep|]. apply Hiff. vm_compute. discriminate.
Defined.

(** X10, at a concrete input: promoting a record that is not in the
    schedule still pushes it. *)
Lemma MoveScheduledToQueue_spec_witness :
  let run := @Sweep.MoveScheduledToQueue Examples.codec (Examples.job_of "j1")
               Examples.empty_store in
  fst run = None /\ redis.lrange "queue:default" (snd run) = ["j1"].
Proof.
  cbv zeta.
  generalize (@MoveScheduledToQueue_spec Examples.codec (Examples.job_of "j1")
                Examples.empty_store).
  destruct (@Sweep.MoveScheduledToQueue Examples.codec (Examples.job_of "j1")
              Examples.empty_store) as [err st'].
  cbv zeta. intros [Hok _]. destruct (Hok eq_refl) as (-> & _ & _ & _ & Hl & _).
  split; [reflexivity | exact Hl].
Defined.

(** X11, at a concrete input. *)
Lemma retry_promote_poll_witness :
  let first := @Client.EnqueueRetry ExampleRetry.codec 1700000000500000000 1700000000500000000
                 (Examples.job_of "j1") (15 * Go.Second) Examples.empty_store in
  let second := @Sweep.MoveScheduledToQueue ExampleRetry.codec (fst (fst first)) (snd first) in
  let third := @Client.PollJobs ExampleRetry.codec ["default"] (snd second) in
  fst third = inl (Some ExampleRetry.retried) /\
  redis.lrange "queue:default" (snd third) = [].
Proof.
  cbv zeta.
  pose proof (@retry_promote_poll ExampleRetry.codec 1700000000500000000
                1700000000500000000 (Examples.job_of "j1") (15 * Go.Second)
                Examples.empty_store eq_refl eq_refl) as Hcycle.
  name_triple (@Client.EnqueueRetry ExampleRetry.codec 1700000000500000000
                 1700000000500000000 (Examples.job_of "j1") (15 * Go.Second)
                 Examples.empty_store) j' err st'.
  specialize (Hcycle eq_refl).
  change (job.Queue (Examples.job_of "j1")) with "default" in Hcycle. revert Hcycle.
  destruct (@Sweep.MoveScheduledToQueue ExampleRetry.codec _ _) as [err2 st2]. cbn [fst snd].
  destruct (@Client.PollJobs ExampleRetry.codec ["default"] st2) as [r st3]. cbn [fst snd].
  intros (_ & -> & _ & _ & _ & Hl). split; [reflexivity | exact Hl].
Defined.

(** * Further properties of the HTTP client *)

Section BreakerMore.
Import sidecar BreakerRuns ClientRuns.

Lemma records_snoc os o cb : records (os ++ [o]) cb = record (records os cb) o.
Proof. unfold records. by rewrite foldl_app. Qed.

Lemma trailing_failures_snoc os o :
  trailing_failures (os ++ [o])
    = match o with Some _ => S (trailing_failures os) | None => O end.
Proof. unfold trailing_failures. by rewrite foldl_app. Qed.

Lemma trailing_failures_length os : (trailing_failures os <= length os)%nat.
Proof.
  induction os as [|o os IH] using rev_ind; [reflexivity|].
  rewrite trailing_failures_snoc, length_app. simpl. destruct o; lia.
Qed.

Lemma records_counts mf rt os :
  1 <= mf <= Go.int_max -> Z.of_nat (length os) <= Go.int_max ->
  let cb := records os (NewCircuitBreaker mf rt) in
  maxFailures cb = mf /\ resetTimeout cb = rt /\
  failures cb = Z.of_nat (trailing_failures os) /\
  state cb = if mf <=? Z.of_nat (trailing_failures os) then StateOpen else StateClosed.
Proof.
  intros Hmf. induction os as [|o os IH] using rev_ind; intros Hlen; cbv zeta.
  - repeat split. change (Z.of_nat (trailing_failures [])) with 0. simpl.
    destruct (Z.leb_spec mf 0); [lia | reflexivity].
  - rewrite length_app in Hlen. simpl in Hlen.
    destruct (IH ltac:(lia)) as (Hm & Hr & Hf & Hs).
    pose proof (trailing_failures_length os) as Hk.
    rewrite records_snoc, trailing_failures_snoc. destruct o as [now|]; simpl.
    + rewrite Hm, Hr, Hf, Hs.
      rewrite wrap_in_range by (unfold Go.in_range, Go.int_min, Go.int_max in *; lia).
      replace (Z.of_nat (trailing_failures os) + 1)
        with (Z.of_nat (S (trailing_failures os))) by lia.
      repeat split.
      destruct (Z.leb_spec mf (Z.of_nat (S (trailing_failures os)))); [reflexivity|].
      destruct (Z.leb_spec mf (Z.of_nat (trailing_failures os))); [lia | reflexivity].
    + rewrite Hm, Hr. repeat split. change (Z.of_nat 0) with 0.
      destruct (Z.leb_spec mf 0); [lia | reflexivity].
Qed.

(** X12.  A breaker that has only had results recorded (no request
    was refused in between) is open exactly when the results since the
    last success, all failures, number [maxFailures] or more: its
    count is the length of that run, a success anywhere starts the
    count again, and with a shorter run the breaker is closed and lets
    every request through.  ([maxFailures] at least 1; counts within
    Go's int.) *)
Theorem breaker_open_iff_run_of_failures (mf rt : Z) (os : list (option Z)) :
  1 <= mf <= Go.int_max -> Z.of_nat (length os) <= Go.int_max ->
  let cb := records os (NewCircuitBreaker mf rt) in
  let run := Z.of_nat (trailing_failures os) in
  failures cb = run /\
  (state cb = StateOpen <-> mf <= run) /\
  (state cb = StateClosed <-> run < mf) /\
  (run < mf -> forall now, AllowRequest now cb = (true, cb)).
Proof.
  intros Hmf Hlen cb run.
  destruct (records_counts mf rt os Hmf Hlen) as (_ & _ & Hf & Hs).
  fold cb in Hf, Hs. fold run in Hf, Hs.
  split; [exact Hf|].
  destruct (Z.leb_spec mf run) as [Hle|Hlt].
  - split; [by split|]. split; [split; [congruence | lia] | lia].
  - split; [split; [congruence | lia]|]. split; [by split|].
    intros _ now. unfold AllowRequest. by rewrite Hs.
Qed.

(** X13.  The trial after the timeout.  Once an open breaker has let a
    request through it is half-open, and while it is, it lets every
    further request through as well.  A failure recorded then opens it
    again with the timer started afresh at that failure, so requests
    are refused for another [resetTimeout]; a success closes it, and
    it then takes [maxFailures] failures in a row again to open it.
    ([maxFailures] from 1 to one below Go's largest int.) *)
Theorem half_open_trial (mf rt : Z) (times : list Z) (last now : Z) :
  1 <= mf < Go.int_max ->
  Z.of_nat (length times) + 1 = mf ->
  rt < Go.Sub now last ->
  let cb := record_failures (times ++ [last]) (NewCircuitBreaker mf rt) in
  let probe := snd (AllowRequest now cb) in
  state probe = StateHalfOpen /\
  (forall now', AllowRequest now' probe = (true, probe)) /\
  (forall t,
      state (RecordFailure t probe) = StateOpen /\
      lastFailTime (RecordFailure t probe) = t /\
      forall now', Go.Sub now' t <= rt ->
        AllowRequest now' (RecordFailure t probe) = (false, RecordFailure t probe)) /\
  state (RecordSuccess probe) = StateClosed /\
  (forall times',
      Z.of_nat (length times') < mf ->
      state (record_failures times' (RecordSuccess probe)) = StateClosed).
Proof.
  intros Hmf Hlen Hnow cb probe.
  destruct (record_failures_below times (NewCircuitBreaker mf rt))
    as (Hf & Hs & Hmax & Hr); [simpl; lia | simpl; lia | simpl; lia |].
  simpl in Hf, Hs, Hmax, Hr.
  assert (Hcb : cb = {| maxFailures := mf; resetTimeout := rt; failures := mf;
                        lastFailTime := last; state := StateOpen |}).
  { subst cb. rewrite record_failures_snoc. unfold RecordFailure.
    rewrite Hf, Hs, Hmax, Hr.
    rewrite wrap_in_range by (unfold Go.in_range, Go.int_min, Go.int_max in *; lia).
    replace (0 + Z.of_nat (length times) + 1) with mf by lia.
    by rewrite Z.leb_refl. }
  assert (Hprobe : probe = {| maxFailures := mf; resetTimeout := rt; failures := mf;
                              lastFailTime := last; state := StateHalfOpen |}).
  { subst probe. rewrite Hcb. unfold AllowRequest. simpl.
    destruct (Z.ltb_spec rt (Go.Sub now last)); [reflexivity | lia]. }
  rewrite Hprobe. split; [reflexivity|]. split; [reflexivity|]. split; [|split].
  - intros t. unfold RecordFailure. simpl.
    rewrite wrap_in_range by (unfold Go.in_range, Go.int_min, Go.int_max in *; lia).
    destruct (Z.leb_spec mf (mf + 1)); [|lia].
    split; [reflexivity|]. split; [reflexivity|].
    intros now' Hnow'. unfold AllowRequest. simpl.
    destruct (Z.ltb_spec rt (Go.Sub now' t)); [lia | reflexivity].
  - reflexivity.
  - intros times' Hshort.
    destruct (record_failures_below times'
                (RecordSuccess {| maxFailures := mf; resetTimeout := rt; failures := mf;
                                  lastFailTime := last; state := StateHalfOpen |}))
      as (_ & Hs' & _); [simpl; lia | simpl; lia | simpl; lia |].
    exact Hs'.
Qed.

End BreakerMore.

(** X12, at a concrete input: two failures, a success, two failures
    again, with a threshold of 3. *)
Lemma breaker_open_iff_run_of_failures_witness :
  let cb := ClientRuns.records [Some 1; Some 2; None; Some 3; Some 4]
              (sidecar.NewCircuitBreaker 3 (30 * Go.Second)) in
  sidecar.failures cb = 2 /\ sidecar.AllowRequest 5 cb = (true, cb).
Proof.
  intros cb.
  destruct (breaker_open_iff_run_of_failures 3 (30 * Go.Second)
              [Some 1; Some 2; None; Some 3; Some 4])
    as (Hf & _ & _ & Hallow).
  - vm_compute. split; discriminate.
  - vm_compute. discriminate.
  - split; [exact Hf|]. apply Hallow. reflexivity.
Defined.

(** X13, at a concrete input: a breaker with a threshold of 2, opened
    at instant 20, tried again 31 s later, and failing at instant 40. *)
Lemma half_open_trial_witness :
  let cb := BreakerRuns.record_failures ([10] ++ [20])
              (sidecar.NewCircuitBreaker 2 (30 * Go.Second)) in
  let probe := snd (sidecar.AllowRequest (20 + 31 * Go.Second) cb) in
  sidecar.state probe = sidecar.StateHalfOpen /\
  sidecar.state (sidecar.RecordFailure 40 probe) = sidecar.StateOpen.
Proof.
  intros cb probe.
  destruct (half_open_trial 2 (30 * Go.Second) [10] 20 (20 + 31 * Go.Second))
    as (Hhalf & _ & Hfail & _).
  - vm_compute. split; [discriminate | reflexivity].
  - reflexivity.
  - vm_compute. reflexivity.
  - split; [exact Hhalf|]. exact (proj1 (Hfail 40)).
Defined.

(** ** The retry loop in general, and the breaker behind [ExecuteJob] *)

Section LoopMore.
Import job sidecar HTTPRuns ClientRuns.
Context {A : Type} (decode : string -> option A).

Lemma requests_app evs evs' : requests (evs ++ evs') = (requests evs + requests evs')%nat.
Proof. unfold requests. by rewrite List.filter_app, length_app. Qed.

Lemma requests_attempt_events attempt : requests (attempt_events attempt) = 1%nat.
Proof. unfold attempt_events. by destruct (0 <? attempt). Qed.

Lemma requests_attempts_events k : forall attempt,
  requests (attempts_events attempt k) = k.
Proof.
  induction k as [|k IH]; intros attempt; [reflexivity|].
  cbn [attempts_events]. by rewrite requests_app, requests_attempt_events, IH.
Qed.

Lemma attempts_final (net : Z -> round_trip) maxRetries n attempt lastErr :
  retryable (net attempt) = false ->
  attempts decode net maxRetries (S n) attempt lastErr
    = (verdict decode (net attempt), attempt_events attempt).
Proof.
  intros Hr. simpl. unfold attempt_events, verdict.
  destruct (net attempt) as [err|status err|status body]; simpl in Hr; try discriminate.
  rewrite Hr. destruct (400 <=? status); [reflexivity|].
  destruct (decode body); reflexivity.
Qed.

Lemma verdict_result (o : round_trip) a :
  retryable o = false -> verdict decode o = inl a ->
  exists status body, o = Response status body /\ status < 400 /\ decode body = Some a.
Proof.
  destruct o as [err|status err|status body]; simpl; try discriminate.
  intros _. destruct (Z.leb_spec 400 status); [discriminate|].
  destruct (decode body) as [a'|] eqn:Hdec; [|discriminate].
  intros Heq. injection Heq as ->. by exists status, body.
Qed.

Lemma attempts_shape (net : Z -> round_trip) maxRetries n : forall attempt lastErr,
  exists k, (k <= n)%nat /\
    snd (attempts decode net maxRetries n attempt lastErr) = attempts_events attempt k /\
    (forall i, (S i < k)%nat -> retryable (net (attempt + Z.of_nat i)) = true) /\
    ((k < n)%nat ->
       exists k', k = S k' /\ retryable (net (attempt + Z.of_nat k')) = false) /\
    (forall a, fst (attempts decode net maxRetries n attempt lastErr) = inl a ->
       exists k' status body,
         k = S k' /\ net (attempt + Z.of_nat k') = Response status body /\
         status < 400 /\ decode body = Some a).
Proof.
  induction n as [|n IH]; intros attempt lastErr.
  - exists O. split; [lia|]. split; [reflexivity|]. split; [intros; lia|].
    split; [intros; lia|]. intros a. discriminate.
  - destruct (retryable (net attempt)) eqn:Hr.
    + destruct (attempts_step decode net maxRetries n attempt lastErr Hr) as [e ->].
      destruct (IH (attempt + 1) (Some e)) as (k & Hk & Hevs & Hretry & Hlast & Hres).
      exists (S k). split; [lia|]. cbn [fst snd]. split; [by rewrite Hevs|]. split; [|split].
      * intros [|i] Hi; [by rewrite Z.add_0_r|].
        replace (attempt + Z.of_nat (S i)) with (attempt + 1 + Z.of_nat i) by lia.
        apply Hretry. lia.
      * intros Hlt. destruct (Hlast ltac:(lia)) as (k' & -> & Hstop).
        exists (S k'). split; [reflexivity|].
        by replace (attempt + Z.of_nat (S k')) with (attempt + 1 + Z.of_nat k') by lia.
      * intros a Ha. destruct (Hres a Ha) as (k' & status & body & -> & Hnet & Hlt & Hdec).
        exists (S k'), status, body. split; [reflexivity|].
        by replace (attempt + Z.of_nat (S k')) with (attempt + 1 + Z.of_nat k') by lia.
    + rewrite (attempts_final net maxRetries n attempt lastErr Hr).
      exists 1%nat. split; [lia|]. cbn [fst snd attempts_events].
      split; [by rewrite app_nil_r|]. split; [intros; lia|]. split.
      * intros _. exists O. split; [reflexivity|]. by rewrite Z.add_0_r.
      * intros a Ha. destruct (verdict_result _ a Hr Ha) as (status & body & Hnet & Hlt & Hdec).
        exists O, status, body. split; [reflexivity|]. by rewrite Z.add_0_r.
Qed.

(** X14.  [executeWithRetry] for any [maxRetries].  It sends at most
    [maxRetries + 1] requests, numbered from 0, pausing before each
    but the first, and none at all when [maxRetries] is negative, when
    it returns the exhaustion error wrapping no cause.  Every request
    but the last met a retryable outcome; when it stops short of
    [maxRetries + 1] requests the last one met an outcome that is not
    retried.  A value is only ever returned as the decoded body of the
    last request's response, whose status was below 400. *)
Theorem executeWithRetry_bounded (net : Transport) (req : Request) (maxRetries : Z) :
  let '(r, evs) := executeWithRetry decode net req maxRetries in
  exists k,
    (k <= Z.to_nat (maxRetries + 1))%nat /\
    evs = attempts_events 0 k /\
    requests evs = k /\
    (forall i, (S i < k)%nat -> retryable (net req (Z.of_nat i)) = true) /\
    ((k < Z.to_nat (maxRetries + 1))%nat ->
       exists k', k = S k' /\ retryable (net req (Z.of_nat k')) = false) /\
    (forall a, r = inl a ->
       exists k' status body,
         k = S k' /\ net req (Z.of_nat k') = Response status body /\
         status < 400 /\ decode body = Some a) /\
    (maxRetries < 0 ->
       k = O /\
       r = inr (Go.Errorf "request failed after %d attempts: %w"
                  [Go.AInt (maxRetries + 1)] None)).
Proof.
  unfold executeWithRetry.
  destruct (attempts_shape (net req) maxRetries (Z.to_nat (maxRetries + 1)) 0 None)
    as (k & Hk & Hevs & Hretry & Hlast & Hres).
  assert (Hneg : maxRetries < 0 ->
            attempts decode (net req) maxRetries (Z.to_nat (maxRetries + 1)) 0 None
              = (inr (Go.Errorf "request failed after %d attempts: %w"
                        [Go.AInt (maxRetries + 1)] None), [])).
  { intros Hlt. replace (Z.to_nat (maxRetries + 1)) with O by lia. reflexivity. }
  destruct (attempts decode (net req) maxRetries (Z.to_nat (maxRetries + 1)) 0 None)
    as [r evs]. cbn [fst snd] in *.
  exists k. split; [exact Hk|]. split; [exact Hevs|].
  split; [rewrite Hevs; apply requests_attempts_events|].
  split; [exact Hretry|]. split; [exact Hlast|]. split; [exact Hres|].
  intros Hlt. split; [lia|]. specialize (Hneg Hlt). congruence.
Qed.

End LoopMore.

Section ClientMore.
Import job sidecar BreakerRuns HTTPRuns ClientRuns.
Context `{JSON}.

Lemma execute_all_snoc net calls call jobData c :
  execute_all net (calls ++ [call]) jobData c
    = snd (fst (ExecuteJob net (fst call) (snd call) jobData
                  (execute_all net calls jobData c))).
Proof. unfold execute_all. by rewrite foldl_app. Qed.

Lemma execute_all_failing net calls jobData baseURL :
  (exists e, fst (executeWithRetry UnmarshalResult net
                    {| method := "POST"; url := baseURL +:+ "/execute";
                       body := Marshal jobData |} 3) = inr e) ->
  (length calls <= 5)%nat ->
  execute_all net calls jobData (NewHTTPClient baseURL)
    = {| sidecar.baseURL := baseURL;
         breaker := record_failures (map snd calls)
                      (NewCircuitBreaker 5 (30 * Go.Second)) |}.
Proof.
  intros [e He]. induction calls as [|call calls IH] using rev_ind; intros Hlen.
  - reflexivity.
  - rewrite length_app in Hlen. simpl in Hlen.
    rewrite execute_all_snoc, IH by lia.
    destruct (record_failures_below (map snd calls) (NewCircuitBreaker 5 (30 * Go.Second)))
      as (_ & Hs & _); [simpl; lia | rewrite length_map; simpl; lia | vm_compute; discriminate |].
    unfold ExecuteJob, AllowRequest. cbn [breaker sidecar.baseURL]. rewrite Hs. simpl state.
    cbv iota beta.
    destruct (executeWithRetry UnmarshalResult net _ 3) as [[result|err] evs];
      [discriminate|].
    cbn [fst snd]. rewrite map_app. cbn [map]. by rewrite record_failures_snoc.
Qed.

(** X15.  A client made by [NewHTTPClient] opens its breaker at the
    fifth call of [ExecuteJob] in a row that ends in an error of the
    retry loop, whichever kind: attempts used up, a status from 400 to
    499, or a body that does not decode.  After four it is still
    closed.  Once open, every call made up to 30 s after the fifth
    failure returns the circuit-open error at once, with no request
    sent and the client unchanged, for any job; the first call made
    later than that sends a request again. *)
Theorem five_errors_open_the_breaker (net : Transport) (calls : list (Z * Z))
    (last : Z * Z) (jobData : SidekiqJob) (baseURL : string) :
  (exists e, fst (executeWithRetry UnmarshalResult net
                    {| method := "POST"; url := baseURL +:+ "/execute";
                       body := Marshal jobData |} 3) = inr e) ->
  length calls = 4%nat ->
  let c := execute_all net (calls ++ [last]) jobData (NewHTTPClient baseURL) in
  state (breaker (execute_all net calls jobData (NewHTTPClient baseURL))) = StateClosed /\
  state (breaker c) = StateOpen /\
  (forall net' t_allow t_record jobData',
      Go.Sub t_allow (snd last) <= 30 * Go.Second ->
      ExecuteJob net' t_allow t_record jobData' c = (inr ErrCircuitOpen, c, [])) /\
  (forall net' t_allow t_record jobData',
      30 * Go.Second < Go.Sub t_allow (snd last) ->
      exists rest, snd (ExecuteJob net' t_allow t_record jobData' c) = Do 0 :: rest).
Proof.
  intros Herr Hlen c.
  destruct (record_failures_below (map snd calls) (NewCircuitBreaker 5 (30 * Go.Second)))
    as (Hf & Hs & Hm & Hr);
    [simpl; lia | rewrite length_map; simpl; lia | vm_compute; discriminate |].
  rewrite length_map, Hlen in Hf. simpl in Hf, Hs, Hm, Hr.
  assert (Hc : c = {| sidecar.baseURL := baseURL;
                      breaker := {| maxFailures := 5; resetTimeout := 30 * Go.Second;
                                    failures := 5; lastFailTime := snd last;
                                    state := StateOpen |} |}).
  { subst c. rewrite (execute_all_failing _ _ _ _ Herr)
      by (rewrite length_app, Hlen; simpl; lia).
    rewrite map_app. cbn [map]. rewrite record_failures_snoc.
    unfold RecordFailure. by rewrite Hf, Hs, Hm, Hr. }
  split; [rewrite (execute_all_failing _ _ _ _ Herr) by lia; exact Hs|].
  rewrite Hc. split; [reflexivity|]. split.
  - intros net' t_allow t_record jobData' Hsoon.
    unfold ExecuteJob, AllowRequest. cbn [breaker state resetTimeout lastFailTime].
    destruct (Z.ltb_spec (30 * Go.Second) (Go.Sub t_allow (snd last))); [lia | reflexivity].
  - intros net' t_allow t_record jobData' Hlate.
    unfold ExecuteJob, AllowRequest. cbn [breaker state resetTimeout lastFailTime].
    destruct (Z.ltb_spec (30 * Go.Second) (Go.Sub t_allow (snd last))); [|lia].
    unfold executeWithRetry. change (Z.to_nat (3 + 1)) with 4%nat.
    destruct (attempts_head UnmarshalResult (net' {| method := "POST";
                url := baseURL +:+ "/execute"; body := Marshal jobData' |}) 3 3 0 None)
      as [rest Hhead].
    cbn [sidecar.baseURL].
    destruct (attempts UnmarshalResult _ 3 4 0 None) as [[result|err] evs];
      cbn [snd] in *; subst evs; by exists rest.
Qed.

(** X16.  A job that fails inside the sidecar does not count against
    the breaker.  When the sidecar answers the first request of every
    call with a status below 400 and a body that decodes, each call of
    [ExecuteJob] on a fresh client sends one request and returns the
    decoded result, whatever its [Status] field says, and the client
    stays as [NewHTTPClient] made it however many calls are made: the
    breaker closed, its count at 0. *)
Theorem failing_jobs_keep_breaker_closed (net : Transport) (calls : list (Z * Z))
    (jobData : SidekiqJob) (baseURL : string) (status : Z) (body : string)
    (result : JobResult) :
  net {| method := "POST"; url := baseURL +:+ "/execute"; body := Marshal jobData |} 0
    = Response status body ->
  status < 400 ->
  UnmarshalResult body = Some result ->
  execute_all net calls jobData (NewHTTPClient baseURL) = NewHTTPClient baseURL /\
  forall t_allow t_record,
    ExecuteJob net t_allow t_record jobData (NewHTTPClient baseURL)
      = (inl result, NewHTTPClient baseURL, [Do 0]).
Proof.
  intros Hnet Hlt Hdec.
  assert (Hone : forall t_allow t_record,
            ExecuteJob net t_allow t_record jobData (NewHTTPClient baseURL)
              = (inl result, NewHTTPClient baseURL, [Do 0])).
  { intros t_allow t_record. unfold ExecuteJob, NewHTTPClient, AllowRequest.
    cbn [breaker state NewCircuitBreaker sidecar.baseURL].
    unfold executeWithRetry. change (Z.to_nat (3 + 1)) with 4%nat.
    cbn [attempts]. rewrite Hnet.
    destruct (Z.leb_spec 500 status); [lia|].
    destruct (Z.leb_spec 400 status); [lia|].
    rewrite Hdec. reflexivity. }
  split; [|exact Hone].
  induction calls as [|call calls IH] using rev_ind; [reflexivity|].
  by rewrite execute_all_snoc, IH, Hone.
Qed.

End ClientMore.

(** X15, at a concrete input: five calls, each answered 404. *)
Lemma five_errors_open_the_breaker_witness :
  let c := @ClientRuns.execute_all Examples.codec ExampleNets.not_found
             ([(0, 1); (2, 3); (4, 5); (6, 7)] ++ [(8, 9)]) (Examples.job_of "j1")
             (sidecar.NewHTTPClient "http://sidecar:3000") in
  sidecar.state (sidecar.breaker c) = sidecar.StateOpen /\
  @sidecar.ExecuteJob Examples.codec ExampleNets.unreachable 10 11 (Examples.job_of "j2") c
    = (inr sidecar.ErrCircuitOpen, c, []).
Proof.
  intros c.
  destruct (@five_errors_open_the_breaker Examples.codec ExampleNets.not_found
              [(0, 1); (2, 3); (4, 5); (6, 7)] (8, 9) (Examples.job_of "j1")
              "http://sidecar:3000") as (_ & Hopen & Hfast & _).
  - eexists. reflexivity.
  - reflexivity.
  - split; [exact Hopen|]. apply Hfast. vm_compute. discriminate.
Defined.

(** X16, at a concrete input: the sidecar answers 200 with a result
    whose status is [failure]. *)
Lemma failing_jobs_keep_breaker_closed_witness :
  @ClientRuns.execute_all Examples.codec (fun _ _ => sidecar.Response 200 "failure")
     [(0, 1); (2, 3); (4, 5); (6, 7); (8, 9); (10, 11)] (Examples.job_of "j1")
     (sidecar.NewHTTPClient "http://sidecar:3000")
    = sidecar.NewHTTPClient "http://sidecar:3000".
Proof.
  exact (proj1 (@failing_jobs_keep_breaker_closed Examples.codec
                  (fun _ _ => sidecar.Response 200 "failure")
                  [(0, 1); (2, 3); (4, 5); (6, 7); (8, 9); (10, 11)] (Examples.job_of "j1")
                  "http://sidecar:3000" 200 "failure" (Examples.result_of "failure")
                  eq_refl ltac:(lia) eq_refl)).
Defined.

(** * Further properties of the semaphore and the processor *)

Section SemaphoreMore.
Import concurrency SemaphoreRuns PoolRuns.

Lemma can_send_room s :
  consistent s -> can_send s = (active s <? capacity s).
Proof. unfold consistent, can_send. intros (-> & _). reflexivity. Qed.

Lemma try_acquires_spec n : forall s,
  consistent s ->
  let room := Z.to_nat (capacity s - active s) in
  exists s',
    try_acquires n s = (replicate (n `min` room) true ++ replicate (n - room) false, s') /\
    consistent s' /\
    active s' = active s + Z.of_nat (n `min` room) /\
    capacity s' = capacity s.
Proof.
  induction n as [|n IH]; intros s Hs room.
  - exists s. simpl. split; [reflexivity|]. split; [exact Hs|]. split; [lia | reflexivity].
  - cbn [try_acquires]. unfold TryAcquire.
    pose proof (can_send_room s Hs) as Hsend.
    destruct (Z.ltb_spec (active s) (capacity s)) as [Hlt|Hge]; rewrite Hsend.
    + destruct (consistent_acquire_room s Hs Hsend) as [_ Hinc].
      unfold ActiveCount in Hinc.
      destruct (IH (acquired s) (acquired_consistent s Hs Hsend))
        as (s' & -> & Hs' & Ha' & Hc').
      change (capacity (acquired s)) with (capacity s) in *.
      rewrite Hinc in *.
      exists s'. replace room with (S (Z.to_nat (capacity s - (active s + 1))))
        by (unfold room; lia).
      split; [reflexivity|]. split; [exact Hs'|]. split; [|exact Hc'].
      rewrite Ha'. cbn [Nat.min]. lia.
    + destruct (IH s Hs) as (s' & -> & Hs' & Ha' & Hc').
      fold room in Ha' |- *.
      assert (Hroom : room = O) by (unfold room; destruct Hs as (_ & _ & ? & _); lia).
      rewrite Hroom in *. rewrite Nat.min_0_r in *. rewrite Nat.sub_0_r.
      exists s'. split; [reflexivity|]. split; [exact Hs'|]. split; [|exact Hc']. lia.
Qed.

(** X17.  [TryAcquire] called over and over on a new semaphore, with
    no release, returns true for the first calls, as many as the
    capacity, and false for every call after them; the active count
    ends at the smaller of the number of calls and the capacity.  The
    capacity is the one asked for, or 1 when that was zero or
    negative. *)
Theorem TryAcquire_fills_to_capacity (c : Z) (n : nat) :
  let cap := if c <=? 0 then 1 else c in
  cap <= Go.int_max ->
  let '(bs, s) := try_acquires n (NewSemaphore c) in
  bs = replicate (n `min` Z.to_nat cap) true ++ replicate (n - Z.to_nat cap) false /\
  ActiveCount s = Z.min (Z.of_nat n) cap /\
  Capacity s = cap.
Proof.
  intros cap Hcap.
  assert (Hpos : 1 <= cap) by (unfold cap; destruct (Z.leb_spec c 0); lia).
  assert (Hnew : NewSemaphore c = NewSemaphore cap).
  { unfold NewSemaphore, cap. destruct (Z.leb_spec c 0) as [Hc|Hc]; [reflexivity|].
    destruct (Z.leb_spec c 0); [lia | reflexivity]. }
  destruct (NewSemaphore_consistent cap ltac:(lia)) as [Hs Hc].
  rewrite Hnew.
  destruct (try_acquires_spec n (NewSemaphore cap) Hs) as (s' & -> & _ & Ha & Hc').
  rewrite Hc in *. change (active (NewSemaphore cap)) with 0 in *.
  rewrite Z.sub_0_r in *.
  split; [reflexivity|]. unfold ActiveCount, Capacity. split; [lia | exact Hc'].
Qed.

(** X18.  On a semaphore whose fields agree, a [Release] undoes an
    acquire exactly: after a [TryAcquire] or an [Acquire] that
    returned true, [Release] returns without a panic and the semaphore
    is as it was before the acquire.  [Wait] returns at once exactly
    when the active count is 0, and blocks otherwise. *)
Theorem acquire_release_round_trip (s : Semaphore) :
  consistent s ->
  (forall s', TryAcquire s = Returns true s' -> Release s' = Returns tt s) /\
  (forall done pick s', Acquire done pick s = Returns true s' -> Release s' = Returns tt s) /\
  (Wait s = Returns tt s <-> ActiveCount s = 0) /\
  (ActiveCount s <> 0 -> Wait s = Blocks).
Proof.
  intros Hs.
  assert (Hback : can_send s = true -> Release (acquired s) = Returns tt s).
  { intros Hsend. destruct (consistent_acquire_room s Hs Hsend) as [Hlt Hinc].
    unfold ActiveCount in *. destruct Hs as (Hch & Hwg & Ha & Hc).
    unfold Release. cbn [ch acquired wg capacity active] in *.
    destruct (Z.ltb_spec (wg s + 1 - 1) 0); [lia|].
    rewrite Hinc.
    rewrite wrap_in_range by (unfold Go.in_range, Go.int_min, Go.int_max in *; lia).
    destruct s as [ch0 cap0 act0 wg0]. cbn in *. f_equal. f_equal; lia. }
  split; [|split; [|split]].
  - unfold TryAcquire. intros s'. destruct (can_send s) eqn:Hsend; [|discriminate].
    intros Heq. injection Heq as <-. by apply Hback.
  - unfold Acquire. intros done pick s'.
    destruct (can_send s) eqn:Hsend, done, pick; try discriminate;
      intros Heq; injection Heq as <-; by apply Hback.
  - unfold Wait, ActiveCount. destruct Hs as (_ & Hwg & _). rewrite Hwg.
    destruct (Z.eqb_spec (active s) 0); split; done.
  - unfold Wait, ActiveCount. destruct Hs as (_ & Hwg & _). rewrite Hwg.
    intros Hne. by destruct (Z.eqb_spec (active s) 0).
Qed.

End SemaphoreMore.

(** X17, at a concrete input: five tries on a semaphore of capacity 2. *)
Lemma TryAcquire_fills_to_capacity_witness :
  fst (PoolRuns.try_acquires 5 (concurrency.NewSemaphore 2))
    = [true; true; false; false; false].
Proof.
  generalize (TryAcquire_fills_to_capacity 2 5 ltac:(vm_compute; discriminate)).
  destruct (PoolRuns.try_acquires 5 (concurrency.NewSemaphore 2)) as [bs s].
  intros (-> & _). reflexivity.
Defined.

(** X18, at a concrete input: a new semaphore of capacity 1. *)
Lemma acquire_release_round_trip_witness :
  concurrency.Release (concurrency.acquired (concurrency.NewSemaphore 1))
    = concurrency.Returns tt (concurrency.NewSemaphore 1).
Proof.
  refine (proj1 (acquire_release_round_trip (concurrency.NewSemaphore 1) _) _ eq_refl).
  vm_compute. repeat split; discriminate.
Defined.

Section ProcessorMore.
Import job concurrency SemaphoreRuns ProcessorRuns PoolRuns.
Context {E : Type} `{JobExecutor E}.

(** X20.  Admission on a running processor whose context is not
    cancelled: [ProcessJob] never returns an error.  With fewer active
    jobs than the capacity it returns nil, the job is handed to one
    new goroutine and the active count goes up by one; at capacity it
    does not return until a token is released or the context is
    cancelled. *)
Theorem ProcessJob_admits_or_blocks (pick : bool) (job : SidekiqJob)
    (cp : @ConcurrentProcessor E) :
  processor_ok cp -> running cp = true -> ctx_done cp = false ->
  (ActiveJobs cp < capacity (semaphore cp) ->
     exists cp',
       ProcessJob pick job cp = Returns None cp' /\
       goroutines cp' = goroutines cp ++ [job] /\
       ActiveJobs cp' = ActiveJobs cp + 1 /\
       processor_ok cp') /\
  (ActiveJobs cp = capacity (semaphore cp) -> ProcessJob pick job cp = Blocks) /\
  ActiveJobs cp <= capacity (semaphore cp).
Proof.
  intros Hok Hr Hd. pose proof Hok as (Hs & Ha & Hw).
  pose proof (can_send_room _ Hs) as Hsend.
  unfold ActiveJobs, ActiveCount. split; [|split].
  - intros Hlt. apply Z.ltb_lt in Hlt. rewrite Hlt in Hsend.
    assert (Hrun : ProcessJob pick job cp
                   = Returns None
                       {| semaphore := acquired (semaphore cp); ctx_done := ctx_done cp;
                          pwg := pwg cp + 1; running := running cp;
                          goroutines := goroutines cp ++ [job];
                          executor := executor cp; log := log cp |}).
    { unfold ProcessJob, Acquire. by rewrite Hr, Hd, Hsend. }
    eexists. split; [exact Hrun|]. split; [reflexivity|]. split.
    + exact (proj2 (consistent_acquire_room _ Hs Hsend)).
    + exact (proj1 (ProcessJob_ok _ _ _ _ Hok Hrun)).
  - intros Heq. unfold ProcessJob, Acquire. rewrite Hr, Hd, Hsend.
    destruct (Z.ltb_spec (active (semaphore cp)) (capacity (semaphore cp))); [lia|].
    reflexivity.
  - destruct Hs as (_ & _ & Hact & _). lia.
Qed.

End ProcessorMore.

(** X20, at a concrete input: a processor of capacity 1 takes one job
    and holds the caller at the second. *)
Lemma ProcessJob_admits_or_blocks_witness :
  exists cp',
    @concurrency.ProcessJob unit true (Examples.job_of "a")
      (concurrency.NewConcurrentProcessor 1 tt) = concurrency.Returns None cp' /\
    @concurrency.ProcessJob unit true (Examples.job_of "b") cp' = concurrency.Blocks.
Proof.
  destruct (@ProcessJob_admits_or_blocks unit true (Examples.job_of "a")
              (concurrency.NewConcurrentProcessor 1 tt)) as (Hadmit & _).
  - apply (@NewConcurrentProcessor_ok unit). vm_compute. split; discriminate.
  - reflexivity.
  - reflexivity.
  - destruct (Hadmit ltac:(reflexivity)) as (cp' & Hrun & Hg & Hact & Hok').
    exists cp'. split; [exact Hrun|].
    injection Hrun as <-.
    exact (proj1 (proj2 (@ProcessJob_admits_or_blocks unit true (Examples.job_of "b") _
                           Hok' eq_refl eq_refl)) eq_refl).
Defined.

(** * Further properties of the supervisor loop *)

Section LoopTurns.
Import job redis concurrency ProcessorRuns worker.
Context {E : Type} `{JobExecutor E} `{JSON}.

Lemma ProcessJob_no_panic pick job (cp : @ConcurrentProcessor E) :
  ProcessJob pick job cp <> Panics.
Proof.
  unfold ProcessJob, Acquire.
  destruct (running cp), (can_send (semaphore cp)), (ctx_done cp), pick; discriminate.
Qed.

(** X22.  One turn of the worker loop with a job waiting.  The loop
    takes the head of the first queue, in the order configured, that
    is not empty.  When the processor has room the job goes to one new
    goroutine and the loop goes round again without sleeping or
    logging.  When the processor is at capacity the loop is held
    inside [ProcessJob] with the job in hand: the job has left its
    queue already, and is in no collection of the store while the
    loop waits. *)
Theorem turn_takes_first_waiting_job (pick : bool) (before after : list string)
    (queue payload : string) (tl : list string) (PollInterval : Z) (w : @World E)
    (job : SidekiqJob) :
  wire (redisClient w) = [] ->
  (forall q, In q before -> lrange (Client.queue_key q) (redisClient w) = []) ->
  lrange (Client.queue_key queue) (redisClient w) = payload :: tl ->
  Unmarshal payload = Some job ->
  processor_ok (processor w) ->
  running (processor w) = true -> ctx_done (processor w) = false ->
  let Queues := before ++ queue :: after in
  let st' := set_list (Client.queue_key queue) tl (redisClient w) in
  (ActiveJobs (processor w) < capacity (semaphore (processor w)) ->
     exists cp',
       iteration false pick Queues PollInterval w
         = Again {| redisClient := st'; processor := cp'; output := output w |} [] /\
       goroutines cp' = goroutines (processor w) ++ [job] /\
       ActiveJobs cp' = ActiveJobs (processor w) + 1) /\
  (ActiveJobs (processor w) = capacity (semaphore (processor w)) ->
     iteration false pick Queues PollInterval w
       = Held {| redisClient := st'; processor := processor w; output := output w |} job) /\
  lrange (Client.queue_key queue) st' = tl /\
  zsets st' = zsets (redisClient w).
Proof.
  intros Hw Hempty Hhead Hdec Hok Hr Hd Queues st'.
  pose proof Hok as (Hs & Ha & Hpw).
  assert (Hsend : can_send (semaphore (processor w))
                  = (active (semaphore (processor w)) <? capacity (semaphore (processor w))))
    by (unfold can_send; destruct Hs as (-> & _); reflexivity).
  assert (Hpoll : Client.PollJobs Queues (redisClient w) = (inl (Some job), st')).
  { unfold Queues. rewrite (PollJobs_first_nonempty before after queue payload tl _
                              Hw Hempty Hhead). by rewrite Hdec. }
  unfold iteration. rewrite Hpoll. unfold ActiveJobs, ActiveCount.
  split; [|split; [|split; [apply lrange_set_list | reflexivity]]].
  - intros Hlt. apply Z.ltb_lt in Hlt. rewrite Hlt in Hsend.
    unfold ProcessJob, Acquire. rewrite Hr, Hd, Hsend. cbn [negb].
    eexists. split; [reflexivity|]. split; [reflexivity|].
    exact (proj2 (consistent_acquire_room _ Hs Hsend)).
  - intros Heq. unfold ProcessJob, Acquire. rewrite Hr, Hd, Hsend. cbn [negb].
    destruct (Z.ltb_spec (active (semaphore (processor w)))
                (capacity (semaphore (processor w)))); [lia | reflexivity].
Qed.

(** X23.  What a turn of the worker loop can come to, for any store,
    processor and queues.  It never panics, and it returns only when
    the context is cancelled.  It never writes to a sorted set, so it
    neither schedules nor promotes nor buries a job.  It sleeps one
    second after a poll error, which it logs, and the poll interval
    when there was no job, and does not sleep after a job; and the
    processor is changed only by a job accepted, which goes to one new
    goroutine. *)
Theorem turn_outcomes (cancelled pick : bool) (Queues : list string) (PollInterval : Z)
    (w : @World E) :
  match iteration cancelled pick Queues PollInterval w with
  | Return => cancelled = true
  | Panic => False
  | Held w' job =>
      cancelled = false /\
      zsets (redisClient w') = zsets (redisClient w) /\
      processor w' = processor w /\ output w' = output w
  | Again w' slept =>
      cancelled = false /\
      zsets (redisClient w') = zsets (redisClient w) /\
      ((exists err,
          slept = [1 * Go.Second] /\ output w' = output w ++ [LogPollError err] /\
          processor w' = processor w) \/
       (slept = [PollInterval] /\ output w' = output w /\ processor w' = processor w /\
        lists (redisClient w') = lists (redisClient w)) \/
       (slept = [] /\
        ((exists job,
            goroutines (processor w') = goroutines (processor w) ++ [job] /\
            output w' = output w) \/
         (exists err,
            processor w' = processor w /\ output w' = output w ++ [LogSubmitError err]))))
  end.
Proof.
  unfold iteration. destruct cancelled; [reflexivity|].
  pose proof (PollJobs_zsets Queues (redisClient w)) as Hz.
  destruct (Client.PollJobs Queues (redisClient w)) as [[[job|]|err] st] eqn:Hpoll;
    cbn [snd] in Hz.
  - pose proof (ProcessJob_no_panic pick job (processor w)) as Hnp.
    destruct (ProcessJob pick job (processor w)) as [[err|] cp| |] eqn:Hrun;
      [| | |contradiction].
    + destruct (ProcessJob_error _ _ _ _ _ Hrun) as [-> _].
      split; [reflexivity|]. split; [exact Hz|]. right. right.
      split; [reflexivity|]. right. by exists err.
    + split; [reflexivity|]. split; [exact Hz|]. right. right.
      split; [reflexivity|]. left. exists job. split; [|reflexivity].
      unfold ProcessJob, Acquire in Hrun.
      destruct (running (processor w)), (can_send (semaphore (processor w))),
        (ctx_done (processor w)), pick; try discriminate; by injection Hrun as <-.
    + by repeat split.
  - split; [reflexivity|]. split; [exact Hz|]. right. left.
    repeat split. cbn [redisClient].
    unfold Client.PollJobs, BLPop in Hpoll.
    pose proof (proj1 (send_keeps (redisClient w))) as Hl.
    destruct (send (redisClient w)) as [[|] st1]; cbn [snd] in Hl; [|discriminate].
    destruct (map Client.queue_key Queues) as [|k ks]; [discriminate|].
    destruct (blpop_scan (k :: ks) st1) as [[[key v] st2]|].
    + destruct (Unmarshal v); discriminate.
    + injection Hpoll as <-. exact Hl.
  - split; [reflexivity|]. split; [exact Hz|]. left. by exists err.
Qed.

End LoopTurns.

(** X22, at a concrete input: the example world, one job on the
    default queue and a processor of capacity 1. *)
Lemma turn_takes_first_waiting_job_witness :
  exists cp',
    @worker.iteration unit Examples.codec false true ([] ++ "default" :: []) 0
      ExampleWorlds.fresh
      = worker.Again {| worker.redisClient :=
                          redis.set_list "queue:default" []
                            (worker.redisClient ExampleWorlds.fresh);
                        worker.processor := cp'; worker.output := [] |} [] /\
    concurrency.goroutines cp' = [Examples.job_of "j1"].
Proof.
  destruct (@turn_takes_first_waiting_job unit Examples.codec true [] [] "default" "j1" [] 0
              ExampleWorlds.fresh (Examples.job_of "j1")) as (Hroom & _).
  - reflexivity.
  - intros q [].
  - reflexivity.
  - reflexivity.
  - vm_compute. repeat split; discriminate.
  - reflexivity.
  - reflexivity.
  - destruct (Hroom ltac:(reflexivity)) as (cp' & Hturn & Hg & _).
    exists cp'. split; [exact Hturn | exact Hg].
Defined.

(** * Further properties of the gRPC client *)

Section GRPCMore.
Import job sidecar.

(** X24.  What the gRPC request leaves out.  The argument types do
    not travel: a job whose arguments are replaced by the strings the
    client prints for them makes the same request, and so gets the
    same answer from any sidecar; a number and the string of its
    digits cannot be told apart.  Nor does the retry bookkeeping: two
    jobs that differ only in retry count, failure time and error
    fields make the same request. *)
Theorem build_request_erases_types (jobData : SidekiqJob) :
  let printed :=
    {| Class := Class jobData;
       Args := map (fun arg => VString (Sprintf_v arg)) (Args jobData);
       JID := JID jobData; Queue := Queue jobData;
       CreatedAt := CreatedAt jobData; EnqueuedAt := EnqueuedAt jobData;
       Retry := Retry jobData; FailedAt := FailedAt jobData;
       ErrorMsg := ErrorMsg jobData; ErrorClass := ErrorClass jobData |} in
  build_request printed = build_request jobData /\
  (forall rpc, GRPC_ExecuteJob rpc printed = GRPC_ExecuteJob rpc jobData) /\
  (forall retry failedAt msg class,
      build_request
        {| Class := Class jobData; Args := Args jobData;
           JID := JID jobData; Queue := Queue jobData;
           CreatedAt := CreatedAt jobData; EnqueuedAt := EnqueuedAt jobData;
           Retry := retry; FailedAt := failedAt;
           ErrorMsg := msg; ErrorClass := class |}
      = build_request jobData).
Proof.
  intros printed.
  assert (Heq : build_request printed = build_request jobData).
  { unfold build_request, printed. cbn [Class Args JID Queue CreatedAt EnqueuedAt].
    f_equal. rewrite map_map. apply map_ext. intros arg. reflexivity. }
  split; [exact Heq|]. split; [|reflexivity].
  intros rpc. unfold GRPC_ExecuteJob. by rewrite Heq.
Qed.

End GRPCMore.

(** * Queue sizes *)

Section Sizes.
Import job redis.
Context `{JSON}.

Lemma queue_key_inj q q' : Client.queue_key q = Client.queue_key q' -> q = q'.
Proof. unfold Client.queue_key. intros Heq. by simplify_eq/=. Qed.

Lemma produce_other queue jobs : forall st key,
  key <> Client.queue_key queue ->
  lrange key (Runs.produce queue jobs st) = lrange key st.
Proof.
  induction jobs as [|p ps IH]; intros st key Hne; [reflexivity|].
  unfold Runs.produce in *. cbn [foldl]. rewrite IH by exact Hne.
  unfold LPush. destruct (send st) as [[|] st1] eqn:Hsend; cbn [snd].
  - rewrite lrange_set_list_ne by congruence.
    unfold lrange. by rewrite <- (proj1 (send_keeps st)), Hsend.
  - unfold lrange. by rewrite <- (proj1 (send_keeps st)), Hsend.
Qed.

(** X25.  [GetQueueSize] on a healthy connection only reads, and
    counts what the producer pushed: after [jobs] are pushed onto a
    queue its size is up by their number, a poll that takes a job
    from it brings it down by one, and the size of every other queue
    is what it was. *)
Theorem GetQueueSize_counts (queue : string) (jobs : list string) (st : Store) :
  wire st = [] ->
  let st' := Runs.produce queue jobs st in
  let before := Z.of_nat (length (lrange (Client.queue_key queue) st)) in
  Client.GetQueueSize queue st = (Reply before, st) /\
  Client.GetQueueSize queue st' = (Reply (before + Z.of_nat (length jobs)), st') /\
  (forall other, other <> queue ->
     fst (Client.GetQueueSize other st') = fst (Client.GetQueueSize other st)) /\
  (jobs <> [] ->
     fst (Client.GetQueueSize queue (snd (Client.PollJobs [queue] st')))
       = Reply (before + Z.of_nat (length jobs) - 1)).
Proof.
  intros Hw st' before.
  destruct (produce_spec queue jobs st Hw) as [Hw' Hl].
  fold st' in Hw', Hl.
  assert (Hsize : forall q s, wire s = [] ->
            Client.GetQueueSize q s
              = (Reply (Z.of_nat (length (lrange (Client.queue_key q) s))), s)).
  { intros q s Hs. unfold Client.GetQueueSize, LLen. by rewrite (send_healthy _ Hs). }
  split; [by apply Hsize|]. split; [|split].
  - rewrite (Hsize _ _ Hw'), Hl, length_app, length_rev. do 2 f_equal. unfold before. lia.
  - intros other Hne. rewrite (Hsize _ _ Hw'), (Hsize _ _ Hw). cbn [fst].
    unfold st'. rewrite produce_other; [reflexivity|].
    intros Heq. apply Hne. by apply queue_key_inj.
  - intros Hne.
    destruct (rev jobs) as [|p ps] eqn:Hrev.
    { apply (f_equal (@length string)) in Hrev. rewrite length_rev in Hrev.
      destruct jobs; [congruence | discriminate]. }
    assert (Hlen : length jobs = S (length ps))
      by (rewrite <- (length_rev jobs), Hrev; reflexivity).
    cbn [app] in Hl.
    rewrite (PollJobs_head queue p (ps ++ lrange (Client.queue_key queue) st) st' Hw' Hl).
    cbn [snd]. rewrite Hsize by exact Hw'. cbn [fst].
    rewrite lrange_set_list, length_app, Hlen. f_equal. unfold before. lia.
Qed.

End Sizes.

(** X25, at a concrete input: two jobs pushed onto an empty default
    queue, one polled. *)
Lemma GetQueueSize_counts_witness :
  let st := Client.enqueue_batch ["a"; "b"] Examples.empty_store in
  fst (Client.GetQueueSize "default" st) = redis.Reply 2 /\
  fst (Client.GetQueueSize "default" (snd (@Client.PollJobs Examples.codec ["default"] st)))
    = redis.Reply 1.
Proof.
  intros st.
  destruct (@GetQueueSize_counts Examples.codec "default" ["a"; "b"] Examples.empty_store
              eq_refl) as (_ & Hsize & _ & Hpoll).
  split.
  - exact (f_equal fst Hsize).
  - apply Hpoll. discriminate.
Defined.

(** ** Promotion and the encoding of the record *)

Section Reencoding.
Import job redis Sweep.
Context `{JSON}.

(** X26.  [MoveScheduledToQueue] finds the entry to remove by the
    record's encoding, not by the entry it was read from.  When a
    schedule entry decodes to a record whose encoding differs from the
    entry's member, promoting that record pushes it onto its queue and
    leaves the entry in the schedule, so every later sweep that finds
    the entry due returns the record again.  When the encoding is the
    member itself, no entry with that member is left.  (Healthy
    connection.) *)
Theorem promotion_needs_exact_reencoding (score : Q) (member : string) (j : SidekiqJob)
    (st : Store) :
  wire st = [] ->
  In (score, member) (zrange "schedule" st) ->
  Unmarshal member = Some j ->
  let '(err, st') := MoveScheduledToQueue j st in
  err = None /\
  lrange (Client.queue_key (Queue j)) st'
    = Marshal j :: lrange (Client.queue_key (Queue j)) st /\
  (Marshal j <> member ->
     In (score, member) (zrange "schedule" st') /\
     forall t, (score <= Go.float64 (Go.Unix t))%Q ->
       exists jobs, GetScheduledJobs t st' = (inl jobs, st') /\ In j jobs) /\
  (Marshal j = member ->
     forall score', ~ In (score', member) (zrange "schedule" st')).
Proof.
  intros Hw Hin Hdec. unfold MoveScheduledToQueue. rewrite (send_healthy _ Hw).
  set (z' := zremove (Marshal j) (zrange "schedule" st)).
  set (st1 := set_zset "schedule" z' st).
  set (key := Client.queue_key (Queue j)).
  assert (Hz : zrange "schedule" (set_list key (Marshal j :: lrange key st1) st1) = z')
    by apply (zrange_set_zset "schedule" z' st).
  split; [reflexivity|]. split; [apply lrange_set_list|]. split.
  - intros Hne.
    assert (Hstay : In (score, member) z').
    { apply In_zremove. split; [|exact Hin]. cbn [snd]. congruence. }
    split; [by rewrite Hz|].
    intros t Hdue. eexists.
    split; [apply GetScheduledJobs_healthy; exact Hw|].
    apply In_swept. exists score, member. rewrite Hz. by repeat split.
  - intros Heq score' Hin'. rewrite Hz in Hin'.
    apply In_zremove in Hin' as [Hne _]. cbn [snd] in Hne. congruence.
Qed.

End Reencoding.

(** X26, at a concrete input: an entry written with a leading space,
    which the stand-in codec reads and does not write. *)
Lemma promotion_needs_exact_reencoding_witness :
  let st := redis.set_zset "schedule" [(inject_Z 10, " j1")] Examples.empty_store in
  let run := @Sweep.MoveScheduledToQueue ExampleRetry.spaced (Examples.job_of "j1") st in
  fst run = None /\
  redis.lrange "queue:default" (snd run) = ["j1"] /\
  In (inject_Z 10, " j1") (redis.zrange "schedule" (snd run)) /\
  exists jobs,
    @Sweep.GetScheduledJobs ExampleRetry.spaced (20 * Go.Second) (snd run)
      = (inl jobs, snd run) /\
    In (Examples.job_of "j1") jobs.
Proof.
  intros st. cbv zeta.
  generalize (@promotion_needs_exact_reencoding ExampleRetry.spaced (inject_Z 10) " j1"
                (Examples.job_of "j1") st eq_refl ltac:(left; reflexivity) eq_refl).
  destruct (@Sweep.MoveScheduledToQueue ExampleRetry.spaced (Examples.job_of "j1") st)
    as [err st'].
  intros (-> & Hl & Hstay & _). cbn [fst snd].
  destruct (Hstay ltac:(discriminate)) as [Hin Hsweep].
  split; [reflexivity|]. split; [exact Hl|]. split; [exact Hin|].
  apply Hsweep. vm_compute. discriminate.
Defined.
